(** * Raft transport (storage/raft_transport.go)

    A shallow embedding of the raft transport: the sender facade
    ([SendAsync]), the per-destination outbound workers ([processQueue],
    with the node address resolution [resolveNodeID] it starts with) and
    the inbound dispatcher ([RaftMessage]).

    Goroutines are threads of a labelled transition system.  Every step is
    a deterministic function of the current state and of a label; the label
    names the thread that moves and carries what the environment decides
    at that point: which ready branch of a [select] is taken, and what a
    collaborator (the address resolver, gRPC, the stopper, a message
    handler) returns.  Channels and maps are heap objects shared by
    reference in the source; they are kept in one shared store and the
    threads hold their identifiers.  Log output is not part of the state. *)

From stdpp Require Import base decidable countable gmap list strings.
From Stdlib Require Import ZArith Lia.

(** ** Data model *)

Module roachpb.
(* roachpb.NodeID, StoreID and ReplicaID are int32, RangeID is int64;
   the transport only compares them. *)
Abbreviation NodeID := Z (only parsing).
Abbreviation StoreID := Z (only parsing).
Abbreviation ReplicaID := Z (only parsing).
Abbreviation RangeID := Z (only parsing).
End roachpb.

Record ReplicaDescriptor := {
  NodeID : roachpb.NodeID;
  StoreID : roachpb.StoreID;
  ReplicaID : roachpb.ReplicaID
}.

#[global] Instance ReplicaDescriptor_eq_dec : EqDecision ReplicaDescriptor.
Proof. solve_decision. Defined.

#[global] Instance ReplicaDescriptor_countable : Countable ReplicaDescriptor.
Proof.
  refine (inj_countable'
            (λ r, (NodeID r, StoreID r, ReplicaID r))
            (λ t, {| NodeID := t.1.1; StoreID := t.1.2; ReplicaID := t.2 |}) _).
  by intros [].
Defined.

Module raftpb.
(* raftpb.MessageType of etcd/raft. *)
Inductive MessageType :=
| MsgHup | MsgBeat | MsgProp | MsgApp | MsgAppResp | MsgVote | MsgVoteResp
| MsgSnap | MsgHeartbeat | MsgHeartbeatResp | MsgUnreachable | MsgSnapStatus
| MsgCheckQuorum | MsgTransferLeader | MsgTimeoutNow.

#[global] Instance MessageType_eq_dec : EqDecision MessageType.
Proof. solve_decision. Defined.

(* The payload is opaque to the transport; only [Type_] is inspected. *)
Record Message := { Type_ : MessageType; Term : Z; Index : Z }.

#[global] Instance Message_eq_dec : EqDecision Message.
Proof. solve_decision. Defined.
End raftpb.

Record RaftMessageRequest := {
  RangeID : roachpb.RangeID;
  FromReplica : ReplicaDescriptor;
  ToReplica : ReplicaDescriptor;
  Message : raftpb.Message
}.

#[global] Instance RaftMessageRequest_eq_dec : EqDecision RaftMessageRequest.
Proof. solve_decision. Defined.

(** Values of Go's [error] interface; [nil] is [None] of [option error]. *)
Inductive error :=
| ErrResolutionStopped (nodeID : roachpb.NodeID)
    (* "address resolution for %s stopped before completion" *)
| ErrNoStore (to from : ReplicaDescriptor)
    (* "unable to accept Raft message from %+v: no store registered for %+v" *)
| ErrExternal (msg : string).
    (* an error value made by a collaborator *)

#[global] Instance error_eq_dec : EqDecision error.
Proof. solve_decision. Defined.

(** [net.Addr], kept as its string form. *)
Abbreviation Addr := string (only parsing).

Record RaftSnapshotStatus := {
  Req : RaftMessageRequest;
  Err : option error
}.

Module time.
(* time.Duration counts nanoseconds. *)
Definition Second : Z := 1000000000.
Definition Minute : Z := 60 * Second.
End time.

Definition raftSendBufferSize : nat := 100.
Definition raftIdleTimeout : Z := time.Minute.

(** [errHandler] and [raftMessageHandler] are function values of the
    callers; each is known by a name and its invocations are observed. *)
Record RaftSender := { onError : nat }.

(** What the threads do that the outside can see, in the order it happens. *)
Inductive Obs :=
| ObsResolver (nodeID : roachpb.NodeID) (res : Addr + error)
    (* t.resolver(nodeID) returned res *)
| ObsSend (i : nat) (req : RaftMessageRequest) (err : option error)
    (* stream.Send(req) of worker i returned err *)
| ObsSnapshotStatus (i : nat) (st : RaftSnapshotStatus)
    (* st, put on SnapshotStatusChan by worker i, was received *)
| ObsOnError (h : nat) (err : option error) (to : ReplicaDescriptor)
    (* onError(err, to) was called on the handler named h *)
| ObsHandler (h : nat) (req : RaftMessageRequest) (err : option error).
    (* the message handler named h was called on req and returned err *)

(** The state shared by all goroutines: the three maps under
    [RaftTransport.mu], the channels they refer to, the two signals of the
    stopper, the clock and the package variable [InitialResolveBackoff]. *)
Record World := {
  handlers : gmap Z nat;
  queues : gmap bool (gmap ReplicaDescriptor nat);
  addrLookups : gmap Z nat;
  (* chan *RaftMessageRequest: the buffered messages, oldest first *)
  sendBuf : gmap nat (list RaftMessageRequest);
  (* chan struct{}: those that have been closed *)
  closedCh : gset nat;
  nextCh : nat;
  quiesced : bool;   (* Stopper.ShouldQuiesce() is closed *)
  stopped : bool;    (* Stopper.ShouldStop() is closed *)
  now : Z;
  InitialResolveBackoff : Z;
  trace : list Obs
}.

Definition set_handlers (f : gmap Z nat → gmap Z nat) (w : World) : World :=
  {| handlers := f (handlers w); queues := queues w;
     addrLookups := addrLookups w; sendBuf := sendBuf w;
     closedCh := closedCh w; nextCh := nextCh w; quiesced := quiesced w;
     stopped := stopped w; now := now w;
     InitialResolveBackoff := InitialResolveBackoff w; trace := trace w |}.

Definition set_queues
    (f : gmap bool (gmap ReplicaDescriptor nat) →
         gmap bool (gmap ReplicaDescriptor nat)) (w : World) : World :=
  {| handlers := handlers w; queues := f (queues w);
     addrLookups := addrLookups w; sendBuf := sendBuf w;
     closedCh := closedCh w; nextCh := nextCh w; quiesced := quiesced w;
     stopped := stopped w; now := now w;
     InitialResolveBackoff := InitialResolveBackoff w; trace := trace w |}.

Definition set_addrLookups (f : gmap Z nat → gmap Z nat) (w : World) : World :=
  {| handlers := handlers w; queues := queues w;
     addrLookups := f (addrLookups w); sendBuf := sendBuf w;
     closedCh := closedCh w; nextCh := nextCh w; quiesced := quiesced w;
     stopped := stopped w; now := now w;
     InitialResolveBackoff := InitialResolveBackoff w; trace := trace w |}.

Definition set_sendBuf
    (f : gmap nat (list RaftMessageRequest) →
         gmap nat (list RaftMessageRequest)) (w : World) : World :=
  {| handlers := handlers w; queues := queues w;
     addrLookups := addrLookups w; sendBuf := f (sendBuf w);
     closedCh := closedCh w; nextCh := nextCh w; quiesced := quiesced w;
     stopped := stopped w; now := now w;
     InitialResolveBackoff := InitialResolveBackoff w; trace := trace w |}.

Definition set_closedCh (f : gset nat → gset nat) (w : World) : World :=
  {| handlers := handlers w; queues := queues w;
     addrLookups := addrLookups w; sendBuf := sendBuf w;
     closedCh := f (closedCh w); nextCh := nextCh w; quiesced := quiesced w;
     stopped := stopped w; now := now w;
     InitialResolveBackoff := InitialResolveBackoff w; trace := trace w |}.

Definition set_nextCh (f : nat → nat) (w : World) : World :=
  {| handlers := handlers w; queues := queues w;
     addrLookups := addrLookups w; sendBuf := sendBuf w;
     closedCh := closedCh w; nextCh := f (nextCh w); quiesced := quiesced w;
     stopped := stopped w; now := now w;
     InitialResolveBackoff := InitialResolveBackoff w; trace := trace w |}.

Definition set_quiesced (b : bool) (w : World) : World :=
  {| handlers := handlers w; queues := queues w;
     addrLookups := addrLookups w; sendBuf := sendBuf w;
     closedCh := closedCh w; nextCh := nextCh w; quiesced := b;
     stopped := stopped w; now := now w;
     InitialResolveBackoff := InitialResolveBackoff w; trace := trace w |}.

Definition set_stopped (b : bool) (w : World) : World :=
  {| handlers := handlers w; queues := queues w;
     addrLookups := addrLookups w; sendBuf := sendBuf w;
     closedCh := closedCh w; nextCh := nextCh w; quiesced := quiesced w;
     stopped := b; now := now w;
     InitialResolveBackoff := InitialResolveBackoff w; trace := trace w |}.

Definition set_now (f : Z → Z) (w : World) : World :=
  {| handlers := handlers w; queues := queues w;
     addrLookups := addrLookups w; sendBuf := sendBuf w;
     closedCh := closedCh w; nextCh := nextCh w; quiesced := quiesced w;
     stopped := stopped w; now := f (now w);
     InitialResolveBackoff := InitialResolveBackoff w; trace := trace w |}.

Definition emit (o : Obs) (w : World) : World :=
  {| handlers := handlers w; queues := queues w;
     addrLookups := addrLookups w; sendBuf := sendBuf w;
     closedCh := closedCh w; nextCh := nextCh w; quiesced := quiesced w;
     stopped := stopped w; now := now w;
     InitialResolveBackoff := InitialResolveBackoff w;
     trace := trace w ++ [o] |}.

(** [NewRaftTransport]: empty maps; nothing has happened yet.  The
    transport is built with a non-nil rpc context (and so a stopper). *)
Definition NewRaftTransport : World :=
  {| handlers := ∅; queues := ∅; addrLookups := ∅; sendBuf := ∅;
     closedCh := ∅; nextCh := 0; quiesced := false; stopped := false;
     now := 0; InitialResolveBackoff := time.Second; trace := [] |}.

(** [make(chan ..)]: a fresh channel identifier. *)
Definition makeSendChan (w : World) : World * nat :=
  (set_nextCh S (set_sendBuf (insert (nextCh w) []) w), nextCh w).

Definition makeSignalChan (w : World) : World * nat :=
  (set_nextCh S w, nextCh w).

(** [Listen] and [Stop]. *)
Definition Listen (storeID : roachpb.StoreID) (handler : nat) (w : World) : World :=
  set_handlers (insert storeID handler) w.

Definition Stop (storeID : roachpb.StoreID) (w : World) : World :=
  set_handlers (delete storeID) w.

(** [MakeSender]. *)
Definition MakeSender (onError : nat) : RaftSender := {| onError := onError |}.

(** ** The collaborators *)

(** The two signals of the stopper that the transport waits on. *)
Inductive Signal := ShouldQuiesce | ShouldStop.

#[global] Instance Signal_eq_dec : EqDecision Signal.
Proof. solve_decision. Defined.

Definition fired (sig : Signal) (w : World) : bool :=
  match sig with
  | ShouldQuiesce => quiesced w
  | ShouldStop => stopped w
  end.

Module retry.
(** Modelled from the spec: the package util/retry, which [resolveNodeID]
    drives its loop with, is not among the sources.  The spec describes it
    as a retry with exponential backoff, with an initial backoff, a
    multiplier and a cap, which aborts when the shutdown signal (the
    [Closer]) fires.  [Next] does not wait before the first attempt; the
    model lets the closer end the loop at any call of [Next]. *)
Record Options := {
  InitialBackoff : Z;
  MaxBackoff : Z;
  Multiplier : Z;
  Closer : Signal
}.

Record Retry := {
  opts : Options;
  currentAttempt : nat;
  isReset : bool
}.

#[global] Instance Options_eq_dec : EqDecision Options.
Proof. solve_decision. Defined.

#[global] Instance Retry_eq_dec : EqDecision Retry.
Proof. solve_decision. Defined.

(** Modelled from the spec: the state of a loop that has made no attempt
    yet. *)
Definition Start (o : Options) : Retry :=
  {| opts := o; currentAttempt := 0; isReset := true |}.

(** Modelled from the spec: the wait before the next attempt, the initial
    backoff times the multiplier to the power of the attempts made so far,
    capped. *)
Definition retryIn (r : Retry) : Z :=
  Z.min (InitialBackoff (opts r) * Multiplier (opts r) ^ Z.of_nat (currentAttempt r))
        (MaxBackoff (opts r)).

(** Modelled from the spec: the state of the loop after a call of [Next]
    that returned true. *)
Definition Next (r : Retry) : Retry :=
  if isReset r
  then {| opts := opts r; currentAttempt := currentAttempt r; isReset := false |}
  else {| opts := opts r; currentAttempt := S (currentAttempt r); isReset := false |}.
End retry.

(** ** The outbound worker: processQueue, and resolveNodeID inside it *)

(** Where a worker goroutine stands.  The first four phases are inside
    [resolveNodeID], the next five inside the rest of [processQueue], the
    last three in the closure that [SendAsync] hands to [RunWorker].  The
    deferred [cancel] and [raftIdleTimer.Stop] of [processQueue] touch
    nothing of the state kept here. *)
Inductive Phase :=
| PResolveEnter
    (* resolveNodeID called, mutex not yet taken *)
| PResolveWait (ch : nat)
    (* ok: blocked in select { <-ch; <-ShouldQuiesce() } *)
| PResolveRetry (ch : nat) (r : retry.Retry) (wake : Z)
    (* !ok: in r.Next() of the for loop; the backoff ends at wake *)
| PResolveDefer (ch : nat) (res : Addr + error)
    (* !ok: returning res, the deferred delete still to run *)
| PDial (addr : Addr)
| POpenStream
| PStartReader
| PSelect (deadline : Z)
    (* blocked in the select of the main loop; raftIdleTimer fires at deadline *)
| PPublish (req : RaftMessageRequest) (err : option error)
    (* blocked in select { <-ShouldStop(); SnapshotStatusChan <- {req, err} } *)
| PReturn (err : option error)
    (* processQueue returned err; onError not yet called *)
| PCleanup
    (* onError returned; the delete from the registry still to run *)
| PExited.

#[global] Instance Phase_eq_dec : EqDecision Phase.
Proof. solve_decision. Defined.

(** A worker goroutine: the variables its closure captured ([s], [ch],
    [toReplica], and [queues], which is the inner map of class [wSnap]) and
    its phase. *)
Record Worker := {
  wSender : RaftSender;
  wSnap : bool;
  wCh : nat;
  wTo : ReplicaDescriptor;
  wPhase : Phase
}.

Definition set_wPhase (p : Phase) (wk : Worker) : Worker :=
  {| wSender := wSender wk; wSnap := wSnap wk; wCh := wCh wk;
     wTo := wTo wk; wPhase := p |}.

(** What lets a worker take its next step.  Workers are numbered in the
    order they are started. *)
Inductive Event :=
| EvLock
    (* resolveNodeID: the section under the mutex *)
| EvSignalled (res : Addr + error)
    (* case <-ch, and t.resolver returns res *)
| EvQuiesced
    (* case <-ShouldQuiesce() *)
| EvAttempt (res : Addr + error)
    (* r.Next() returns true, and t.resolver returns res *)
| EvCloser
    (* r.Next() returns false *)
| EvDeferred
    (* the deferred function of resolveNodeID *)
| EvDial (err : option error)
    (* GRPCDial returns err *)
| EvStream (err : option error)
    (* client.RaftMessage returns err *)
| EvRunTask (err : option error)
    (* Stopper.RunTask returns err *)
| EvShouldStop
    (* case <-ShouldStop() *)
| EvIdle
    (* case <-raftIdleTimer.C *)
| EvErrCh (err : option error)
    (* case err := <-errCh: the reader's RecvMsg returned err *)
| EvRecv (err : option error)
    (* case req := <-ch, and stream.Send(req) returns err *)
| EvStatus
    (* case SnapshotStatusChan <- ..: the consumer took the status *)
| EvOnError
    (* s.onError(.., toReplica) *)
| EvDelete.
    (* delete(queues, toReplica) under the mutex *)

(** The options [resolveNodeID] starts its retry loop with. *)
Definition resolveOpts (w : World) : retry.Options :=
  {| retry.InitialBackoff := InitialResolveBackoff w;
     retry.MaxBackoff := 10 * time.Second;
     retry.Multiplier := 2;
     retry.Closer := ShouldQuiesce |}.

(** [processQueue] after [resolveNodeID] returned. *)
Definition afterResolve (res : Addr + error) : Phase :=
  match res with
  | inl addr => PDial addr
  | inr err => PReturn (Some err)
  end.

(** [processQueue] after a step that may fail before the main loop. *)
Definition orReturn (err : option error) (next : Phase) : Phase :=
  match err with
  | Some e => PReturn (Some e)
  | None => next
  end.

(** The main loop after [stream.Send] and the snapshot status: a non-nil
    error is returned, otherwise the next iteration resets the idle timer. *)
Definition afterSend (w : World) (err : option error) : Phase :=
  match err with
  | Some e => PReturn (Some e)
  | None => PSelect (now w + raftIdleTimeout)
  end.

Definition worker_step (i : nat) (w : World) (wk : Worker) (ev : Event)
  : option (World * Phase) :=
  let nodeID := NodeID (wTo wk) in
  match wPhase wk, ev with
  (* resolveNodeID *)
  | PResolveEnter, EvLock =>
      match addrLookups w !! nodeID with
      | Some ch => Some (w, PResolveWait ch)
      | None =>
          let '(w1, ch) := makeSignalChan w in
          Some (set_addrLookups (insert nodeID ch) w1,
                PResolveRetry ch (retry.Start (resolveOpts w)) (now w))
      end
  | PResolveWait ch, EvSignalled res =>
      if decide (ch ∈ closedCh w)
      then Some (emit (ObsResolver nodeID res) w, afterResolve res)
      else None
  | PResolveWait ch, EvQuiesced =>
      if quiesced w
      then Some (w, afterResolve (inr (ErrResolutionStopped nodeID)))
      else None
  | PResolveRetry ch r wake, EvAttempt res =>
      if retry.isReset r || bool_decide (wake ≤ now w)%Z then
        let r' := retry.Next r in
        let w1 := emit (ObsResolver nodeID res) w in
        match res with
        | inl addr => Some (set_closedCh (union {[ch]}) w1, PResolveDefer ch (inl addr))
        | inr _ => Some (w1, PResolveRetry ch r' (now w + retry.retryIn r'))
        end
      else None
  | PResolveRetry ch r wake, EvCloser =>
      if fired (retry.Closer (retry.opts r)) w
      then Some (w, PResolveDefer ch (inr (ErrResolutionStopped nodeID)))
      else None
  | PResolveDefer ch res, EvDeferred =>
      Some (set_addrLookups (delete nodeID) w, afterResolve res)
  (* processQueue up to the main loop *)
  | PDial addr, EvDial err => Some (w, orReturn err POpenStream)
  | POpenStream, EvStream err => Some (w, orReturn err PStartReader)
  | PStartReader, EvRunTask err =>
      Some (w, orReturn err (PSelect (now w + raftIdleTimeout)))
  (* the main loop *)
  | PSelect deadline, EvShouldStop =>
      if stopped w then Some (w, PReturn None) else None
  | PSelect deadline, EvIdle =>
      if bool_decide (deadline ≤ now w)%Z then Some (w, PReturn None) else None
  | PSelect deadline, EvErrCh err => Some (w, PReturn err)
  | PSelect deadline, EvRecv err =>
      match sendBuf w !! wCh wk with
      | Some (req :: rest) =>
          let w1 := emit (ObsSend i req err)
                         (set_sendBuf (insert (wCh wk) rest) w) in
          if bool_decide (raftpb.Type_ (Message req) = raftpb.MsgSnap)
          then Some (w1, PPublish req err)
          else Some (w1, afterSend w1 err)
      | _ => None
      end
  | PPublish req err, EvShouldStop =>
      if stopped w then Some (w, PReturn None) else None
  | PPublish req err, EvStatus =>
      let w1 := emit (ObsSnapshotStatus i {| Req := req; Err := err |}) w in
      Some (w1, afterSend w1 err)
  (* the worker closure of SendAsync *)
  | PReturn err, EvOnError =>
      Some (emit (ObsOnError (onError (wSender wk)) err (wTo wk)) w, PCleanup)
  | PCleanup, EvDelete =>
      Some (set_queues (alter (delete (wTo wk)) (wSnap wk)) w, PExited)
  | _, _ => None
  end.

(** ** The sender facade: SendAsync *)

Definition isHeartbeat (req : RaftMessageRequest) : bool :=
  bool_decide (raftpb.Type_ (Message req) = raftpb.MsgHeartbeat)
  || bool_decide (raftpb.Type_ (Message req) = raftpb.MsgHeartbeatResp).

Definition isSnap (req : RaftMessageRequest) : bool :=
  bool_decide (raftpb.Type_ (Message req) = raftpb.MsgSnap).

(** The guard of the panic at the head of [SendAsync]. *)
Definition rangeCheckFails (req : RaftMessageRequest) : bool :=
  bool_decide (RangeID req = 0%Z) && negb (isHeartbeat req).

(** The section of [SendAsync] under the mutex: the inner map of the class
    is made if it is missing, then the channel of the destination; [ok]
    tells whether the channel was already there.  The inner map is an
    object the outer map refers to, so a change of it shows in [queues]. *)
Definition lookupQueue (snap : bool) (toReplica : ReplicaDescriptor) (w : World)
  : World * nat * bool :=
  let '(w1, queues_) :=
    match queues w !! snap with
    | Some q => (w, q)
    | None => (set_queues (insert snap ∅) w, ∅)
    end in
  match queues_ !! toReplica with
  | Some ch => (w1, ch, true)
  | None =>
      let '(w2, ch) := makeSendChan w1 in
      (set_queues (alter (insert toReplica ch) snap) w2, ch, false)
  end.

(** [select { case ch <- req: return true; default: return false }] *)
Definition trySend (ch : nat) (req : RaftMessageRequest) (w : World)
  : World * bool :=
  match sendBuf w !! ch with
  | Some buf =>
      if decide (length buf < raftSendBufferSize)
      then (set_sendBuf (insert ch (buf ++ [req])) w, true)
      else (w, false)
  | None => (w, false)
  end.

(** A call of [SendAsync], in progress or over; the system keeps the
    calls that have returned or panicked as a record of their results. *)
Inductive SendCall :=
| SLooked (s : RaftSender) (req : RaftMessageRequest) (ch : nat) (ok : bool)
    (* the mutex was released *)
| SSelect (req : RaftMessageRequest) (ch : nat)
    (* at the final select *)
| SReturned (sent : bool)
| SPanicked.

(** ** The inbound dispatcher: RaftMessage *)

(** The worker that [RaftMessage] starts, which runs the receive loop.
    The handler is looked up under the mutex and called after the mutex
    is released, so [Listen] and [Stop] can run in between: the handler
    the loop holds is part of its state. *)
Inductive LoopState :=
| LoopNotStarted
| LoopRunning
    (* in stream.Recv() *)
| LoopHandling (handler : nat) (req : RaftMessageRequest)
    (* t.mu.Unlock() done with ok true; handler(req) has not returned *)
| LoopDone (err : error).   (* the loop returned err, which is on errCh *)

Inductive RpcResult :=
| RpcError (err : error)
    (* return err *)
| RpcClosed (err : option error).
    (* return stream.SendAndClose(new(RaftMessageResponse)), which gave err *)

Inductive RpcState :=
| RpcStart
| RpcSelect
| RpcReturned (res : RpcResult).

Record Inbound := { inLoop : LoopState; inRpc : RpcState }.

Inductive InEvent :=
| InRunTask (err : option error)
    (* Stopper.RunTask returns err *)
| InRecv (r : error + RaftMessageRequest)
    (* stream.Recv() returns r; for a request the handler of its store
       is read under the mutex *)
| InHandle (hres : option error)
    (* handler(req) returns hres *)
| InErrCh
    (* case err := <-errCh *)
| InQuiesce (err : option error).
    (* case <-ShouldQuiesce(), and SendAndClose returns err *)

(** The receive loop from what [stream.Recv] returned to the release of
    the mutex: the receive error or the missing handler ends the loop,
    otherwise the loop goes on with the handler it read.  [stream.Recv]
    reads nothing of the transport, so its return and the section under
    the mutex are taken as one step. *)
Definition lookupHandler (w : World) (r : error + RaftMessageRequest)
  : LoopState :=
  match r with
  | inl err => LoopDone err
  | inr req =>
      match handlers w !! StoreID (ToReplica req) with
      | None => LoopDone (ErrNoStore (ToReplica req) (FromReplica req))
      | Some handler => LoopHandling handler req
      end
  end.

(** The receive loop after [handler(req)] returned: an error ends the
    loop, otherwise the next round starts. *)
Definition afterHandler (hres : option error) : LoopState :=
  match hres with
  | Some e => LoopDone e
  | None => LoopRunning
  end.

Definition inbound_step (w : World) (ib : Inbound) (ev : InEvent)
  : option (World * Inbound) :=
  match ev with
  | InRunTask err =>
      match inRpc ib, err with
      | RpcStart, Some e =>
          Some (w, {| inLoop := inLoop ib; inRpc := RpcReturned (RpcError e) |})
      | RpcStart, None =>
          Some (w, {| inLoop := LoopRunning; inRpc := RpcSelect |})
      | _, _ => None
      end
  | InRecv r =>
      match inLoop ib with
      | LoopRunning =>
          Some (w, {| inLoop := lookupHandler w r; inRpc := inRpc ib |})
      | _ => None
      end
  | InHandle hres =>
      match inLoop ib with
      | LoopHandling handler req =>
          Some (emit (ObsHandler handler req hres) w,
                {| inLoop := afterHandler hres; inRpc := inRpc ib |})
      | _ => None
      end
  | InErrCh =>
      match inRpc ib, inLoop ib with
      | RpcSelect, LoopDone e =>
          Some (w, {| inLoop := inLoop ib; inRpc := RpcReturned (RpcError e) |})
      | _, _ => None
      end
  | InQuiesce err =>
      match inRpc ib with
      | RpcSelect =>
          if quiesced w
          then Some (w, {| inLoop := inLoop ib; inRpc := RpcReturned (RpcClosed err) |})
          else None
      | _ => None
      end
  end.

(** ** The whole system *)

Record System := {
  world : World;
  workers : list Worker;
  senders : list SendCall;
  inbound : list Inbound
}.

Definition set_world (w : World) (sys : System) : System :=
  {| world := w; workers := workers sys; senders := senders sys;
     inbound := inbound sys |}.

Definition set_workers (f : list Worker → list Worker) (sys : System) : System :=
  {| world := world sys; workers := f (workers sys); senders := senders sys;
     inbound := inbound sys |}.

Definition set_senders (f : list SendCall → list SendCall) (sys : System) : System :=
  {| world := world sys; workers := workers sys; senders := f (senders sys);
     inbound := inbound sys |}.

Definition set_inbound (f : list Inbound → list Inbound) (sys : System) : System :=
  {| world := world sys; workers := workers sys; senders := senders sys;
     inbound := f (inbound sys) |}.

(** The block of [SendAsync] for a new queue: the worker is started in a
    task of the stopper; when the stopper refuses the task with [err],
    [onError] is called at once. *)
Definition startWorker (s : RaftSender) (req : RaftMessageRequest) (ch : nat)
    (spawn : option error) (sys : System) : System :=
  match spawn with
  | None =>
      set_workers (λ ws, ws ++ [{| wSender := s; wSnap := isSnap req; wCh := ch;
                                   wTo := ToReplica req;
                                   wPhase := PResolveEnter |}]) sys
  | Some err =>
      set_world (emit (ObsOnError (onError s) (Some err) (ToReplica req))
                      (world sys)) sys
  end.

(** The first step of a call of [SendAsync]: the range check and the
    section under the mutex. *)
Definition sendBegin (s : RaftSender) (req : RaftMessageRequest) (sys : System)
  : System :=
  if rangeCheckFails req
  then set_senders (λ ss, ss ++ [SPanicked]) sys
  else
    let '(w1, ch, ok) := lookupQueue (isSnap req) (ToReplica req) (world sys) in
    set_senders (λ ss, ss ++ [SLooked s req ch ok]) (set_world w1 sys).

(** The later steps of the call [j]. *)
Definition sender_step (j : nat) (spawn : option error) (sys : System)
  : option System :=
  match senders sys !! j with
  | Some (SLooked s req ch ok) =>
      let sys1 := if ok then sys else startWorker s req ch spawn sys in
      Some (set_senders (insert j (SSelect req ch)) sys1)
  | Some (SSelect req ch) =>
      let '(w1, sent) := trySend ch req (world sys) in
      Some (set_senders (insert j (SReturned sent)) (set_world w1 sys))
  | _ => None
  end.

(** [SendAsync] run from its call to its return with no other goroutine
    in between.  [spawn] is what the stopper answers if a worker has to be
    started. *)
Inductive Outcome :=
| Panic
| Return (sent : bool) (sys : System).

Definition SendAsync (s : RaftSender) (req : RaftMessageRequest)
    (spawn : option error) (sys : System) : Outcome :=
  if rangeCheckFails req then Panic
  else
    let '(w1, ch, ok) := lookupQueue (isSnap req) (ToReplica req) (world sys) in
    let sys1 := set_world w1 sys in
    let sys2 := if ok then sys1 else startWorker s req ch spawn sys1 in
    let '(w3, sent) := trySend ch req (world sys2) in
    Return sent (set_senders (λ ss, ss ++ [SReturned sent]) (set_world w3 sys2)).

Inductive Label :=
| LQuiesce
| LStop
| LTick (d : Z)
| LListen (storeID : roachpb.StoreID) (handler : nat)
| LStopStore (storeID : roachpb.StoreID)
| LSendAsync (s : RaftSender) (req : RaftMessageRequest)
| LSender (j : nat) (spawn : option error)
| LWorker (i : nat) (ev : Event)
| LRaftMessage
| LInbound (k : nat) (ev : InEvent).

Definition step (sys : System) (l : Label) : option System :=
  match l with
  | LQuiesce => Some (set_world (set_quiesced true (world sys)) sys)
  | LStop => Some (set_world (set_stopped true (world sys)) sys)
  | LTick d =>
      if bool_decide (0 ≤ d)%Z
      then Some (set_world (set_now (Z.add d) (world sys)) sys)
      else None
  | LListen storeID handler =>
      Some (set_world (Listen storeID handler (world sys)) sys)
  | LStopStore storeID => Some (set_world (Stop storeID (world sys)) sys)
  | LSendAsync s req => Some (sendBegin s req sys)
  | LSender j spawn => sender_step j spawn sys
  | LWorker i ev =>
      wk ← workers sys !! i;
      '(w1, p) ← worker_step i (world sys) wk ev;
      Some (set_workers (insert i (set_wPhase p wk)) (set_world w1 sys))
  | LRaftMessage =>
      Some (set_inbound (λ ibs, ibs ++ [{| inLoop := LoopNotStarted;
                                           inRpc := RpcStart |}]) sys)
  | LInbound k ev =>
      ib ← inbound sys !! k;
      '(w1, ib1) ← inbound_step (world sys) ib ev;
      Some (set_inbound (insert k ib1) (set_world w1 sys))
  end.

Fixpoint run (sys : System) (ls : list Label) : option System :=
  match ls with
  | [] => Some sys
  | l :: ls' => sys1 ← step sys l; run sys1 ls'
  end.

(** The system at start: a new transport, the package variable possibly
    set by the caller beforehand, and no goroutine of the transport. *)
Definition withBackoff (d : Z) (w : World) : World :=
  {| handlers := handlers w; queues := queues w;
     addrLookups := addrLookups w; sendBuf := sendBuf w;
     closedCh := closedCh w; nextCh := nextCh w; quiesced := quiesced w;
     stopped := stopped w; now := now w;
     InitialResolveBackoff := d; trace := trace w |}.

Definition initial (backoff : Z) : System :=
  {| world := withBackoff backoff NewRaftTransport;
     workers := []; senders := []; inbound := [] |}.

(** The states some interleaving of the goroutines leads to. *)
Definition reachable (backoff : Z) (sys : System) : Prop :=
  ∃ ls, run (initial backoff) ls = Some sys.

(** ** Reading the state *)

(** The channel the registry holds for a destination and class. *)
Definition queue_of (snap : bool) (to : ReplicaDescriptor) (w : World)
  : option nat :=
  queues w !! snap ≫= (λ q, q !! to).

(** The ledger entry a worker is responsible for: the channel it installed
    in [addrLookups] and has not yet deleted. *)
Definition ledgerHold (p : Phase) : option nat :=
  match p with
  | PResolveRetry ch _ _ => Some ch
  | PResolveDefer ch _ => Some ch
  | _ => None
  end.

(** The worker is in the retry loop of [resolveNodeID]. *)
Definition inRetryLoop (p : Phase) : bool :=
  match p with
  | PResolveRetry _ _ _ => true
  | _ => false
  end.

(** The goroutine has not finished. *)
Definition live (p : Phase) : bool :=
  match p with
  | PExited => false
  | _ => true
  end.

(** The worker is in the main loop of [processQueue]. *)
Definition inMainLoop (p : Phase) : bool :=
  match p with
  | PSelect _ => true
  | PPublish _ _ => true
  | _ => false
  end.

(** The queue a call of [SendAsync] has made and not yet given a worker. *)
Definition senderHold (sc : SendCall) : option (bool * ReplicaDescriptor * nat) :=
  match sc with
  | SLooked _ req ch false => Some (isSnap req, ToReplica req, ch)
  | _ => None
  end.

(** The queue a worker drains, as long as the goroutine has not finished. *)
Definition workerHold (wk : Worker) : option (bool * ReplicaDescriptor * nat) :=
  if live (wPhase wk) then Some (wSnap wk, wTo wk, wCh wk) else None.

(** Every queue that some goroutine is in charge of: the live workers and
    the calls of [SendAsync] that are about to start one. *)
Definition holdersOf (sys : System) : list (bool * ReplicaDescriptor * nat) :=
  omap workerHold (workers sys) ++ omap senderHold (senders sys).

(** The message channel a call of [SendAsync] has made and not yet given
    a worker. *)
Definition senderCh (sc : SendCall) : option nat :=
  match sc with
  | SLooked _ _ ch false => Some ch
  | _ => None
  end.

(** The status a worker is blocked on handing over. *)
Definition pending (p : Phase) : option RaftSnapshotStatus :=
  match p with
  | PPublish req err => Some {| Req := req; Err := err |}
  | _ => None
  end.

Definition pendingOf (wk : option Worker) : option RaftSnapshotStatus :=
  wk ≫= (λ wk, pending (wPhase wk)).

(** ** The snapshot status protocol *)

#[global] Instance RaftSnapshotStatus_eq_dec : EqDecision RaftSnapshotStatus.
Proof. solve_decision. Defined.

(** What worker [i] does on its stream and on [SnapshotStatusChan] is
    read one observation at a time.  The state is the status that is due:
    [Some None] when none is, [Some (Some st)] after a snapshot message
    was written and before its status was received, [None] once the
    protocol is broken.  The write of a snapshot message makes its status
    (the message with the error of the write) due; while a status is due
    no further write is allowed; a status is allowed only when it is the
    one that is due, and it settles it. *)
Definition protoStep (i : nat) (st : option (option RaftSnapshotStatus))
    (o : Obs) : option (option RaftSnapshotStatus) :=
  match st, o with
  | None, _ => None
  | Some due, ObsSend j req err =>
      if decide (j = i) then
        match due with
        | Some _ => None
        | None =>
            Some (if isSnap req then Some {| Req := req; Err := err |} else None)
        end
      else Some due
  | Some due, ObsSnapshotStatus j s =>
      if decide (j = i) then
        match due with
        | Some s' => if decide (s = s') then Some None else None
        | None => None
        end
      else Some due
  | Some due, _ => Some due
  end.

Definition snapshotProtocol (i : nat) (t : list Obs)
  : option (option RaftSnapshotStatus) :=
  foldl (protoStep i) (Some None) t.

(** ** Invariants *)

(** The ledger and the workers agree: a worker that installed an entry and
    has not deleted it finds its own channel there, and no two workers are
    responsible for an entry of the same node. *)
Definition ledger_ok (sys : System) : Prop :=
  (∀ i wk ch, workers sys !! i = Some wk →
     ledgerHold (wPhase wk) = Some ch →
     addrLookups (world sys) !! NodeID (wTo wk) = Some ch)
  ∧ (∀ i j wk wk', workers sys !! i = Some wk → workers sys !! j = Some wk' →
       is_Some (ledgerHold (wPhase wk)) → is_Some (ledgerHold (wPhase wk')) →
       NodeID (wTo wk) = NodeID (wTo wk') → i = j).

(** The retry state of every worker in the retry loop is the one
    [retry.Start] made from the options of [resolveNodeID], advanced by
    some number of calls of [Next]; the package variable keeps the value
    it had at the start. *)
Definition retry_ok (backoff : Z) (sys : System) : Prop :=
  InitialResolveBackoff (world sys) = backoff
  ∧ ∀ i wk ch r wake,
      workers sys !! i = Some wk → wPhase wk = PResolveRetry ch r wake →
      ∃ k, r = Nat.iter k retry.Next (retry.Start (resolveOpts (world sys))).

(** The registry and the goroutines agree: no two goroutines are in charge
    of the same destination and class, and the one in charge finds its own
    channel in the registry. *)
Definition registry_ok (sys : System) : Prop :=
  NoDup (fst <$> holdersOf sys)
  ∧ ∀ snap to ch, (snap, to, ch) ∈ holdersOf sys →
      queue_of snap to (world sys) = Some ch.

(** Channels are allocated before they are used, those of the registry
    are message channels, and no buffer exceeds its capacity. *)
Definition chan_ok (w : World) : Prop :=
  (∀ snap to ch, queue_of snap to w = Some ch →
     ch < nextCh w ∧ is_Some (sendBuf w !! ch))
  ∧ (∀ ch buf, sendBuf w !! ch = Some buf → length buf ≤ raftSendBufferSize).

(** The channels the goroutines hold have been allocated. *)
Definition threads_chan_ok (sys : System) : Prop :=
  (∀ i wk, workers sys !! i = Some wk → wCh wk < nextCh (world sys))
  ∧ (∀ j s req ch ok, senders sys !! j = Some (SLooked s req ch ok) →
       ch < nextCh (world sys)).

(** Every message channel has one reader at most: the worker it was made
    for, or the call of [SendAsync] that is about to start it. *)
Definition readers_ok (sys : System) : Prop :=
  NoDup ((wCh <$> workers sys) ++ omap senderCh (senders sys)).

(** Every worker has followed the protocol, and the status that is due is
    the one the worker is blocked on. *)
Definition snapshots_ok (sys : System) : Prop :=
  ∀ i, snapshotProtocol i (trace (world sys))
       = Some (pendingOf (workers sys !! i)).

(** A queue of the registry that no goroutine is in charge of. *)
Definition orphan (snap : bool) (to : ReplicaDescriptor) (ch : nat)
    (sys : System) : Prop :=
  queue_of snap to (world sys) = Some ch
  ∧ ∀ c, (snap, to, c) ∉ holdersOf sys.


(** ** Sample data and sample runs *)

Definition replicaA : ReplicaDescriptor :=
  {| NodeID := 1; StoreID := 1; ReplicaID := 1 |}.
Definition replicaB : ReplicaDescriptor :=
  {| NodeID := 2; StoreID := 2; ReplicaID := 1 |}.
Definition replicaC : ReplicaDescriptor :=
  {| NodeID := 2; StoreID := 3; ReplicaID := 2 |}.

Definition mkReq (t : raftpb.MessageType) (rangeID : Z) (to : ReplicaDescriptor)
  : RaftMessageRequest :=
  {| RangeID := rangeID; FromReplica := replicaA; ToReplica := to;
     Message := {| raftpb.Type_ := t; raftpb.Term := 5; raftpb.Index := 9 |} |}.

Definition sender7 : RaftSender := MakeSender 7.

(** The three steps of a call of [SendAsync] whose worker, if it needs
    one, the stopper accepts. *)
Definition send_labels (s : RaftSender) (req : RaftMessageRequest) (j : nat)
  : list Label :=
  [LSendAsync s req; LSender j None; LSender j None].

(** Two queues to two stores of node 2; the first worker becomes the
    resolver of the node and succeeds at once, and the second, which
    waited for it, gets an error from its own call of the resolver. *)
Definition waiter_fails_run : list Label :=
  [ LSendAsync sender7 (mkReq raftpb.MsgApp 1 replicaB);
    LSender 0 None; LSender 0 None;
    LSendAsync sender7 (mkReq raftpb.MsgApp 1 replicaC);
    LSender 1 None; LSender 1 None;
    LWorker 0 EvLock;
    LWorker 1 EvLock;
    LWorker 0 (EvAttempt (inl "10.0.0.2:26257"));
    LWorker 1 (EvSignalled (inr (ErrExternal "node 2 is not in gossip"))) ].

(** Both workers of node 2 have entered [resolveNodeID]. *)
Definition two_resolvers_run : list Label := take 8 waiter_fails_run.

Definition two_resolvers_sys : System :=
  default (initial time.Second) (run (initial time.Second) two_resolvers_run).

(** One queue; its worker becomes the resolver of node 2 and its first
    attempt fails. *)
Definition retrying_run : list Label :=
  [ LSendAsync sender7 (mkReq raftpb.MsgApp 1 replicaB);
    LSender 0 None; LSender 0 None;
    LWorker 0 EvLock;
    LWorker 0 (EvAttempt (inr (ErrExternal "node 2 is not in gossip"))) ].

Definition retrying_sys : System :=
  default (initial time.Second) (run (initial time.Second) retrying_run).

Definition retrying_state : retry.Retry :=
  retry.Next (retry.Start (resolveOpts NewRaftTransport)).

Definition retrying_worker : Worker :=
  {| wSender := sender7; wSnap := false; wCh := 0; wTo := replicaB;
     wPhase := PResolveRetry 1 retrying_state time.Second |}.

(** A hundred messages for the same destination, with its worker still
    resolving the address. *)
Definition fill_run : list Label :=
  flat_map (send_labels sender7 (mkReq raftpb.MsgApp 1 replicaB)) (seq 0 100).

Definition full_sys : System :=
  default (initial time.Second) (run (initial time.Second) fill_run).




(** One snapshot queue whose worker writes the snapshot with success and
    is blocked on handing over the status. *)
Definition snapshot_run : list Label :=
  send_labels sender7 (mkReq raftpb.MsgSnap 1 replicaB) 0 ++
  [ LWorker 0 EvLock;
    LWorker 0 (EvAttempt (inl "10.0.0.2:26257"));
    LWorker 0 EvDeferred;
    LWorker 0 (EvDial None);
    LWorker 0 (EvStream None);
    LWorker 0 (EvRunTask None);
    LWorker 0 (EvRecv None) ].

Definition snapshot_sys : System :=
  default (initial time.Second) (run (initial time.Second) snapshot_run).

Definition snapshot_worker : Worker :=
  {| wSender := sender7; wSnap := true; wCh := 0; wTo := replicaB;
     wPhase := PPublish (mkReq raftpb.MsgSnap 1 replicaB) None |}.

(** The write of the snapshot fails, the stop signal fires while the
    worker is blocked on handing over the status, and the worker takes
    the stop branch: [processQueue] returns nil. *)
Definition snapshot_stop_run : list Label :=
  send_labels sender7 (mkReq raftpb.MsgSnap 1 replicaB) 0 ++
  [ LWorker 0 EvLock;
    LWorker 0 (EvAttempt (inl "10.0.0.2:26257"));
    LWorker 0 EvDeferred;
    LWorker 0 (EvDial None);
    LWorker 0 (EvStream None);
    LWorker 0 (EvRunTask None);
    LWorker 0 (EvRecv (Some (ErrExternal "transport is closing")));
    LStop;
    LWorker 0 EvShouldStop;
    LWorker 0 EvOnError ].

Definition selecting_worker : Worker :=
  {| wSender := sender7; wSnap := false; wCh := 0; wTo := replicaB;
     wPhase := PSelect time.Minute |}.

(** An inbound stream whose dispatch task the stopper refuses. *)
Definition refused_stream_run : list Label :=
  [ LListen 2 5;
    LRaftMessage;
    LInbound 0 (InRunTask (Some (ErrExternal "node unavailable; try another peer"))) ].

(** An inbound stream that is being served when the stopper quiesces,
    and whose closing response cannot be sent. *)
Definition failed_close_run : list Label :=
  [ LListen 2 5;
    LRaftMessage;
    LInbound 0 (InRunTask None);
    LInbound 0 (InRecv (inr (mkReq raftpb.MsgApp 1 replicaB)));
    LInbound 0 (InHandle None);
    LQuiesce;
    LInbound 0 (InQuiesce (Some (ErrExternal "transport is closing"))) ].

Definition serving_stream : Inbound :=
  {| inLoop := LoopRunning; inRpc := RpcSelect |}.

(** No channel serves two queues of the registry. *)
Definition registry_inj (w : World) : Prop :=
  ∀ snap1 to1 snap2 to2 ch,
    queue_of snap1 to1 w = Some ch → queue_of snap2 to2 w = Some ch →
    snap1 = snap2 ∧ to1 = to2.

(** A snapshot and an append for the same destination, both queued, and
    the two workers started for them. *)
Definition both_classes_run : list Label :=
  send_labels sender7 (mkReq raftpb.MsgApp 1 replicaB) 0 ++
  send_labels sender7 (mkReq raftpb.MsgSnap 1 replicaB) 1.

Definition both_classes_sys : System :=
  default (initial time.Second) (run (initial time.Second) both_classes_run).

(** Every entry of the ledger has a worker responsible for it. *)
Definition ledger_owned (sys : System) : Prop :=
  ∀ n ch, addrLookups (world sys) !! n = Some ch →
    ∃ i wk, workers sys !! i = Some wk ∧ NodeID (wTo wk) = n
            ∧ ledgerHold (wPhase wk) = Some ch.

(** A worker that has left the retry loop has closed the channel of its
    entry, or has seen the quiesce signal. *)
Definition defer_ok (sys : System) : Prop :=
  ∀ i wk ch res,
    workers sys !! i = Some wk → wPhase wk = PResolveDefer ch res →
    match res with
    | inl _ => ch ∈ closedCh (world sys)
    | inr _ => quiesced (world sys) = true
    end.

(** A worker that waits on a channel of the ledger can go on, or the
    retry loop that will close the channel is still running. *)
Definition waiters_ok (sys : System) : Prop :=
  ∀ i wk ch,
    workers sys !! i = Some wk → wPhase wk = PResolveWait ch →
    ch ∈ closedCh (world sys)
    ∨ quiesced (world sys) = true
    ∨ ∃ j wkj r wake,
        workers sys !! j = Some wkj ∧ wPhase wkj = PResolveRetry ch r wake.

(** The address a worker is about to dial, or to return from
    [resolveNodeID], is one the resolver gave for the node. *)
Definition dial_ok (sys : System) : Prop :=
  ∀ i wk addr,
    workers sys !! i = Some wk →
    (wPhase wk = PDial addr ∨ ∃ ch, wPhase wk = PResolveDefer ch (inl addr)) →
    ObsResolver (NodeID (wTo wk)) (inl addr) ∈ trace (world sys).

(** A worker that has resolved its node and is about to dial. *)
Definition dialing_run : list Label :=
  send_labels sender7 (mkReq raftpb.MsgApp 1 replicaB) 0 ++
  [ LWorker 0 EvLock;
    LWorker 0 (EvAttempt (inl "10.0.0.2:26257"));
    LWorker 0 EvDeferred ].

Definition dialing_sys : System :=
  default (initial time.Second) (run (initial time.Second) dialing_run).

Definition dialing_worker : Worker :=
  {| wSender := sender7; wSnap := false; wCh := 0; wTo := replicaB;
     wPhase := PDial "10.0.0.2:26257" |}.

(** ** Messages on their way *)

Definition isSend (o : Obs) : bool :=
  match o with
  | ObsSend _ _ _ => true
  | _ => false
  end.

(** The messages worker [i] has written to its stream, in order. *)
Definition written (i : nat) (t : list Obs) : list RaftMessageRequest :=
  omap (λ o, match o with
             | ObsSend j req _ => if decide (j = i) then Some req else None
             | _ => None
             end) t.

(** The messages that wait in a channel, oldest first. *)
Definition queued (ch : nat) (w : World) : list RaftMessageRequest :=
  default [] (sendBuf w !! ch).

(** The destination and class a message is queued under. *)
Definition keyOf (req : RaftMessageRequest) : bool * ReplicaDescriptor :=
  (isSnap req, ToReplica req).

(** The channel [c] is in use for the destination and class [k]: by a
    worker, by a call of [SendAsync], by a message in its buffer or by
    the registry. *)
Definition uses (sys : System) (c : nat) (k : bool * ReplicaDescriptor) : Prop :=
  (∃ i wk, workers sys !! i = Some wk ∧ wCh wk = c ∧ (wSnap wk, wTo wk) = k)
  ∨ (∃ j s req ok, senders sys !! j = Some (SLooked s req c ok) ∧ keyOf req = k)
  ∨ (∃ j req, senders sys !! j = Some (SSelect req c) ∧ keyOf req = k)
  ∨ (∃ buf req, sendBuf (world sys) !! c = Some buf ∧ req ∈ buf ∧ keyOf req = k)
  ∨ queue_of k.1 k.2 (world sys) = Some c.

(** A channel is used for one destination and class only. *)
Definition coherent (sys : System) : Prop :=
  (∀ c k, uses sys c k → c < nextCh (world sys))
  ∧ (∀ c k1 k2, uses sys c k1 → uses sys c k2 → k1 = k2).

(** Every message written was written by the worker of its destination
    and class. *)
Definition deliveries_ok (sys : System) : Prop :=
  ∀ i req err, ObsSend i req err ∈ trace (world sys) →
    ∃ wk, workers sys !! i = Some wk
          ∧ isSnap req = wSnap wk ∧ ToReplica req = wTo wk.

(** Three appends are queued; the worker writes the first. *)
Definition three_sends_run : list Label :=
  send_labels sender7 (mkReq raftpb.MsgApp 1 replicaB) 0 ++
  send_labels sender7 (mkReq raftpb.MsgApp 2 replicaB) 1 ++
  send_labels sender7 (mkReq raftpb.MsgHeartbeat 0 replicaB) 2 ++
  [ LWorker 0 EvLock;
    LWorker 0 (EvAttempt (inl "10.0.0.2:26257"));
    LWorker 0 EvDeferred;
    LWorker 0 (EvDial None);
    LWorker 0 (EvStream None);
    LWorker 0 (EvRunTask None);
    LWorker 0 (EvRecv None) ].

Definition three_sends_sys : System :=
  default (initial time.Second) (run (initial time.Second) three_sends_run).

Definition three_sends_worker : Worker :=
  {| wSender := sender7; wSnap := false; wCh := 0; wTo := replicaB;
     wPhase := PSelect time.Minute |}.

(** ** Incoming requests *)

(** The label is a call of [Listen] or [Stop] for the store. *)
Definition touches_store (sid : roachpb.StoreID) (l : Label) : bool :=
  match l with
  | LListen s _ => bool_decide (s = sid)
  | LStopStore s => bool_decide (s = sid)
  | _ => false
  end.

(** A stream is opened and delivers one request for a store of node 1,
    which the handler accepts. *)
Definition one_request_run : list Label :=
  [ LRaftMessage;
    LInbound 0 (InRunTask None);
    LSendAsync sender7 (mkReq raftpb.MsgApp 1 replicaB);
    LInbound 0 (InRecv (inr (mkReq raftpb.MsgApp 1 replicaA)));
    LInbound 0 (InHandle None) ].

(** A stream has read the handler of store 1 for a request and has not
    called it yet. *)
Definition in_flight_run : list Label :=
  [ LListen 1 5;
    LRaftMessage;
    LInbound 0 (InRunTask None);
    LInbound 0 (InRecv (inr (mkReq raftpb.MsgApp 1 replicaA))) ].

Definition in_flight_sys : System :=
  default (initial time.Second) (run (initial time.Second) in_flight_run).

(** The handler that was read is called, and a second request arrives. *)
Definition after_stop_run : list Label :=
  [ LInbound 0 (InHandle None);
    LInbound 0 (InRecv (inr (mkReq raftpb.MsgApp 2 replicaA))) ].

(** ** The channels of the ledger *)

(** The channel of the ledger a worker is attached to, as the one that
    made it or as one that waits on it. *)
Definition attached (p : Phase) : option nat :=
  match p with
  | PResolveWait ch => Some ch
  | PResolveRetry ch _ _ => Some ch
  | PResolveDefer ch _ => Some ch
  | _ => None
  end.

(** The workers attached to one channel resolve the same node, and the
    channel is closed only once the resolver has given an address for
    that node. *)
Definition signals_ok (sys : System) : Prop :=
  (∀ i wk ch, workers sys !! i = Some wk → attached (wPhase wk) = Some ch →
     ch < nextCh (world sys))
  ∧ (∀ ch, ch ∈ closedCh (world sys) → ch < nextCh (world sys))
  ∧ (∀ i j wk wk' ch,
       workers sys !! i = Some wk → workers sys !! j = Some wk' →
       attached (wPhase wk) = Some ch → attached (wPhase wk') = Some ch →
       NodeID (wTo wk) = NodeID (wTo wk'))
  ∧ (∀ i wk ch,
       workers sys !! i = Some wk → attached (wPhase wk) = Some ch →
       ch ∈ closedCh (world sys) →
       ∃ addr, ObsResolver (NodeID (wTo wk)) (inl addr) ∈ trace (world sys)).

(** Two workers for node 2: the first has resolved the address and closed
    the channel, the second still waits on it. *)
Definition woken_run : list Label :=
  send_labels sender7 (mkReq raftpb.MsgApp 1 replicaB) 0 ++
  send_labels sender7 (mkReq raftpb.MsgApp 1 replicaC) 1 ++
  [ LWorker 0 EvLock;
    LWorker 1 EvLock;
    LWorker 0 (EvAttempt (inl "10.0.0.2:26257")) ].

Definition woken_sys : System :=
  default (initial time.Second) (run (initial time.Second) woken_run).

Definition woken_worker : Worker :=
  {| wSender := sender7; wSnap := false; wCh := 1; wTo := replicaC;
     wPhase := PResolveWait 2 |}.

(** ** The calls of the error callback *)





(** The channel a call of [SendAsync] holds has been made. *)
Definition held_ok (sys : System) : Prop :=
  ∀ j sc ch,
    senders sys !! j = Some sc →
    (∃ s req ok, sc = SLooked s req ch ok) ∨ (∃ req, sc = SSelect req ch) →
    is_Some (sendBuf (world sys) !! ch).

(** A call of [SendAsync] that has found the full queue of [full_sys] and
    stands at its select. *)
Definition at_select_run : list Label :=
  fill_run ++ [ LSendAsync sender7 (mkReq raftpb.MsgApp 1 replicaB);
                LSender 100 None ].

Definition at_select_sys : System :=
  default (initial time.Second) (run (initial time.Second) at_select_run).

(** * Properties *)

Section SendAsyncRangeCheck.
Context (s : RaftSender) (req : RaftMessageRequest) (spawn : option error)
        (sys : System).

Lemma rangeCheckFails_true :
  rangeCheckFails req = true ↔
  RangeID req = 0%Z
  ∧ raftpb.Type_ (Message req) ≠ raftpb.MsgHeartbeat
  ∧ raftpb.Type_ (Message req) ≠ raftpb.MsgHeartbeatResp.
Proof.
  unfold rangeCheckFails, isHeartbeat.
  rewrite andb_true_iff, negb_true_iff, orb_false_iff.
  rewrite bool_decide_eq_true, !bool_decide_eq_false. tauto.
Qed.

Lemma rangeCheckFails_false :
  rangeCheckFails req = false ↔
  RangeID req ≠ 0%Z
  ∨ raftpb.Type_ (Message req) = raftpb.MsgHeartbeat
  ∨ raftpb.Type_ (Message req) = raftpb.MsgHeartbeatResp.
Proof.
  rewrite <- not_true_iff_false, rangeCheckFails_true.
  destruct (decide (RangeID req = 0%Z));
    destruct (decide (raftpb.Type_ (Message req) = raftpb.MsgHeartbeat));
    destruct (decide (raftpb.Type_ (Message req) = raftpb.MsgHeartbeatResp));
    tauto.
Qed.

Lemma SendAsync_Panic_iff :
  SendAsync s req spawn sys = Panic ↔ rangeCheckFails req = true.
Proof.
  unfold SendAsync. destruct (rangeCheckFails req); [done|].
  destruct (lookupQueue _ _ _) as [[w1 ch] ok].
  destruct (trySend _ _ _) as [w3 sent]. split; discriminate.
Qed.

(** C1: a message that is neither a heartbeat nor a heartbeat response and
    has range identifier 0 makes [SendAsync] panic: the call has no
    return value, and the goroutine that made it is left panicked with
    the shared state untouched. *)
Theorem SendAsync_range0_panics :
  RangeID req = 0%Z →
  raftpb.Type_ (Message req) ≠ raftpb.MsgHeartbeat →
  raftpb.Type_ (Message req) ≠ raftpb.MsgHeartbeatResp →
  SendAsync s req spawn sys = Panic
  ∧ step sys (LSendAsync s req)
    = Some (set_senders (λ ss, ss ++ [SPanicked]) sys).
Proof.
  intros H0 H1 H2.
  assert (Hf : rangeCheckFails req = true) by (apply rangeCheckFails_true; done).
  split; [by apply SendAsync_Panic_iff|].
  simpl. unfold sendBegin. by rewrite Hf.
Qed.

(** C9: [SendAsync] does not panic on a heartbeat or a heartbeat response,
    whatever the range identifier, nor on any message with a non-zero
    range identifier: it returns a boolean. *)
Theorem SendAsync_no_panic :
  raftpb.Type_ (Message req) = raftpb.MsgHeartbeat
  ∨ raftpb.Type_ (Message req) = raftpb.MsgHeartbeatResp
  ∨ RangeID req ≠ 0%Z →
  SendAsync s req spawn sys ≠ Panic
  ∧ ∃ sent sys', SendAsync s req spawn sys = Return sent sys'.
Proof.
  intros H.
  assert (Hf : rangeCheckFails req = false)
    by (apply rangeCheckFails_false; tauto).
  split.
  - rewrite SendAsync_Panic_iff, Hf. discriminate.
  - destruct (SendAsync s req spawn sys) as [|sent sys'] eqn:E; [|by eauto].
    apply SendAsync_Panic_iff in E. congruence.
Qed.
End SendAsyncRangeCheck.

Lemma SendAsync_range0_panics_witness :
  SendAsync sender7 (mkReq raftpb.MsgApp 0 replicaB) None (initial time.Second)
  = Panic
  ∧ step (initial time.Second) (LSendAsync sender7 (mkReq raftpb.MsgApp 0 replicaB))
    = Some (set_senders (λ ss, ss ++ [SPanicked]) (initial time.Second)).
Proof.
  apply (SendAsync_range0_panics sender7 (mkReq raftpb.MsgApp 0 replicaB) None
           (initial time.Second)).
  - reflexivity.
  - simpl. discriminate.
  - simpl. discriminate.
Defined.

Lemma SendAsync_no_panic_witness :
  SendAsync sender7 (mkReq raftpb.MsgHeartbeat 0 replicaB) None
    (initial time.Second) ≠ Panic
  ∧ ∃ sent sys',
      SendAsync sender7 (mkReq raftpb.MsgHeartbeat 0 replicaB) None
        (initial time.Second) = Return sent sys'.
Proof.
  apply (SendAsync_no_panic sender7 (mkReq raftpb.MsgHeartbeat 0 replicaB) None
           (initial time.Second)).
  left. reflexivity.
Defined.

(** ** Runs *)

Lemma run_app sys ls1 ls2 :
  run sys (ls1 ++ ls2) = run sys ls1 ≫= (λ sys1, run sys1 ls2).
Proof.
  revert sys. induction ls1 as [|l ls1 IH]; intros sys; simpl; [done|].
  destruct (step sys l) as [sys1|]; simpl; [apply IH|done].
Qed.

Lemma reachable_initial backoff : reachable backoff (initial backoff).
Proof. by exists []. Qed.

Lemma reachable_step backoff sys l sys' :
  reachable backoff sys → step sys l = Some sys' → reachable backoff sys'.
Proof.
  intros [ls Hls] Hstep. exists (ls ++ [l]).
  rewrite run_app, Hls. simpl. by rewrite Hstep.
Qed.

Lemma reachable_run backoff sys ls sys' :
  reachable backoff sys → run sys ls = Some sys' → reachable backoff sys'.
Proof.
  intros [ls0 Hls0] Hrun. exists (ls0 ++ ls).
  by rewrite run_app, Hls0.
Qed.

(** Induction on the length of the run that reaches a state. *)
Lemma reachable_induction backoff (P : System → Prop) :
  P (initial backoff) →
  (∀ sys l sys', reachable backoff sys → P sys → step sys l = Some sys' → P sys') →
  ∀ sys, reachable backoff sys → P sys.
Proof.
  intros Hinit Hstep sys [ls Hls]. revert sys Hls.
  induction ls as [|l ls IH] using rev_ind; intros sys Hls.
  - simpl in Hls. by simplify_eq.
  - rewrite run_app in Hls.
    destruct (run (initial backoff) ls) as [sys1|] eqn:E; simpl in Hls; [|done].
    destruct (step sys1 l) as [sys2|] eqn:E'; simpl in Hls; simplify_eq.
    eapply Hstep; [by exists ls| |done]. by apply IH.
Qed.

(** ** What a step leaves alone *)

Lemma lookupQueue_frame snap to w w1 ch ok :
  lookupQueue snap to w = (w1, ch, ok) →
  handlers w1 = handlers w ∧ addrLookups w1 = addrLookups w
  ∧ closedCh w1 = closedCh w ∧ quiesced w1 = quiesced w
  ∧ stopped w1 = stopped w ∧ now w1 = now w
  ∧ InitialResolveBackoff w1 = InitialResolveBackoff w ∧ trace w1 = trace w.
Proof.
  unfold lookupQueue, makeSendChan. intros H.
  repeat case_match; simplify_eq/=; done.
Qed.

Lemma trySend_frame ch req w w1 sent :
  trySend ch req w = (w1, sent) →
  handlers w1 = handlers w ∧ queues w1 = queues w
  ∧ addrLookups w1 = addrLookups w ∧ nextCh w1 = nextCh w
  ∧ closedCh w1 = closedCh w ∧ quiesced w1 = quiesced w
  ∧ stopped w1 = stopped w ∧ now w1 = now w
  ∧ InitialResolveBackoff w1 = InitialResolveBackoff w ∧ trace w1 = trace w.
Proof.
  unfold trySend. intros H. repeat case_match; simplify_eq/=; done.
Qed.

Lemma inbound_step_frame w ib ev w1 ib1 :
  inbound_step w ib ev = Some (w1, ib1) →
  handlers w1 = handlers w ∧ queues w1 = queues w
  ∧ addrLookups w1 = addrLookups w ∧ sendBuf w1 = sendBuf w
  ∧ nextCh w1 = nextCh w
  ∧ closedCh w1 = closedCh w ∧ quiesced w1 = quiesced w
  ∧ stopped w1 = stopped w ∧ now w1 = now w
  ∧ InitialResolveBackoff w1 = InitialResolveBackoff w.
Proof.
  unfold inbound_step, lookupHandler, afterHandler. intros H.
  repeat case_match; simplify_eq/=; done.
Qed.

Lemma ledgerHold_afterResolve res : ledgerHold (afterResolve res) = None.
Proof. by destruct res. Qed.

Lemma ledgerHold_orReturn err p :
  ledgerHold p = None → ledgerHold (orReturn err p) = None.
Proof. by destruct err. Qed.

Lemma ledgerHold_afterSend w err : ledgerHold (afterSend w err) = None.
Proof. by destruct err. Qed.

(** A step of a worker either leaves the ledger and the worker's
    responsibility for it alone, or installs the entry of its node, which
    was missing, or deletes the entry it was responsible for. *)
Lemma worker_step_ledger i w wk ev w' p :
  worker_step i w wk ev = Some (w', p) →
  (addrLookups w' = addrLookups w ∧ ledgerHold p = ledgerHold (wPhase wk))
  ∨ (ledgerHold (wPhase wk) = None
     ∧ addrLookups w !! NodeID (wTo wk) = None
     ∧ ∃ ch, addrLookups w' = <[NodeID (wTo wk) := ch]> (addrLookups w)
             ∧ ledgerHold p = Some ch)
  ∨ (is_Some (ledgerHold (wPhase wk))
     ∧ addrLookups w' = delete (NodeID (wTo wk)) (addrLookups w)
     ∧ ledgerHold p = None).
Proof.
  unfold worker_step. intros H.
  destruct (wPhase wk) eqn:Hp, ev; simplify_eq/=;
    repeat case_match; simplify_eq/=;
    rewrite ?ledgerHold_afterResolve, ?ledgerHold_afterSend;
    eauto 10 using ledgerHold_orReturn.
Qed.

(** The other threads leave the ledger alone; the only change they make
    to the workers is that a call of [SendAsync] starts one. *)
Lemma step_other_ledger sys l sys' :
  step sys l = Some sys' →
  (∀ i ev, l ≠ LWorker i ev) →
  addrLookups (world sys') = addrLookups (world sys)
  ∧ (workers sys' = workers sys
     ∨ ∃ wk, workers sys' = workers sys ++ [wk] ∧ wPhase wk = PResolveEnter).
Proof.
  intros Hstep Hl. destruct l; simpl in Hstep; simplify_eq/=; eauto.
  - case_bool_decide; simplify_eq/=; eauto.
  - unfold sendBegin. destruct (rangeCheckFails req); simpl; eauto.
    destruct (lookupQueue _ _ _) as [[w1 ch] ok] eqn:E.
    apply lookupQueue_frame in E. simpl. intuition eauto.
  - unfold sender_step in Hstep.
    destruct (senders sys !! j) as [[s req ch ok|req ch|?|]|] eqn:E;
      simplify_eq/=.
    + destruct ok; simpl; eauto.
      destruct spawn; simpl; eauto.
    + destruct (trySend _ _ _) as [w1 sent] eqn:E'. simplify_eq/=.
      apply trySend_frame in E'. intuition eauto.
  - by destruct (Hl i ev).
  - destruct (inbound sys !! k) as [ib|]; simplify_eq/=.
    destruct (inbound_step _ _ _) as [[w1 ib1]|] eqn:E; simplify_eq/=.
    apply inbound_step_frame in E. intuition eauto.
Qed.

Lemma label_worker_cases l :
  (∃ i ev, l = LWorker i ev) ∨ (∀ i ev, l ≠ LWorker i ev).
Proof. destruct l; eauto; right; discriminate. Qed.

Lemma step_worker_inv sys i ev sys' :
  step sys (LWorker i ev) = Some sys' →
  ∃ wk w1 p,
    workers sys !! i = Some wk
    ∧ worker_step i (world sys) wk ev = Some (w1, p)
    ∧ sys' = set_workers (insert i (set_wPhase p wk)) (set_world w1 sys).
Proof.
  simpl. intros H.
  destruct (workers sys !! i) as [wk|] eqn:E; simplify_eq/=.
  destruct (worker_step _ _ _ _) as [[w1 p]|] eqn:E'; simplify_eq/=.
  eauto 10.
Qed.

(** A worker after one of its steps, seen from the list of workers. *)
Lemma lookup_stepped_worker (ws : list Worker) i wk p j wk' :
  ws !! i = Some wk →
  <[i := set_wPhase p wk]> ws !! j = Some wk' →
  (j = i ∧ wk' = set_wPhase p wk) ∨ (j ≠ i ∧ ws !! j = Some wk').
Proof.
  intros Hi H. apply list_lookup_insert_Some in H.
  destruct H as [(-> & <- & _)|[? ?]]; eauto.
Qed.

Lemma ledger_ok_initial backoff : ledger_ok (initial backoff).
Proof. split; intros *; simpl; by rewrite lookup_nil. Qed.

Lemma ledger_ok_step sys l sys' :
  ledger_ok sys → step sys l = Some sys' → ledger_ok sys'.
Proof.
  intros [H1 H2] Hstep.
  destruct (label_worker_cases l) as [(i & ev & ->)|Hl].
  - apply step_worker_inv in Hstep as (wk & w1 & p & Hi & Hw & ->).
    unfold ledger_ok. simpl. apply worker_step_ledger in Hw.
    destruct Hw as [[Hm Hh]|[(Hh & Hnone & ch & Hm & Hp)|(Hh & Hm & Hp)]];
      rewrite Hm; split.
    + intros j wkj c Hj Hc.
      apply (lookup_stepped_worker _ _ _ _ _ _ Hi) in Hj as [[-> ->]|[? Hj]];
        simpl in *; [rewrite Hh in Hc|]; eauto.
    + intros j k wkj wkk Hj Hk Hcj Hck Hn.
      apply (lookup_stepped_worker _ _ _ _ _ _ Hi) in Hj as [[-> ->]|[? Hj]];
        apply (lookup_stepped_worker _ _ _ _ _ _ Hi) in Hk as [[-> ->]|[? Hk]];
        simpl in *; rewrite ?Hh in *; eauto.
    + intros j wkj c Hj Hc.
      apply (lookup_stepped_worker _ _ _ _ _ _ Hi) in Hj as [[-> ->]|[? Hj]];
        simpl in *.
      * rewrite Hp in Hc. simplify_eq. by rewrite lookup_insert_eq.
      * rewrite lookup_insert_ne; [eauto|].
        intros Heq. rewrite Heq, (H1 _ _ _ Hj Hc) in Hnone. done.
    + intros j k wkj wkk Hj Hk Hcj Hck Hn.
      apply (lookup_stepped_worker _ _ _ _ _ _ Hi) in Hj as [[-> ->]|[? Hj]];
        apply (lookup_stepped_worker _ _ _ _ _ _ Hi) in Hk as [[-> ->]|[? Hk]];
        simpl in *; eauto.
      * destruct Hck as [c Hc]. rewrite Hn, (H1 _ _ _ Hk Hc) in Hnone. done.
      * destruct Hcj as [c Hc]. rewrite <- Hn, (H1 _ _ _ Hj Hc) in Hnone. done.
    + intros j wkj c Hj Hc.
      apply (lookup_stepped_worker _ _ _ _ _ _ Hi) in Hj as [[-> ->]|[? Hj]];
        simpl in *; [congruence|].
      rewrite lookup_delete_ne; [eauto|].
      intros Heq. destruct (H2 i j wk wkj); eauto.
    + intros j k wkj wkk Hj Hk Hcj Hck Hn.
      apply (lookup_stepped_worker _ _ _ _ _ _ Hi) in Hj as [[-> ->]|[? Hj]];
        apply (lookup_stepped_worker _ _ _ _ _ _ Hi) in Hk as [[-> ->]|[? Hk]];
        simpl in *; rewrite ?Hp in *; eauto;
        try (by destruct Hcj); try (by destruct Hck).
  - apply step_other_ledger in Hstep as [Hm Hws]; [|done].
    unfold ledger_ok. rewrite Hm.
    destruct Hws as [->|(wk & -> & Hwk)]; [done|].
    split.
    + intros j wkj c Hj Hc.
      apply lookup_snoc_Some in Hj as [[_ Hj]|[_ <-]]; eauto.
      rewrite Hwk in Hc. done.
    + intros j k wkj wkk Hj Hk Hcj Hck Hn.
      apply lookup_snoc_Some in Hj as [[_ Hj]|[_ <-]];
        apply lookup_snoc_Some in Hk as [[_ Hk]|[_ <-]];
        rewrite ?Hwk in *; simpl in *; eauto;
        try (by destruct Hcj); try (by destruct Hck).
Qed.

Lemma reachable_ledger_ok backoff sys : reachable backoff sys → ledger_ok sys.
Proof.
  apply reachable_induction; eauto using ledger_ok_initial, ledger_ok_step.
Qed.

(** ** resolveNodeID *)

(** A signal channel is closed by nothing but a successful attempt of the
    retry loop that waits on behalf of it. *)
Lemma step_closes sys l sys' ch :
  step sys l = Some sys' →
  ch ∉ closedCh (world sys) → ch ∈ closedCh (world sys') →
  ∃ i wk r wake addr,
    l = LWorker i (EvAttempt (inl addr))
    ∧ workers sys !! i = Some wk
    ∧ wPhase wk = PResolveRetry ch r wake.
Proof.
  intros Hstep Hn Hc. destruct l; simpl in Hstep; simplify_eq/=; try done.
  - case_bool_decide; simplify_eq/=; done.
  - unfold sendBegin in Hc. destruct (rangeCheckFails req); simpl in Hc; [done|].
    destruct (lookupQueue _ _ _) as [[w1 c] ok] eqn:E.
    apply lookupQueue_frame in E. simpl in Hc.
    destruct E as (_ & _ & E & _). by rewrite E in Hc.
  - unfold sender_step in Hstep.
    destruct (senders sys !! j) as [[s req c ok|req c|?|]|] eqn:E;
      simplify_eq/=.
    + destruct ok; simpl in Hc; [done|]. by destruct spawn.
    + destruct (trySend _ _ _) as [w1 sent] eqn:E'. simplify_eq/=.
      apply trySend_frame in E'.
      destruct E' as (_ & _ & _ & _ & E' & _). by rewrite E' in Hc.
  - destruct (workers sys !! i) as [wk|] eqn:Hi; simplify_eq/=.
    destruct (worker_step _ _ _ _) as [[w1 p]|] eqn:Hw; simplify_eq/=.
    unfold worker_step in Hw.
    destruct (wPhase wk) eqn:Hp, ev; simplify_eq/=;
      repeat case_match; simplify_eq/=; try done.
    apply elem_of_union in Hc as [Hc%elem_of_singleton|Hc]; [|done].
    subst. eauto 10.
  - destruct (inbound sys !! k) as [ib|]; simplify_eq/=.
    destruct (inbound_step _ _ _) as [[w1 ib1]|] eqn:E; simplify_eq/=.
    apply inbound_step_frame in E.
    destruct E as (_ & _ & _ & _ & _ & E & _). by rewrite E in Hc.
Qed.

(** After the only retry loop for node 2 has succeeded and without any
    shutdown, the worker that waited for it leaves [resolveNodeID] with
    the error of its own call of the resolver. *)
Lemma waiter_observes_resolver_error :
  ∃ sys wk0 wk1,
    run (initial time.Second) waiter_fails_run = Some sys
    ∧ workers sys !! 0 = Some wk0
    ∧ wPhase wk0 = PResolveDefer 2 (inl "10.0.0.2:26257")
    ∧ workers sys !! 1 = Some wk1
    ∧ NodeID (wTo wk0) = NodeID (wTo wk1)
    ∧ wPhase wk1 = PReturn (Some (ErrExternal "node 2 is not in gossip"))
    ∧ quiesced (world sys) = false.
Proof.
  do 3 eexists. split; [vm_compute; reflexivity|].
  repeat split; reflexivity.
Qed.

(** C3, amended: in every reachable state at most one worker is in the
    retry loop for a node.  A call of [resolveNodeID] that finds an entry
    in the ledger changes nothing and waits on the channel of the entry;
    it moves on only when that channel is closed or the stopper quiesces.
    On the quiesce signal it returns the error "stopped before
    completion"; on the closed channel it calls the resolver once and
    returns what this call gives, an address or the resolver's error.
    The channel is closed only by a successful attempt of the retry
    loop. *)
Theorem resolveNodeID_single_flight backoff sys :
  reachable backoff sys →
  (∀ i j wk wk',
     workers sys !! i = Some wk → workers sys !! j = Some wk' →
     inRetryLoop (wPhase wk) = true → inRetryLoop (wPhase wk') = true →
     NodeID (wTo wk) = NodeID (wTo wk') → i = j)
  ∧ (∀ i wk ch,
       wPhase wk = PResolveEnter →
       addrLookups (world sys) !! NodeID (wTo wk) = Some ch →
       worker_step i (world sys) wk EvLock = Some (world sys, PResolveWait ch))
  ∧ (∀ i wk ch ev,
       wPhase wk = PResolveWait ch →
       is_Some (worker_step i (world sys) wk ev) ↔
       (∃ res, ev = EvSignalled res ∧ ch ∈ closedCh (world sys))
       ∨ (ev = EvQuiesced ∧ quiesced (world sys) = true))
  ∧ (∀ i wk ch,
       wPhase wk = PResolveWait ch → quiesced (world sys) = true →
       worker_step i (world sys) wk EvQuiesced
       = Some (world sys,
               PReturn (Some (ErrResolutionStopped (NodeID (wTo wk))))))
  ∧ (∀ i wk ch res,
       wPhase wk = PResolveWait ch → ch ∈ closedCh (world sys) →
       worker_step i (world sys) wk (EvSignalled res)
       = Some (emit (ObsResolver (NodeID (wTo wk)) res) (world sys),
               afterResolve res))
  ∧ (∀ l sys' ch,
       step sys l = Some sys' →
       ch ∉ closedCh (world sys) → ch ∈ closedCh (world sys') →
       ∃ i wk r wake addr,
         l = LWorker i (EvAttempt (inl addr))
         ∧ workers sys !! i = Some wk
         ∧ wPhase wk = PResolveRetry ch r wake).
Proof.
  intros Hreach. apply reachable_ledger_ok in Hreach as [_ H2].
  split; [|split; [|split; [|split; [|split]]]].
  - intros i j wk wk' Hi Hj Hli Hlj Hn.
    apply (H2 i j wk wk'); try done.
    + destruct (wPhase wk); try done; by eexists.
    + destruct (wPhase wk'); try done; by eexists.
  - intros i wk ch Hp Hm. unfold worker_step. by rewrite Hp, Hm.
  - intros i wk ch ev Hp. unfold worker_step. rewrite Hp. split.
    + intros [x Hx]. destruct ev; try done.
      * case_decide; [|done]. left. eauto.
      * destruct (quiesced (world sys)); [|done]. by right.
    + intros [(res & -> & Hc)|[-> Hq]].
      * rewrite decide_True by done. by eexists.
      * rewrite Hq. by eexists.
  - intros i wk ch Hp Hq. unfold worker_step. by rewrite Hp, Hq.
  - intros i wk ch res Hp Hc. unfold worker_step.
    by rewrite Hp, decide_True.
  - intros l sys' ch. apply step_closes.
Qed.

Lemma resolveNodeID_single_flight_witness :
  reachable time.Second two_resolvers_sys
  ∧ ∀ i j wk wk',
      workers two_resolvers_sys !! i = Some wk →
      workers two_resolvers_sys !! j = Some wk' →
      inRetryLoop (wPhase wk) = true → inRetryLoop (wPhase wk') = true →
      NodeID (wTo wk) = NodeID (wTo wk') → i = j.
Proof.
  assert (Hreach : reachable time.Second two_resolvers_sys)
    by (exists two_resolvers_run; vm_compute; reflexivity).
  split; [exact Hreach|].
  exact (proj1 (resolveNodeID_single_flight time.Second two_resolvers_sys Hreach)).
Defined.

Lemma worker_step_frame i w wk ev w' p :
  worker_step i w wk ev = Some (w', p) →
  handlers w' = handlers w ∧ quiesced w' = quiesced w
  ∧ stopped w' = stopped w ∧ now w' = now w
  ∧ InitialResolveBackoff w' = InitialResolveBackoff w.
Proof.
  unfold worker_step. intros H.
  destruct (wPhase wk) eqn:Hp, ev; simplify_eq/=;
    repeat case_match; simplify_eq/=; done.
Qed.

(** The package variable is not written; the signals of the stopper,
    once fired, stay fired; the clock does not go back. *)
Lemma step_frame sys l sys' :
  step sys l = Some sys' →
  InitialResolveBackoff (world sys') = InitialResolveBackoff (world sys)
  ∧ (quiesced (world sys) = true → quiesced (world sys') = true)
  ∧ (stopped (world sys) = true → stopped (world sys') = true)
  ∧ (now (world sys) ≤ now (world sys'))%Z.
Proof.
  intros Hstep. destruct l; simpl in Hstep; simplify_eq/=; try done.
  - case_bool_decide; simplify_eq/=. repeat split; try done. lia.
  - unfold sendBegin. destruct (rangeCheckFails req); simpl; [done|].
    destruct (lookupQueue _ _ _) as [[w1 c] ok] eqn:E.
    apply lookupQueue_frame in E. simpl.
    destruct E as (_ & _ & _ & -> & -> & -> & -> & _). done.
  - unfold sender_step in Hstep.
    destruct (senders sys !! j) as [[s req c ok|req c|?|]|] eqn:E;
      simplify_eq/=.
    + destruct ok; simpl; [done|]. by destruct spawn.
    + destruct (trySend _ _ _) as [w1 sent] eqn:E'. simplify_eq/=.
      apply trySend_frame in E'.
      destruct E' as (_ & _ & _ & _ & _ & -> & -> & -> & -> & _). done.
  - destruct (workers sys !! i) as [wk|] eqn:Hi; simplify_eq/=.
    destruct (worker_step _ _ _ _) as [[w1 p]|] eqn:Hw; simplify_eq/=.
    apply worker_step_frame in Hw as (_ & -> & -> & -> & ->). done.
  - destruct (inbound sys !! k) as [ib|]; simplify_eq/=.
    destruct (inbound_step _ _ _) as [[w1 ib1]|] eqn:E; simplify_eq/=.
    apply inbound_step_frame in E.
    destruct E as (_ & _ & _ & _ & _ & _ & -> & -> & -> & ->). done.
Qed.

(** Where the retry state of a worker comes from. *)
Lemma worker_step_retry i w wk ev w' ch r' wake' :
  worker_step i w wk ev = Some (w', PResolveRetry ch r' wake') →
  (wPhase wk = PResolveEnter ∧ r' = retry.Start (resolveOpts w))
  ∨ (∃ r wake, wPhase wk = PResolveRetry ch r wake ∧ r' = retry.Next r).
Proof.
  unfold worker_step. intros H.
  destruct (wPhase wk) eqn:Hp, ev; simplify_eq/=;
    repeat case_match; simplify_eq/=; eauto;
    match goal with
    | H : afterResolve ?r = _ |- _ => by destruct r
    | H : orReturn ?e _ = _ |- _ => by destruct e
    | H : afterSend _ ?e = _ |- _ => by destruct e
    end.
Qed.

Lemma retry_ok_initial backoff : retry_ok backoff (initial backoff).
Proof. split; [done|]. intros *. simpl. by rewrite lookup_nil. Qed.

Lemma retry_ok_step backoff sys l sys' :
  retry_ok backoff sys → step sys l = Some sys' → retry_ok backoff sys'.
Proof.
  intros [H1 H2] Hstep. pose proof (step_frame _ _ _ Hstep) as (Hb & _).
  split; [congruence|]. unfold resolveOpts in *. rewrite Hb.
  destruct (label_worker_cases l) as [(i & ev & ->)|Hl].
  - apply step_worker_inv in Hstep as (wk & w1 & p & Hi & Hw & ->). simpl.
    intros j wkj ch r wake Hj Hp.
    apply (lookup_stepped_worker _ _ _ _ _ _ Hi) in Hj as [[-> ->]|[? Hj]];
      [|eauto].
    simpl in Hp. subst p.
    apply worker_step_retry in Hw as [[_ ->]|(r0 & wake0 & Hp0 & ->)].
    + by exists 0.
    + destruct (H2 _ _ _ _ _ Hi Hp0) as [k ->]. by exists (S k).
  - apply step_other_ledger in Hstep as [_ Hws]; [|done].
    intros j wkj ch r wake Hj Hp.
    destruct Hws as [Hws|(wk & Hws & Hwk)]; rewrite Hws in Hj; [eauto|].
    apply lookup_snoc_Some in Hj as [[_ Hj]|[_ <-]]; [eauto|congruence].
Qed.

Lemma reachable_retry_ok backoff sys :
  reachable backoff sys → retry_ok backoff sys.
Proof.
  apply reachable_induction; eauto using retry_ok_initial, retry_ok_step.
Qed.

(** The retry state after some calls of [Next]. *)
Lemma retry_iter_Next o k :
  Nat.iter (S k) retry.Next (retry.Start o)
  = {| retry.opts := o; retry.currentAttempt := k; retry.isReset := false |}.
Proof.
  induction k as [|k IH]; [done|].
  change (Nat.iter (S (S k)) retry.Next (retry.Start o))
    with (retry.Next (Nat.iter (S k) retry.Next (retry.Start o))).
  by rewrite IH.
Qed.

Lemma retry_iter_opts o k :
  retry.opts (Nat.iter k retry.Next (retry.Start o)) = o.
Proof. destruct k; [done|]. by rewrite retry_iter_Next. Qed.

(** ** The registry of queues *)

Lemma omap_insert_same {A B} (f : A → option B) (l : list A) i x y :
  l !! i = Some x → f y = f x → omap f (<[i:=y]> l) = omap f l.
Proof.
  intros Hi Hf.
  rewrite <- (take_drop_middle l i x Hi) at 2.
  rewrite insert_take_drop by (by eapply lookup_lt_Some).
  rewrite !omap_app. simpl. by rewrite Hf.
Qed.

Lemma omap_insert_drop {A B} (f : A → option B) (l : list A) i x y a :
  l !! i = Some x → f x = Some a → f y = None →
  omap f l ≡ₚ a :: omap f (<[i:=y]> l).
Proof.
  intros Hi Hx Hy.
  rewrite <- (take_drop_middle l i x Hi) at 1.
  rewrite insert_take_drop by (by eapply lookup_lt_Some).
  rewrite !omap_app. simpl. rewrite Hx, Hy.
  by rewrite Permutation_middle.
Qed.

Lemma omap_snoc {A B} (f : A → option B) (l : list A) x :
  omap f (l ++ [x]) = omap f l ++ match f x with Some a => [a] | None => [] end.
Proof. rewrite omap_app. simpl. by destruct (f x). Qed.

Lemma queue_of_delete snap to w snap' to' :
  queue_of snap' to' (set_queues (alter (delete to) snap) w)
  = if decide (snap' = snap ∧ to' = to) then None else queue_of snap' to' w.
Proof.
  unfold queue_of. simpl.
  destruct (decide (snap' = snap)) as [->|Hs].
  - rewrite lookup_alter_eq.
    destruct (queues w !! snap) as [q|]; simpl.
    + destruct (decide (to' = to)) as [->|Ht].
      * rewrite lookup_delete_eq. by rewrite decide_True.
      * rewrite lookup_delete_ne by done.
        rewrite decide_False; [done|by intros [? ?]].
    + by case_decide.
  - rewrite lookup_alter_ne by done.
    rewrite decide_False; [done|by intros [? ?]].
Qed.

(** What the section of [SendAsync] under the mutex does to the registry
    and to the channels. *)
Lemma lookupQueue_spec snap to w w1 ch ok :
  lookupQueue snap to w = (w1, ch, ok) →
  (∀ snap' to', queue_of snap' to' w1
     = if decide (snap' = snap ∧ to' = to) then Some ch
       else queue_of snap' to' w)
  ∧ (if ok
     then queue_of snap to w = Some ch
          ∧ sendBuf w1 = sendBuf w ∧ nextCh w1 = nextCh w
     else queue_of snap to w = None ∧ ch = nextCh w
          ∧ sendBuf w1 = <[ch := []]> (sendBuf w)
          ∧ nextCh w1 = S (nextCh w)).
Proof.
  unfold lookupQueue, makeSendChan, queue_of. intros H.
  destruct (queues w !! snap) as [q|] eqn:Eq; simpl in H.
  - destruct (q !! to) as [c|] eqn:Et; simplify_eq/=.
    + split; [|done].
      intros snap' to'. case_decide as Hd; [|done].
      destruct Hd as [-> ->]. by rewrite Eq.
    + split; [|done].
      intros snap' to'.
      destruct (decide (snap' = snap)) as [->|Hs].
      * rewrite lookup_alter_eq, Eq. simpl.
        destruct (decide (to' = to)) as [->|Ht].
        -- rewrite lookup_insert_eq. by rewrite decide_True.
        -- rewrite lookup_insert_ne by done.
           rewrite decide_False; [done|by intros [? ?]].
      * rewrite lookup_alter_ne by done.
        rewrite decide_False; [done|by intros [? ?]].
  - rewrite lookup_empty in H. simplify_eq/=. split; [|done].
    intros snap' to'.
    destruct (decide (snap' = snap)) as [->|Hs].
    + rewrite lookup_alter_eq, lookup_insert_eq, Eq. simpl.
      destruct (decide (to' = to)) as [->|Ht].
      * rewrite lookup_insert_eq. by rewrite decide_True.
      * rewrite lookup_insert_ne by done.
        rewrite decide_False; [done|by intros [? ?]].
    + rewrite lookup_alter_ne, lookup_insert_ne by done.
      rewrite decide_False; [done|by intros [? ?]].
Qed.

Lemma queue_of_ext w1 w2 snap to :
  queues w1 = queues w2 → queue_of snap to w1 = queue_of snap to w2.
Proof. unfold queue_of. by intros ->. Qed.

(** A worker that can make a step has not exited; the step leaves the
    registry alone, unless it is the last one, which deletes the entry of
    the worker's destination from the inner map of its class. *)
Lemma worker_step_registry i w wk ev w' p :
  worker_step i w wk ev = Some (w', p) →
  live (wPhase wk) = true
  ∧ ((queues w' = queues w ∧ live p = true)
     ∨ (p = PExited
        ∧ queues w' = alter (delete (wTo wk)) (wSnap wk) (queues w))).
Proof.
  unfold worker_step. intros H.
  destruct (wPhase wk) eqn:Hp, ev; simplify_eq/=;
    repeat case_match; simplify_eq/=; split; try done; eauto;
    left; split; try done;
    match goal with
    | |- live (afterResolve ?r) = _ => by destruct r
    | |- live (orReturn ?e _) = _ => by destruct e
    | |- live (afterSend _ ?e) = _ => by destruct e
    end.
Qed.

(** What a step does to the registry and to the goroutines in charge of
    its queues: nothing; or a queue is made for a destination and class
    that had none, with the caller of [SendAsync] in charge (which the
    worker it starts takes over); or the one in charge of a queue gives up,
    either the caller whose worker the stopper refused, which leaves the
    entry, or the worker at its end, which deletes it. *)
Lemma step_holders sys l sys' :
  step sys l = Some sys' →
  (holdersOf sys' ≡ₚ holdersOf sys
   ∧ ∀ snap to, queue_of snap to (world sys') = queue_of snap to (world sys))
  ∨ (∃ snap to ch,
       queue_of snap to (world sys) = None
       ∧ holdersOf sys' ≡ₚ (snap, to, ch) :: holdersOf sys
       ∧ ∀ snap' to', queue_of snap' to' (world sys')
           = if decide (snap' = snap ∧ to' = to) then Some ch
             else queue_of snap' to' (world sys))
  ∨ (∃ snap to ch,
       holdersOf sys ≡ₚ (snap, to, ch) :: holdersOf sys'
       ∧ ((∀ snap' to', queue_of snap' to' (world sys')
             = queue_of snap' to' (world sys))
          ∨ (∀ snap' to', queue_of snap' to' (world sys')
               = if decide (snap' = snap ∧ to' = to) then None
                 else queue_of snap' to' (world sys)))).
Proof.
  intros Hstep. unfold holdersOf.
  destruct l; simpl in Hstep; simplify_eq/=; try (by left).
  - case_bool_decide; simplify_eq/=. by left.
  - unfold sendBegin. destruct (rangeCheckFails req); simpl.
    { left. by rewrite omap_snoc, app_nil_r. }
    destruct (lookupQueue _ _ _) as [[w1 ch] ok] eqn:E.
    apply lookupQueue_spec in E as [Hq Hok]. simpl. rewrite omap_snoc. simpl.
    destruct ok.
    + left. rewrite app_nil_r. split; [done|]. intros snap to. rewrite Hq.
      case_decide as Hd; [|done]. destruct Hd as [-> ->]. by destruct Hok.
    + right. left. exists (isSnap req), (ToReplica req), ch.
      destruct Hok as (Hnone & _). split; [done|]. split; [|done].
      by rewrite <- Permutation_cons_append, Permutation_middle.
  - unfold sender_step in Hstep.
    destruct (senders sys !! j) as [[s req ch ok|req ch|?|]|] eqn:E;
      simplify_eq/=.
    + destruct ok; simpl.
      * left. by rewrite (omap_insert_same _ _ _ _ _ E).
      * pose proof (omap_insert_drop senderHold _ j _ (SSelect req ch) _ E
                      eq_refl eq_refl) as HP.
        destruct spawn as [err|]; simpl.
        -- right. right. exists (isSnap req), (ToReplica req), ch.
           split; [|by left]. by rewrite HP, Permutation_middle.
        -- left. split; [|done]. rewrite omap_snoc. simpl.
           rewrite HP. rewrite <- app_assoc. done.
    + destruct (trySend _ _ _) as [w1 sent] eqn:E'. simplify_eq/=.
      apply trySend_frame in E' as (_ & Hq & _).
      left. rewrite (omap_insert_same _ _ _ _ _ E) by done.
      split; [done|]. intros. by apply queue_of_ext.
  - destruct (workers sys !! i) as [wk|] eqn:Hi; simplify_eq/=.
    destruct (worker_step _ _ _ _) as [[w1 p]|] eqn:Hw; simplify_eq/=.
    apply worker_step_registry in Hw as [Hlive [[Hq Hp]|[-> Hq]]].
    + left. rewrite (omap_insert_same _ _ _ _ _ Hi).
      * split; [done|]. intros. by apply queue_of_ext.
      * unfold workerHold. simpl. by rewrite Hp, Hlive.
    + right. right. exists (wSnap wk), (wTo wk), (wCh wk). split.
      * rewrite (omap_insert_drop workerHold _ i _
                   (set_wPhase PExited wk) (wSnap wk, wTo wk, wCh wk) Hi);
          [done| |done].
        unfold workerHold. by rewrite Hlive.
      * right. intros snap' to'. rewrite <- queue_of_delete.
        by apply queue_of_ext.
  - destruct (inbound sys !! k) as [ib|]; simplify_eq/=.
    destruct (inbound_step _ _ _) as [[w1 ib1]|] eqn:E; simplify_eq/=.
    apply inbound_step_frame in E as (_ & Hq & _).
    left. split; [done|]. intros. by apply queue_of_ext.
Qed.

Lemma registry_ok_initial backoff : registry_ok (initial backoff).
Proof.
  split; [constructor|]. unfold holdersOf. simpl.
  intros snap to ch H. by apply elem_of_nil in H.
Qed.

Lemma registry_ok_step sys l sys' :
  registry_ok sys → step sys l = Some sys' → registry_ok sys'.
Proof.
  intros [Hnd Hq] Hstep. unfold registry_ok.
  destruct (step_holders _ _ _ Hstep)
    as [[HP Hsame]|[(snap & to & ch & Hnone & HP & Hnew)
                   |(snap & to & ch & HP & Hdel)]].
  - rewrite HP. split; [done|].
    intros s t c Hin. rewrite HP in Hin. rewrite Hsame. eauto.
  - rewrite HP. split.
    + simpl. constructor; [|done].
      intros Hin. apply list_elem_of_fmap in Hin as ([[s t] c] & Hk & Hin).
      simpl in Hk. simplify_eq. rewrite (Hq _ _ _ Hin) in Hnone. done.
    + intros s t c Hin. rewrite HP in Hin. rewrite Hnew.
      apply elem_of_cons in Hin as [Heq|Hin].
      * simplify_eq. by rewrite decide_True.
      * case_decide as Hd; [|eauto]. destruct Hd as [-> ->].
        rewrite (Hq _ _ _ Hin) in Hnone. done.
  - rewrite HP in Hnd. simpl in Hnd. apply NoDup_cons in Hnd as [Hfresh Hnd].
    split; [done|].
    intros s t c Hin.
    assert (Hin' : (s, t, c) ∈ holdersOf sys)
      by (rewrite HP; by apply elem_of_cons; right).
    destruct Hdel as [Hsame|Hdel]; [rewrite Hsame; eauto|].
    rewrite Hdel. case_decide as Hd; [|eauto]. destruct Hd as [-> ->].
    destruct Hfresh. apply list_elem_of_fmap. by exists (snap, to, c).
Qed.

Lemma reachable_registry_ok backoff sys :
  reachable backoff sys → registry_ok sys.
Proof.
  apply reachable_induction; eauto using registry_ok_initial, registry_ok_step.
Qed.

Lemma live_worker_holds sys i wk :
  workers sys !! i = Some wk → live (wPhase wk) = true →
  (wSnap wk, wTo wk, wCh wk) ∈ holdersOf sys.
Proof.
  intros Hi Hl. unfold holdersOf. apply elem_of_app. left.
  apply list_elem_of_omap. exists wk. split.
  - apply list_elem_of_lookup. eauto.
  - unfold workerHold. by rewrite Hl.
Qed.

Lemma NoDup_omap_lookup {A B C} (f : A → option B) (g : B → C)
    (l : list A) i j x y a b :
  NoDup (g <$> omap f l) →
  l !! i = Some x → l !! j = Some y →
  f x = Some a → f y = Some b → g a = g b → i = j.
Proof.
  revert i j. induction l as [|z l IH]; intros i j Hnd Hi Hj Hx Hy Hg.
  - by rewrite lookup_nil in Hi.
  - assert (Hmem : ∀ k u c, l !! k = Some u → f u = Some c →
                     g c ∈ g <$> omap f l).
    { intros k u c Hk Hu. apply list_elem_of_fmap. exists c. split; [done|].
      apply list_elem_of_omap. exists u. split; [|done].
      apply list_elem_of_lookup. eauto. }
    destruct i as [|i], j as [|j]; simpl in *; simplify_eq; [done| | |].
    + rewrite Hx in Hnd. simpl in Hnd. apply NoDup_cons in Hnd as [Hn _].
      destruct Hn. rewrite Hg. eauto.
    + rewrite Hy in Hnd. simpl in Hnd. apply NoDup_cons in Hnd as [Hn _].
      destruct Hn. rewrite <- Hg. eauto.
    + f_equal. apply IH; try done.
      destruct (f z); simpl in Hnd; [|done].
      by apply NoDup_cons in Hnd as [_ ?].
Qed.

(** At most one live worker for a destination and class. *)
Lemma one_live_worker_per_queue backoff sys i j wk wk' :
  reachable backoff sys →
  workers sys !! i = Some wk → workers sys !! j = Some wk' →
  live (wPhase wk) = true → live (wPhase wk') = true →
  wSnap wk = wSnap wk' → wTo wk = wTo wk' → i = j.
Proof.
  intros Hreach Hi Hj Hl Hl' Hs Ht.
  apply reachable_registry_ok in Hreach as [Hnd _].
  unfold holdersOf in Hnd. rewrite fmap_app in Hnd.
  apply NoDup_app in Hnd as [Hnd _].
  eapply (NoDup_omap_lookup workerHold fst); [exact Hnd|exact Hi|exact Hj| | |].
  - unfold workerHold. by rewrite Hl.
  - unfold workerHold. by rewrite Hl'.
  - simpl. by rewrite Hs, Ht.
Qed.

(** A step of a worker allocates at most a signal channel and touches no
    buffer but the one of its own queue, whose oldest message it may take. *)
Lemma worker_step_chan i w wk ev w' p :
  worker_step i w wk ev = Some (w', p) →
  nextCh w ≤ nextCh w'
  ∧ (sendBuf w' = sendBuf w
     ∨ ∃ req rest, sendBuf w !! wCh wk = Some (req :: rest)
                   ∧ sendBuf w' = <[wCh wk := rest]> (sendBuf w)).
Proof.
  unfold worker_step. intros H.
  destruct (wPhase wk) eqn:Hp, ev; simplify_eq/=;
    repeat case_match; simplify_eq/=; split; eauto; lia.
Qed.

Lemma chan_ok_initial backoff : chan_ok (world (initial backoff)).
Proof.
  split.
  - intros snap to ch. unfold queue_of. simpl. by rewrite lookup_empty.
  - intros ch buf. simpl. by rewrite lookup_empty.
Qed.

Lemma chan_ok_step sys l sys' :
  chan_ok (world sys) → step sys l = Some sys' → chan_ok (world sys').
Proof.
  intros [Hq Hb] Hstep.
  destruct l; simpl in Hstep; simplify_eq/=; try done.
  - case_bool_decide; simplify_eq/=. done.
  - unfold sendBegin. destruct (rangeCheckFails req); simpl; [done|].
    destruct (lookupQueue _ _ _) as [[w1 ch] ok] eqn:E.
    apply lookupQueue_spec in E as [Hq1 Hok]. simpl.
    destruct ok.
    + destruct Hok as (Hch & Hs & Hn). split.
      * intros snap to c. rewrite Hq1, Hs, Hn.
        case_decide as Hd; [|eauto]. intros. simplify_eq. eauto.
      * by rewrite Hs.
    + destruct Hok as (Hnone & -> & Hs & Hn). split.
      * intros snap to c. rewrite Hq1, Hs, Hn.
        case_decide as Hd.
        -- intros. simplify_eq. rewrite lookup_insert_eq. split; [lia|eauto].
        -- intros Hc. destruct (Hq _ _ _ Hc) as [Hlt Hsome]. split; [lia|].
           rewrite lookup_insert_ne by lia. done.
      * intros c buf. rewrite Hs. intros Hc.
        apply lookup_insert_Some in Hc as [[_ <-]|[_ Hc]]; [simpl; lia|eauto].
  - unfold sender_step in Hstep.
    destruct (senders sys !! j) as [[s req ch ok|req ch|?|]|] eqn:E;
      simplify_eq/=.
    + destruct ok; simpl; [done|]. by destruct spawn.
    + destruct (trySend _ _ _) as [w1 sent] eqn:E'. simplify_eq/=.
      pose proof (trySend_frame _ _ _ _ _ E') as (_ & Hqs & _ & Hn & _).
      unfold trySend in E'.
      destruct (sendBuf (world sys) !! ch) as [buf|] eqn:Eb;
        [|by simplify_eq].
      case_decide as Hlen; simplify_eq/=; [|done].
      split.
      * intros snap to c Hc.
        rewrite (queue_of_ext _ (world sys)) in Hc by done.
        destruct (Hq _ _ _ Hc) as [Hlt Hsome]. split; [done|].
        simpl. destruct (decide (ch = c)) as [->|Hne].
        -- rewrite lookup_insert_eq. eauto.
        -- by rewrite lookup_insert_ne.
      * intros c b Hc. simpl in Hc.
        apply lookup_insert_Some in Hc as [[_ <-]|[_ Hc]]; [|eauto].
        rewrite length_app. simpl. unfold raftSendBufferSize in *. lia.
  - destruct (workers sys !! i) as [wk|] eqn:Hi; simplify_eq/=.
    destruct (worker_step _ _ _ _) as [[w1 p]|] eqn:Hw; simplify_eq/=.
    pose proof (worker_step_chan _ _ _ _ _ _ Hw) as [Hn Hs].
    apply worker_step_registry in Hw as [_ Hqs].
    assert (Hsub : ∀ snap to c, queue_of snap to w1 = Some c →
                     queue_of snap to (world sys) = Some c).
    { intros snap to c. destruct Hqs as [[Heq _]|[_ Heq]].
      - by rewrite (queue_of_ext _ (world sys)).
      - rewrite (queue_of_ext w1
                   (set_queues (alter (delete (wTo wk)) (wSnap wk)) (world sys)))
          by done.
        rewrite queue_of_delete. by case_decide. }
    split.
    + intros snap to c Hc. apply Hsub in Hc.
      destruct (Hq _ _ _ Hc) as [Hlt Hsome]. split; [lia|].
      destruct Hs as [->|(req & rest & Hold & ->)]; [done|].
      destruct (decide (wCh wk = c)) as [->|Hne].
      * rewrite lookup_insert_eq. eauto.
      * by rewrite lookup_insert_ne.
    + intros c b Hc.
      destruct Hs as [Heq|(req & rest & Hold & Heq)]; rewrite Heq in Hc;
        [eauto|].
      apply lookup_insert_Some in Hc as [[_ <-]|[_ Hc]]; [|eauto].
      apply Hb in Hold. simpl in Hold. lia.
  - destruct (inbound sys !! k) as [ib|]; simplify_eq/=.
    destruct (inbound_step _ _ _) as [[w1 ib1]|] eqn:E; simplify_eq/=.
    apply inbound_step_frame in E as (_ & Hqs & _ & Hs & Hn & _).
    split.
    + intros snap to c. rewrite (queue_of_ext _ (world sys)), Hs, Hn by done.
      apply Hq.
    + by rewrite Hs.
Qed.

Lemma reachable_chan_ok backoff sys :
  reachable backoff sys → chan_ok (world sys).
Proof.
  apply (reachable_induction backoff (λ sys, chan_ok (world sys)));
    eauto using chan_ok_initial, chan_ok_step.
Qed.

(** ** SendAsync as a run of the system *)

Lemma sender_step_looked sys s req ch ok spawn :
  sender_step (length (senders sys)) spawn
    (set_senders (λ ss, ss ++ [SLooked s req ch ok]) sys)
  = Some (set_senders (λ ss, ss ++ [SSelect req ch])
            (if ok then sys else startWorker s req ch spawn sys)).
Proof.
  unfold sender_step. cbn [senders set_senders].
  rewrite list_lookup_middle by done.
  destruct ok; [|destruct spawn];
    unfold set_senders, startWorker, set_workers, set_world; cbn;
    by rewrite insert_app_r_alt, Nat.sub_diag by lia.
Qed.

Lemma sender_step_select sys req ch w3 sent :
  trySend ch req (world sys) = (w3, sent) →
  sender_step (length (senders sys)) None
    (set_senders (λ ss, ss ++ [SSelect req ch]) sys)
  = Some (set_senders (λ ss, ss ++ [SReturned sent]) (set_world w3 sys)).
Proof.
  intros E. unfold sender_step. cbn [senders set_senders world].
  rewrite list_lookup_middle by done. rewrite E.
  unfold set_senders, set_world; cbn.
  by rewrite insert_app_r_alt, Nat.sub_diag by lia.
Qed.

(** A call of [SendAsync] that no other goroutine interleaves with is the
    run of its three steps. *)
Lemma SendAsync_run s req spawn sys sent sys' :
  SendAsync s req spawn sys = Return sent sys' →
  run sys [LSendAsync s req; LSender (length (senders sys)) spawn;
           LSender (length (senders sys)) None] = Some sys'.
Proof.
  unfold SendAsync. cbn [run step]. unfold sendBegin.
  destruct (rangeCheckFails req); [done|].
  destruct (lookupQueue _ _ _) as [[w1 ch] ok] eqn:E.
  destruct (trySend _ _ _) as [w3 sent'] eqn:E3.
  intros ?; simplify_eq. cbn [mbind option_bind].
  pose proof (sender_step_looked (set_world w1 sys) s req ch ok spawn) as H1.
  cbn [senders set_world] in H1. rewrite H1. cbn [mbind option_bind].
  set (sys2 := if ok then set_world w1 sys
               else startWorker s req ch spawn (set_world w1 sys)) in *.
  pose proof (sender_step_select sys2 req ch w3 sent E3) as H2.
  assert (Hlen : senders sys2 = senders sys).
  { unfold sys2. destruct ok; [done|]. by destruct spawn. }
  rewrite Hlen in H2. by rewrite H2.
Qed.

Lemma SendAsync_reachable backoff s req spawn sys sent sys' :
  reachable backoff sys →
  SendAsync s req spawn sys = Return sent sys' →
  reachable backoff sys'.
Proof.
  intros Hr H. eapply reachable_run; [done|]. by eapply SendAsync_run.
Qed.

Lemma step_nextCh sys l sys' :
  step sys l = Some sys' → nextCh (world sys) ≤ nextCh (world sys').
Proof.
  intros Hstep. destruct l; simpl in Hstep; simplify_eq/=; try done.
  - case_bool_decide; simplify_eq/=. done.
  - unfold sendBegin. destruct (rangeCheckFails req); simpl; [done|].
    destruct (lookupQueue _ _ _) as [[w1 ch] ok] eqn:E.
    apply lookupQueue_spec in E as [_ Hok]. simpl.
    destruct ok; [destruct Hok as (_ & _ & ->)|destruct Hok as (_ & _ & _ & ->)];
      lia.
  - unfold sender_step in Hstep.
    destruct (senders sys !! j) as [[s req ch ok|req ch|?|]|] eqn:E;
      simplify_eq/=.
    + destruct ok; simpl; [done|]. by destruct spawn.
    + destruct (trySend _ _ _) as [w1 sent] eqn:E'. simplify_eq/=.
      apply trySend_frame in E' as (_ & _ & _ & -> & _). done.
  - destruct (workers sys !! i) as [wk|] eqn:Hi; simplify_eq/=.
    destruct (worker_step _ _ _ _) as [[w1 p]|] eqn:Hw; simplify_eq/=.
    by apply worker_step_chan in Hw as [? _].
  - destruct (inbound sys !! k) as [ib|]; simplify_eq/=.
    destruct (inbound_step _ _ _) as [[w1 ib1]|] eqn:E; simplify_eq/=.
    apply inbound_step_frame in E as (_ & _ & _ & _ & -> & _). done.
Qed.

Lemma threads_chan_ok_initial backoff : threads_chan_ok (initial backoff).
Proof. split; intros *; simpl; by rewrite lookup_nil. Qed.

Lemma threads_chan_ok_step sys l sys' :
  chan_ok (world sys) → threads_chan_ok sys →
  step sys l = Some sys' → threads_chan_ok sys'.
Proof.
  intros [Hq _] [Hw Hs] Hstep.
  pose proof (step_nextCh _ _ _ Hstep) as Hmono.
  assert (Hw' : ∀ i wk, workers sys !! i = Some wk →
                  wCh wk < nextCh (world sys'))
    by (intros i wk Hi; specialize (Hw _ _ Hi); lia).
  assert (Hs' : ∀ j s req ch ok, senders sys !! j = Some (SLooked s req ch ok) →
                  ch < nextCh (world sys'))
    by (intros j s req ch ok Hj; specialize (Hs _ _ _ _ _ Hj); lia).
  clear Hmono.
  destruct l; simpl in Hstep; simplify_eq/=; try (by split).
  - case_bool_decide; simplify_eq/=. by split.
  - revert Hw' Hs'. unfold sendBegin.
    destruct (rangeCheckFails req); simpl.
    { intros Hw' Hs'. split; [done|]. intros j s0 r c o Hj.
      apply lookup_snoc_Some in Hj as [[_ Hj]|[_ ?]]; [eauto|done]. }
    destruct (lookupQueue _ _ _) as [[w1 ch] ok] eqn:E.
    apply lookupQueue_spec in E as [_ Hok]. simpl. intros Hw' Hs'.
    split; [done|]. intros j s0 r c o Hj.
    apply lookup_snoc_Some in Hj as [[_ Hj]|[_ ?]]; [eauto|]. simplify_eq.
    destruct o; simpl.
    + destruct Hok as (Hch & _ & ->). by apply Hq in Hch as [? _].
    + destruct Hok as (_ & -> & _ & ->). lia.
  - unfold sender_step in Hstep.
    destruct (senders sys !! j) as [[s req ch ok|req ch|?|]|] eqn:E;
      simplify_eq/=.
    + assert (Hsel : ∀ j0 s0 r c o,
                <[j:=SSelect req ch]> (senders sys) !! j0
                = Some (SLooked s0 r c o) →
                senders sys !! j0 = Some (SLooked s0 r c o)).
      { intros j0 s0 r c o Hj.
        apply list_lookup_insert_Some in Hj as [(_ & ? & _)|[_ ?]]; done. }
      destruct ok; simpl in *; [split; eauto|].
      destruct spawn; simpl in *; [split; eauto|].
      split; [|eauto].
      intros i wk Hi.
      apply lookup_snoc_Some in Hi as [[_ Hi]|[_ <-]]; [eauto|]. simpl. eauto.
    + destruct (trySend _ _ _) as [w1 sent] eqn:E'. simplify_eq/=.
      split; [done|]. intros j0 s0 r c o Hj.
      apply list_lookup_insert_Some in Hj as [(_ & ? & _)|[_ ?]]; [done|eauto].
  - destruct (workers sys !! i) as [wk|] eqn:Hi; simplify_eq/=.
    destruct (worker_step _ _ _ _) as [[w1 p]|] eqn:Hwk; simplify_eq/=.
    split; [|done]. intros j wkj Hj.
    apply (lookup_stepped_worker _ _ _ _ _ _ Hi) in Hj as [[-> ->]|[? Hj]];
      simpl; eauto.
  - destruct (inbound sys !! k) as [ib|]; simplify_eq/=.
    destruct (inbound_step _ _ _) as [[w1 ib1]|] eqn:E; simplify_eq/=.
    by split.
Qed.

Lemma reachable_threads_chan_ok backoff sys :
  reachable backoff sys → threads_chan_ok sys.
Proof.
  apply reachable_induction; [apply threads_chan_ok_initial|].
  intros s l s' Hr. apply threads_chan_ok_step.
  by eapply reachable_chan_ok.
Qed.

(** An orphan queue stays one: nothing takes charge of it and nothing
    deletes its entry. *)
Lemma orphan_step snap to ch sys l sys' :
  orphan snap to ch sys → step sys l = Some sys' → orphan snap to ch sys'.
Proof.
  intros [Hq Hno] Hstep. unfold orphan.
  destruct (step_holders _ _ _ Hstep)
    as [[HP Hsame]|[(snap1 & to1 & ch1 & Hnone & HP & Hnew)
                   |(snap1 & to1 & ch1 & HP & Hdel)]].
  - rewrite Hsame. split; [done|]. intros c. rewrite HP. apply Hno.
  - assert (Hne : ¬ (snap = snap1 ∧ to = to1))
      by (intros [-> ->]; congruence).
    rewrite Hnew, decide_False by done. split; [done|].
    intros c. rewrite HP. intros Hin.
    apply elem_of_cons in Hin as [?|Hin]; [simplify_eq; by destruct Hne|].
    by apply (Hno c).
  - assert (Hne : ¬ (snap = snap1 ∧ to = to1)).
    { intros [-> ->]. apply (Hno ch1). rewrite HP. by left. }
    split.
    + destruct Hdel as [->| ->]; [done|]. by rewrite decide_False.
    + intros c Hin. apply (Hno c). rewrite HP. by right.
Qed.

Lemma orphan_run snap to ch sys ls sys' :
  orphan snap to ch sys → run sys ls = Some sys' → orphan snap to ch sys'.
Proof.
  revert sys. induction ls as [|l ls IH]; intros sys Ho Hrun; simpl in Hrun.
  - by simplify_eq.
  - destruct (step sys l) as [sys1|] eqn:E; simpl in Hrun; [|done].
    eapply IH; [|done]. by eapply orphan_step.
Qed.

(** ** SendAsync on an existing and on a missing queue *)

Lemma lookupQueue_existing snap to w ch :
  queue_of snap to w = Some ch → lookupQueue snap to w = (w, ch, true).
Proof.
  unfold queue_of, lookupQueue. intros H.
  destruct (queues w !! snap) as [q|]; simpl in H; [|done].
  by rewrite H.
Qed.

Lemma SendAsync_existing s req spawn sys ch :
  rangeCheckFails req = false →
  queue_of (isSnap req) (ToReplica req) (world sys) = Some ch →
  SendAsync s req spawn sys
  = Return (trySend ch req (world sys)).2
      (set_senders (λ ss, ss ++ [SReturned (trySend ch req (world sys)).2])
         (set_world (trySend ch req (world sys)).1 sys)).
Proof.
  intros Hr Hq. unfold SendAsync.
  rewrite Hr, (lookupQueue_existing _ _ _ _ Hq).
  assert (Hid : set_world (world sys) sys = sys) by by destruct sys.
  rewrite Hid. by destruct (trySend ch req (world sys)).
Qed.

Lemma SendAsync_new s req spawn sys :
  rangeCheckFails req = false →
  queue_of (isSnap req) (ToReplica req) (world sys) = None →
  ∃ sys',
    SendAsync s req spawn sys = Return true sys'
    ∧ (∀ snap to,
         queue_of snap to (world sys')
         = if decide (snap = isSnap req ∧ to = ToReplica req)
           then Some (nextCh (world sys))
           else queue_of snap to (world sys))
    ∧ sendBuf (world sys') = <[nextCh (world sys) := [req]]> (sendBuf (world sys))
    ∧ nextCh (world sys') = S (nextCh (world sys))
    ∧ workers sys'
      = match spawn with
        | None => workers sys ++ [{| wSender := s; wSnap := isSnap req;
                                     wCh := nextCh (world sys);
                                     wTo := ToReplica req;
                                     wPhase := PResolveEnter |}]
        | Some _ => workers sys
        end
    ∧ senders sys' = senders sys ++ [SReturned true]
    ∧ trace (world sys')
      = match spawn with
        | None => trace (world sys)
        | Some err =>
            trace (world sys) ++ [ObsOnError (onError s) (Some err) (ToReplica req)]
        end.
Proof.
  intros Hr Hq. unfold SendAsync. rewrite Hr.
  destruct (lookupQueue _ _ _) as [[w1 ch] ok] eqn:E.
  pose proof (lookupQueue_frame _ _ _ _ _ _ E) as (_ & _ & _ & _ & _ & _ & _ & Ht).
  apply lookupQueue_spec in E as [Hq1 Hok].
  destruct ok; [destruct Hok; congruence|].
  destruct Hok as (_ & -> & Hs & Hn).
  set (sys2 := startWorker s req (nextCh (world sys)) spawn (set_world w1 sys)).
  assert (Hs2 : sendBuf (world sys2) = <[nextCh (world sys) := []]> (sendBuf (world sys)))
    by (unfold sys2; by destruct spawn).
  unfold trySend. rewrite Hs2, lookup_insert_eq.
  rewrite decide_True by (unfold raftSendBufferSize; simpl; lia).
  eexists. split; [done|]. simpl.
  rewrite Hs2, insert_insert_eq.
  split.
  { intros snap to. rewrite <- Hq1. apply queue_of_ext.
    unfold sys2. by destruct spawn. }
  split; [done|].
  unfold sys2. destruct spawn; simpl; rewrite ?Ht; done.
Qed.

(** C2: the buffer of a queue holds at most 100 messages.  When the queue
    of a destination and class is full, [SendAsync] returns false and
    changes nothing (the call is a plain function of the state, it does
    not wait), and a [SendAsync] to any other destination or class, made
    after the rejected one, returns true if its queue is missing or has
    room. *)
Theorem SendAsync_full_queue backoff sys s req spawn ch buf :
  reachable backoff sys →
  rangeCheckFails req = false →
  queue_of (isSnap req) (ToReplica req) (world sys) = Some ch →
  sendBuf (world sys) !! ch = Some buf →
  length buf = raftSendBufferSize →
  raftSendBufferSize = 100
  ∧ (∀ c b, sendBuf (world sys) !! c = Some b → length b ≤ 100)
  ∧ SendAsync s req spawn sys
    = Return false (set_senders (λ ss, ss ++ [SReturned false]) sys)
  ∧ ∀ s' req' spawn',
      rangeCheckFails req' = false →
      isSnap req' ≠ isSnap req ∨ ToReplica req' ≠ ToReplica req →
      (∀ ch' buf',
         queue_of (isSnap req') (ToReplica req') (world sys) = Some ch' →
         sendBuf (world sys) !! ch' = Some buf' →
         length buf' < raftSendBufferSize) →
      ∃ sys',
        SendAsync s' req' spawn'
          (set_senders (λ ss, ss ++ [SReturned false]) sys)
        = Return true sys'.
Proof.
  intros Hreach Hr Hq Hb Hlen.
  pose proof (reachable_chan_ok _ _ Hreach) as [Hcq Hcb].
  assert (Hfull : trySend ch req (world sys) = (world sys, false)).
  { unfold trySend. rewrite Hb. rewrite decide_False by lia. done. }
  assert (Hid : set_world (world sys) sys = sys) by by destruct sys.
  split; [done|]. split; [exact Hcb|]. split.
  - rewrite (SendAsync_existing _ _ _ _ _ Hr Hq), Hfull. simpl. by rewrite Hid.
  - intros s' req' spawn' Hr' Hne Hroom.
    set (sys1 := set_senders (λ ss, ss ++ [SReturned false]) sys).
    destruct (queue_of (isSnap req') (ToReplica req') (world sys))
      as [ch'|] eqn:Hq'.
    + destruct (Hcq _ _ _ Hq') as [_ [buf' Hb']].
      specialize (Hroom _ _ eq_refl Hb').
      rewrite (SendAsync_existing s' req' spawn' sys1 ch' Hr' Hq').
      assert (Hsent : (trySend ch' req' (world sys1)).2 = true).
      { unfold trySend. simpl. rewrite Hb'. by rewrite decide_True. }
      rewrite Hsent. eauto.
    + destruct (SendAsync_new s' req' spawn' sys1 Hr' Hq') as (sys' & H & _).
      eauto.
Qed.

Lemma SendAsync_full_queue_witness :
  reachable time.Second full_sys
  ∧ SendAsync sender7 (mkReq raftpb.MsgApp 1 replicaB) None full_sys
    = Return false (set_senders (λ ss, ss ++ [SReturned false]) full_sys)
  ∧ ∃ sys',
      SendAsync sender7 (mkReq raftpb.MsgSnap 1 replicaB) None
        (set_senders (λ ss, ss ++ [SReturned false]) full_sys)
      = Return true sys'.
Proof.
  assert (Hreach : reachable time.Second full_sys)
    by (exists fill_run; vm_compute; reflexivity).
  assert (Hq : queue_of (isSnap (mkReq raftpb.MsgApp 1 replicaB))
                 (ToReplica (mkReq raftpb.MsgApp 1 replicaB)) (world full_sys)
               = Some 0)
    by (vm_compute; reflexivity).
  assert (Hb : sendBuf (world full_sys) !! 0
               = Some (replicate 100 (mkReq raftpb.MsgApp 1 replicaB)))
    by (vm_compute; reflexivity).
  assert (Hq' : queue_of (isSnap (mkReq raftpb.MsgSnap 1 replicaB))
                  (ToReplica (mkReq raftpb.MsgSnap 1 replicaB)) (world full_sys)
                = None)
    by (vm_compute; reflexivity).
  destruct (SendAsync_full_queue time.Second full_sys sender7
              (mkReq raftpb.MsgApp 1 replicaB) None 0
              (replicate 100 (mkReq raftpb.MsgApp 1 replicaB))
              Hreach eq_refl Hq Hb eq_refl)
    as (_ & _ & H1 & H2).
  split; [exact Hreach|]. split; [exact H1|].
  apply (H2 sender7 (mkReq raftpb.MsgSnap 1 replicaB) None eq_refl).
  - left. discriminate.
  - intros ch' buf' H. rewrite Hq' in H. discriminate H.
Defined.

(** C10: when [SendAsync] makes a new queue and the stopper refuses the
    task that would start its worker, [onError] is called with the
    stopper's error before [SendAsync] returns, no worker is started, the
    message is put in the new queue and [SendAsync] returns true; the
    entry of the queue stays in the registry for ever and no worker is
    ever in charge of it. *)
Theorem SendAsync_spawn_refused backoff sys s req err :
  reachable backoff sys →
  rangeCheckFails req = false →
  queue_of (isSnap req) (ToReplica req) (world sys) = None →
  ∃ sys',
    SendAsync s req (Some err) sys = Return true sys'
    ∧ trace (world sys')
      = trace (world sys) ++ [ObsOnError (onError s) (Some err) (ToReplica req)]
    ∧ workers sys' = workers sys
    ∧ sendBuf (world sys') !! nextCh (world sys) = Some [req]
    ∧ ∀ ls sys'',
        run sys' ls = Some sys'' →
        queue_of (isSnap req) (ToReplica req) (world sys'')
        = Some (nextCh (world sys))
        ∧ ∀ i wk, workers sys'' !! i = Some wk → live (wPhase wk) = true →
                  ¬ (wSnap wk = isSnap req ∧ wTo wk = ToReplica req).
Proof.
  intros Hreach Hr Hq.
  destruct (SendAsync_new s req (Some err) sys Hr Hq)
    as (sys' & HS & Hq' & Hb & _ & Hw & Hs & Ht).
  exists sys'. split; [done|]. split; [done|]. split; [done|].
  split; [by rewrite Hb, lookup_insert_eq|].
  assert (Ho : orphan (isSnap req) (ToReplica req) (nextCh (world sys)) sys').
  { split.
    - by rewrite Hq', decide_True.
    - intros c Hin. unfold holdersOf in Hin. rewrite Hw, Hs, omap_snoc in Hin.
      simpl in Hin. rewrite app_nil_r in Hin.
      apply reachable_registry_ok in Hreach as [_ Hreg].
      rewrite (Hreg _ _ _ Hin) in Hq. done. }
  intros ls sys'' Hrun.
  destruct (orphan_run _ _ _ _ _ _ Ho Hrun) as [Hq'' Hno].
  split; [done|].
  intros i wk Hi Hl [Hsn Hto].
  apply (Hno (wCh wk)). rewrite <- Hsn, <- Hto. by eapply live_worker_holds.
Qed.

Lemma SendAsync_spawn_refused_witness :
  ∃ sys',
    SendAsync sender7 (mkReq raftpb.MsgApp 1 replicaB)
      (Some (ErrExternal "node unavailable; try another peer"))
      (initial time.Second) = Return true sys'
    ∧ trace (world sys')
      = [ObsOnError 7 (Some (ErrExternal "node unavailable; try another peer"))
           replicaB]
    ∧ workers sys' = [].
Proof.
  destruct (SendAsync_spawn_refused time.Second (initial time.Second) sender7
              (mkReq raftpb.MsgApp 1 replicaB)
              (ErrExternal "node unavailable; try another peer")
              (ex_intro _ [] eq_refl) eq_refl eq_refl)
    as (sys' & H1 & H2 & H3 & _).
  exists sys'. split; [exact H1|]. split; [exact H2|exact H3].
Defined.

(** ** The end of a worker *)

Lemma fmap_insert_same {A B} (f : A → B) (l : list A) i x y :
  l !! i = Some x → f y = f x → f <$> <[i:=y]> l = f <$> l.
Proof.
  intros Hi Hf. rewrite list_fmap_insert, Hf.
  apply list_insert_id. by rewrite list_lookup_fmap, Hi.
Qed.


Lemma readers_ok_initial backoff : readers_ok (initial backoff).
Proof. unfold readers_ok. simpl. constructor. Qed.

Lemma readers_ok_step sys l sys' :
  threads_chan_ok sys → readers_ok sys →
  step sys l = Some sys' → readers_ok sys'.
Proof.
  intros [Hw Hs] Hnd Hstep. unfold readers_ok in *.
  destruct l; simpl in Hstep; simplify_eq/=; try done.
  - case_bool_decide; simplify_eq/=. done.
  - unfold sendBegin. destruct (rangeCheckFails req); simpl.
    { by rewrite omap_snoc, app_nil_r. }
    destruct (lookupQueue _ _ _) as [[w1 ch] ok] eqn:E.
    apply lookupQueue_spec in E as [_ Hok]. simpl. rewrite omap_snoc. simpl.
    destruct ok; [by rewrite app_nil_r|].
    destruct Hok as (_ & -> & _).
    rewrite app_assoc. apply NoDup_app. split; [done|]. split.
    + intros c Hin Hc. apply list_elem_of_singleton in Hc. subst c.
      apply elem_of_app in Hin as [Hin|Hin].
      * apply list_elem_of_fmap in Hin as (wk & Hc & Hin).
        apply list_elem_of_lookup in Hin as [i Hi].
        specialize (Hw _ _ Hi). lia.
      * apply list_elem_of_omap in Hin as (sc & Hin & Hc).
        apply list_elem_of_lookup in Hin as [j Hj].
        destruct sc as [s0 r c [|]| | |]; simplify_eq/=.
        specialize (Hs _ _ _ _ _ Hj). lia.
    + apply NoDup_singleton.
  - unfold sender_step in Hstep.
    destruct (senders sys !! j) as [[s req ch ok|req ch|?|]|] eqn:E;
      simplify_eq/=.
    + destruct ok; simpl.
      * by rewrite (omap_insert_same _ _ _ _ _ E).
      * pose proof (omap_insert_drop senderCh _ j _ (SSelect req ch) _ E
                      eq_refl eq_refl) as HP.
        rewrite HP in Hnd.
        destruct spawn as [err|]; simpl.
        -- rewrite <- Permutation_middle in Hnd.
           by apply NoDup_cons in Hnd as [_ ?].
        -- rewrite fmap_app. simpl. by rewrite <- app_assoc.
    + destruct (trySend _ _ _) as [w1 sent] eqn:E'. simplify_eq/=.
      by rewrite (omap_insert_same _ _ _ _ _ E).
  - destruct (workers sys !! i) as [wk|] eqn:Hi; simplify_eq/=.
    destruct (worker_step _ _ _ _) as [[w1 p]|] eqn:Hwk; simplify_eq/=.
    by rewrite (fmap_insert_same _ _ _ _ _ Hi).
  - destruct (inbound sys !! k) as [ib|]; simplify_eq/=.
    destruct (inbound_step _ _ _) as [[w1 ib1]|] eqn:E; simplify_eq/=.
    done.
Qed.

Lemma reachable_readers_ok backoff sys :
  reachable backoff sys → readers_ok sys.
Proof.
  apply reachable_induction; [apply readers_ok_initial|].
  intros s l s' Hr HI. apply readers_ok_step; [|done].
  by eapply reachable_threads_chan_ok.
Qed.















(** ** The main loop of processQueue *)

Lemma pending_afterResolve res : pending (afterResolve res) = None.
Proof. by destruct res. Qed.

Lemma pending_orReturn err p : pending p = None → pending (orReturn err p) = None.
Proof. by destruct err. Qed.

Lemma pending_afterSend w err : pending (afterSend w err) = None.
Proof. by destruct err. Qed.

(** What a step of worker [i] adds to the trace keeps to the protocol of
    [i], as long as the stop signal has not fired, and is no part of the
    protocol of another worker. *)
Lemma worker_step_protocol i w wk ev w' p :
  worker_step i w wk ev = Some (w', p) →
  stopped w = false →
  ∃ os, trace w' = trace w ++ os
        ∧ foldl (protoStep i) (Some (pending (wPhase wk))) os = Some (pending p)
        ∧ ∀ j st, j ≠ i → foldl (protoStep j) (Some st) os = Some st.
Proof.
  unfold worker_step. intros H Hstop.
  destruct (wPhase wk) eqn:Hp, ev; simplify_eq/=;
    repeat case_match; simplify_eq/=;
    try (exists []; rewrite app_nil_r,
           ?pending_afterResolve, ?pending_afterSend, ?pending_orReturn by done;
         by repeat split).
  all: eexists [_]; split; [done|]; simpl;
    rewrite ?pending_afterResolve, ?pending_afterSend.
  all: split; [|intros j st Hne; try done; by rewrite decide_False by done].
  all: try done.
  all: rewrite !decide_True by done; unfold isSnap; try done.
  all: match goal with H : bool_decide _ = _ |- _ => by rewrite H end.
Qed.

Lemma snapshots_ok_initial backoff : snapshots_ok (initial backoff).
Proof. intros i. done. Qed.

Lemma snapshots_ok_step sys l sys' :
  stopped (world sys') = false →
  snapshots_ok sys → step sys l = Some sys' → snapshots_ok sys'.
Proof.
  intros Hstop HI Hstep. unfold snapshots_ok, snapshotProtocol in *.
  destruct l; simpl in Hstep; simplify_eq/=; try done.
  - case_bool_decide; simplify_eq/=. done.
  - unfold sendBegin. destruct (rangeCheckFails req); simpl; [done|].
    destruct (lookupQueue _ _ _) as [[w1 ch] ok] eqn:E.
    apply lookupQueue_frame in E. simpl.
    destruct E as (_ & _ & _ & _ & _ & _ & _ & ->). done.
  - unfold sender_step in Hstep.
    destruct (senders sys !! j) as [[s req ch ok|req ch|?|]|] eqn:E;
      simplify_eq/=.
    + destruct ok; simpl; [done|].
      destruct spawn; simpl.
      * intros i. by rewrite foldl_app, HI.
      * intros i. rewrite HI. f_equal.
        destruct (decide (i < length (workers sys))) as [Hlt|Hge].
        -- by rewrite lookup_app_l.
        -- rewrite (lookup_ge_None_2 (workers sys)) by lia.
           destruct (decide (i = length (workers sys))) as [->|Hne].
           ++ by rewrite list_lookup_middle.
           ++ rewrite lookup_ge_None_2; [done|].
              rewrite length_app. simpl. lia.
    + destruct (trySend _ _ _) as [w1 sent] eqn:E'. simplify_eq/=.
      apply trySend_frame in E'.
      destruct E' as (_ & _ & _ & _ & _ & _ & _ & _ & _ & ->). done.
  - destruct (workers sys !! i) as [wk|] eqn:Hi; simplify_eq/=.
    destruct (worker_step _ _ _ _) as [[w1 p]|] eqn:Hwk; simplify_eq/=.
    pose proof (worker_step_frame _ _ _ _ _ _ Hwk) as (_ & _ & Hst & _).
    rewrite Hst in Hstop.
    destruct (worker_step_protocol _ _ _ _ _ _ Hwk Hstop)
      as (os & -> & Hown & Hother).
    intros j. rewrite foldl_app, HI.
    destruct (decide (j = i)) as [->|Hne].
    + rewrite Hi. simpl. rewrite Hown.
      rewrite list_lookup_insert_eq by (by eapply lookup_lt_Some). done.
    + rewrite list_lookup_insert_ne by done. by apply Hother.
  - destruct (inbound sys !! k) as [ib|]; simplify_eq/=.
    destruct (inbound_step _ _ _) as [[w1 ib1]|] eqn:E; simplify_eq/=.
    unfold inbound_step, lookupHandler, afterHandler in E.
    repeat case_match; simplify_eq/=; try done.
    all: intros i; by rewrite foldl_app, HI.
Qed.

Lemma reachable_snapshots_ok backoff sys :
  reachable backoff sys → stopped (world sys) = false → snapshots_ok sys.
Proof.
  apply (reachable_induction backoff
           (λ sys, stopped (world sys) = false → snapshots_ok sys)).
  - intros _. apply snapshots_ok_initial.
  - intros s l s' _ IH Hstep Hstop.
    eapply snapshots_ok_step; [done| |done].
    apply IH. pose proof (step_frame _ _ _ Hstep) as (_ & _ & Hmono & _).
    destruct (stopped (world s)); [|done]. by rewrite Hmono in Hstop.
Qed.

(** C5: as long as the stop signal has not fired, every worker keeps to
    the snapshot status protocol: the write of a snapshot message is
    followed, before any further write of the worker, by exactly one
    status, made of that message and of the error of its write (nil
    included), and no status is published otherwise, so none for another
    message.  A worker blocked on a status can do nothing but hand it
    over; it takes no message from its queue.  A message the worker takes
    from its queue is written at once and makes the worker publish iff it
    is a snapshot. *)
Theorem snapshot_status_protocol backoff sys :
  reachable backoff sys →
  stopped (world sys) = false →
  (∀ i, snapshotProtocol i (trace (world sys))
        = Some (pendingOf (workers sys !! i)))
  ∧ (∀ i wk req err,
       workers sys !! i = Some wk → wPhase wk = PPublish req err →
       (∀ ev, is_Some (worker_step i (world sys) wk ev) ↔ ev = EvStatus)
       ∧ worker_step i (world sys) wk EvStatus
         = Some (emit (ObsSnapshotStatus i {| Req := req; Err := err |})
                   (world sys),
                 afterSend (world sys) err))
  ∧ (∀ i wk d err req rest,
       workers sys !! i = Some wk → wPhase wk = PSelect d →
       sendBuf (world sys) !! wCh wk = Some (req :: rest) →
       worker_step i (world sys) wk (EvRecv err)
       = Some (emit (ObsSend i req err)
                 (set_sendBuf (insert (wCh wk) rest) (world sys)),
               if isSnap req then PPublish req err
               else afterSend (world sys) err)).
Proof.
  intros Hreach Hstop. split; [|split].
  - by apply (reachable_snapshots_ok backoff).
  - intros i wk req err Hi Hp. unfold worker_step. rewrite Hp, Hstop. split.
    + intros ev. split.
      * intros [x Hx]. by destruct ev.
      * intros ->. by eexists.
    + by destruct err.
  - intros i wk d err req rest Hi Hp Hb. unfold worker_step.
    rewrite Hp, Hb. unfold isSnap. case_bool_decide; [done|]. by destruct err.
Qed.

Lemma snapshot_status_protocol_witness :
  reachable time.Second snapshot_sys
  ∧ stopped (world snapshot_sys) = false
  ∧ workers snapshot_sys !! 0 = Some snapshot_worker
  ∧ snapshotProtocol 0 (trace (world snapshot_sys))
    = Some (Some {| Req := mkReq raftpb.MsgSnap 1 replicaB; Err := None |}).
Proof.
  assert (Hreach : reachable time.Second snapshot_sys)
    by (exists snapshot_run; vm_compute; reflexivity).
  assert (Hstop : stopped (world snapshot_sys) = false)
    by (vm_compute; reflexivity).
  assert (Hw : workers snapshot_sys !! 0 = Some snapshot_worker)
    by (vm_compute; reflexivity).
  destruct (snapshot_status_protocol time.Second snapshot_sys Hreach Hstop)
    as (H1 & _).
  specialize (H1 0). rewrite Hw in H1.
  split; [exact Hreach|]. split; [exact Hstop|]. split; [exact Hw|exact H1].
Defined.

(** The write of a snapshot fails and [processQueue] returns nil all the
    same: [onError] is called with nil. *)
Lemma failed_snapshot_write_returns_nil :
  ∃ sys wk,
    run (initial time.Second) snapshot_stop_run = Some sys
    ∧ workers sys !! 0 = Some wk
    ∧ wPhase wk = PCleanup
    ∧ trace (world sys)
      = [ ObsResolver 2 (inl "10.0.0.2:26257");
          ObsSend 0 (mkReq raftpb.MsgSnap 1 replicaB)
            (Some (ErrExternal "transport is closing"));
          ObsOnError 7 None replicaB ].
Proof.
  do 2 eexists. split; [vm_compute; reflexivity|].
  split; [reflexivity|]. split; reflexivity.
Qed.

(** C6, amended: in the main loop of [processQueue] the stop branch can
    be taken iff the stop signal has fired, in the select of the loop and
    in the select around the snapshot status alike, and the idle branch
    iff the idle timer, which every entry to the select of the loop sets
    to the current time plus one minute, has expired; both return nil.
    The loop returns a non-nil error exactly when the reader hands over a
    non-nil error, when the write of a message that is not a snapshot
    fails, or when the write of a snapshot failed and its status has been
    handed over; it returns nil exactly on the stop branch, on the idle
    branch, or when the reader hands over nil. *)
Theorem processQueue_main_loop_returns i w wk :
  inMainLoop (wPhase wk) = true →
  raftIdleTimeout = (60 * 1000000000)%Z
  ∧ (is_Some (worker_step i w wk EvShouldStop) ↔ stopped w = true)
  ∧ (stopped w = true → worker_step i w wk EvShouldStop = Some (w, PReturn None))
  ∧ (∀ d, wPhase wk = PSelect d →
       (is_Some (worker_step i w wk EvIdle) ↔ (d ≤ now w)%Z)
       ∧ ((d ≤ now w)%Z → worker_step i w wk EvIdle = Some (w, PReturn None)))
  ∧ (∀ ev w' d, worker_step i w wk ev = Some (w', PSelect d) →
       d = (now w' + raftIdleTimeout)%Z)
  ∧ (∀ ev w' e,
       worker_step i w wk ev = Some (w', PReturn (Some e)) ↔
       (∃ d, wPhase wk = PSelect d ∧ ev = EvErrCh (Some e) ∧ w' = w)
       ∨ (∃ d req rest,
            wPhase wk = PSelect d ∧ ev = EvRecv (Some e)
            ∧ sendBuf w !! wCh wk = Some (req :: rest)
            ∧ isSnap req = false
            ∧ w' = emit (ObsSend i req (Some e))
                     (set_sendBuf (insert (wCh wk) rest) w))
       ∨ (∃ req,
            wPhase wk = PPublish req (Some e) ∧ ev = EvStatus
            ∧ w' = emit (ObsSnapshotStatus i {| Req := req; Err := Some e |}) w))
  ∧ (∀ ev w',
       worker_step i w wk ev = Some (w', PReturn None) ↔
       (ev = EvShouldStop ∧ stopped w = true ∧ w' = w)
       ∨ (∃ d, wPhase wk = PSelect d ∧ ev = EvIdle ∧ (d ≤ now w)%Z ∧ w' = w)
       ∨ (∃ d, wPhase wk = PSelect d ∧ ev = EvErrCh None ∧ w' = w)).
Proof.
  intros Hloop. split; [done|].
  destruct (wPhase wk) as [| | | | | | |d|req err| | |] eqn:Hp; try done.
  - (* in the select of the loop *)
    unfold worker_step. rewrite Hp.
    split; [|split; [|split; [|split; [|split]]]].
    + destruct (stopped w); split; try done; by intros [? ?].
    + by intros ->.
    + intros d' ?; simplify_eq. split; [|by intros ?; rewrite bool_decide_eq_true_2].
      case_bool_decide; split; try done; by intros [? ?].
    + intros ev w' d' H. destruct ev; try done; repeat case_match; simplify_eq.
      unfold afterSend in *. repeat case_match; by simplify_eq/=.
    + intros ev w' e. split.
      * intros H. destruct ev; try done; repeat case_match; simplify_eq.
        -- left. eauto.
        -- unfold afterSend in *. repeat case_match; simplify_eq.
           right. left. do 3 eexists. repeat split; try done.
      * intros [(d' & ? & -> & ->)|[(d' & r & rest & ? & -> & Hb & Hs & ->)
                                   |(r & ? & _)]]; simplify_eq; [done|].
        rewrite Hb. unfold isSnap in Hs. by rewrite Hs.
    + intros ev w'. split.
      * intros H. destruct ev; try done; repeat case_match; simplify_eq.
        -- left. eauto.
        -- right. left. exists d. repeat split; try done.
           by eapply bool_decide_eq_true_1.
        -- right. right. eauto.
        -- unfold afterSend in *. repeat case_match; simplify_eq.
      * intros [(-> & Hs & ->)|[(d' & ? & -> & Hd & ->)|(d' & ? & -> & ->)]];
          simplify_eq.
        -- by rewrite Hs.
        -- by rewrite bool_decide_eq_true_2.
        -- done.
  - (* in the select around the snapshot status *)
    unfold worker_step. rewrite Hp.
    split; [|split; [|split; [|split; [|split]]]].
    + destruct (stopped w); split; try done; by intros [? ?].
    + by intros ->.
    + intros d' ?; simplify_eq.
    + intros ev w' d' H. destruct ev; try done; repeat case_match; simplify_eq.
      unfold afterSend in *. repeat case_match; by simplify_eq/=.
    + intros ev w' e. split.
      * intros H. destruct ev; try done; repeat case_match; simplify_eq.
        unfold afterSend in *. repeat case_match; simplify_eq.
        right. right. eauto.
      * intros [(d' & ? & _)|[(d' & r & rest & ? & _)|(r & ? & -> & ->)]];
          by simplify_eq.
    + intros ev w'. split.
      * intros H. destruct ev; try done; repeat case_match; simplify_eq.
        -- left. eauto.
        -- unfold afterSend in *. repeat case_match; simplify_eq.
      * intros [(-> & Hs & ->)|[(d' & ? & _)|(d' & ? & _)]]; simplify_eq.
        by rewrite Hs.
Qed.

Lemma processQueue_main_loop_returns_witness :
  inMainLoop (wPhase selecting_worker) = true
  ∧ ∀ w, stopped w = true →
         worker_step 0 w selecting_worker EvShouldStop = Some (w, PReturn None).
Proof.
  split; [reflexivity|]. intros w.
  exact (proj1 (proj2 (proj2
    (processQueue_main_loop_returns 0 w selecting_worker eq_refl)))).
Defined.

(** ** RaftMessage *)

(** The section of the receive loop under the mutex ends the loop
    exactly when the receive failed or when no handler is registered for
    the store of the destination; otherwise the loop holds the handler
    that is registered at that moment. *)
Lemma lookupHandler_done w r e :
  lookupHandler w r = LoopDone e ↔
  r = inl e
  ∨ (∃ req, r = inr req
            ∧ handlers w !! StoreID (ToReplica req) = None
            ∧ e = ErrNoStore (ToReplica req) (FromReplica req)).
Proof.
  unfold lookupHandler. split.
  - destruct r as [e'|req].
    + intros ?; simplify_eq. by left.
    + destruct (handlers w !! StoreID (ToReplica req)) as [h|] eqn:Eh;
        intros ?; simplify_eq. right. eauto.
  - intros [->|(req & -> & Hh & ->)]; [done|]. by rewrite Hh.
Qed.

Lemma lookupHandler_handling w r handler req :
  lookupHandler w r = LoopHandling handler req ↔
  r = inr req ∧ handlers w !! StoreID (ToReplica req) = Some handler.
Proof.
  unfold lookupHandler. split.
  - destruct r as [e'|req']; [done|].
    destruct (handlers w !! StoreID (ToReplica req')) as [h|] eqn:Eh;
      intros ?; by simplify_eq.
  - intros [-> Hh]. by rewrite Hh.
Qed.

(** [RaftMessage] returns the stopper's error although nothing was
    received and no handler was looked up or called; and on the quiesce
    branch it returns the error of SendAndClose. *)
Lemma error_without_dispatch_and_failed_close :
  (∃ sys,
     run (initial time.Second) refused_stream_run = Some sys
     ∧ inbound sys
       = [{| inLoop := LoopNotStarted;
             inRpc := RpcReturned
                        (RpcError (ErrExternal "node unavailable; try another peer")) |}]
     ∧ trace (world sys) = [])
  ∧ (∃ sys,
       run (initial time.Second) failed_close_run = Some sys
       ∧ inbound sys
         = [{| inLoop := LoopRunning;
               inRpc := RpcReturned
                          (RpcClosed (Some (ErrExternal "transport is closing"))) |}]).
Proof.
  split.
  - eexists. split; [vm_compute; reflexivity|]. split; reflexivity.
  - eexists. split; [vm_compute; reflexivity|]. reflexivity.
Qed.

(** C8, amended: while [RaftMessage] has not returned, the receive loop
    of its worker ends, with an error, exactly when a receive fails, when
    no handler is registered for the StoreID of the destination of the
    message received, or when the handler called returns an error.  The
    handler called is the one that was registered for that StoreID when
    the loop read it under the mutex, and it is called with the message
    received.  [RaftMessage] returns an error as such in two cases only:
    the stopper refused the task of the worker, and the error is the
    stopper's, or the loop has ended and its error is taken from errCh.
    When the
    quiesce branch is taken, which the quiesce signal alone allows, an
    empty response is sent with SendAndClose and [RaftMessage] returns
    what SendAndClose returns; the error of the loop, if any, is not
    returned. *)
Theorem RaftMessage_returns w ib ev w' ib' :
  (∀ res, inRpc ib ≠ RpcReturned res) →
  inbound_step w ib ev = Some (w', ib') →
  (∀ e, inLoop ib = LoopRunning →
        inLoop ib' = LoopDone e ↔
        ∃ r, ev = InRecv r
             ∧ (r = inl e
                ∨ (∃ req, r = inr req
                          ∧ handlers w !! StoreID (ToReplica req) = None
                          ∧ e = ErrNoStore (ToReplica req) (FromReplica req))))
  ∧ (∀ handler req, inLoop ib = LoopRunning →
        inLoop ib' = LoopHandling handler req ↔
        ev = InRecv (inr req)
        ∧ handlers w !! StoreID (ToReplica req) = Some handler)
  ∧ (∀ handler req e, inLoop ib = LoopHandling handler req →
        inLoop ib' = LoopDone e ↔ ev = InHandle (Some e))
  ∧ (∀ handler req hres, inLoop ib = LoopHandling handler req →
        ev = InHandle hres →
        w' = emit (ObsHandler handler req hres) w
        ∧ trace w' = trace w ++ [ObsHandler handler req hres])
  ∧ (∀ e, inRpc ib' = RpcReturned (RpcError e) ↔
          (inRpc ib = RpcStart ∧ ev = InRunTask (Some e))
          ∨ (inRpc ib = RpcSelect ∧ inLoop ib = LoopDone e ∧ ev = InErrCh))
  ∧ (∀ r, inRpc ib' = RpcReturned (RpcClosed r) ↔
          inRpc ib = RpcSelect ∧ ev = InQuiesce r ∧ quiesced w = true).
Proof.
  intros Hnot Hstep. unfold inbound_step in Hstep.
  split; [|split; [|split; [|split; [|split]]]].
  - intros e Hrun. rewrite Hrun in Hstep. split.
    + intros Hdone. destruct ev as [err|r|hres| |err];
        repeat case_match; simplify_eq/=; try congruence.
      exists r. split; [done|]. by apply lookupHandler_done.
    + intros (r & -> & Hcase). apply lookupHandler_done in Hcase.
      by simplify_eq/=.
  - intros handler req Hrun. rewrite Hrun in Hstep. split.
    + intros Hh. destruct ev as [err|r|hres| |err];
        repeat case_match; simplify_eq/=; try congruence.
      apply lookupHandler_handling in Hh as [-> Hh]. done.
    + intros [-> Hh]. simplify_eq/=. by rewrite Hh.
  - intros handler req e Hh. rewrite Hh in Hstep. split.
    + intros Hdone. destruct ev as [err|r|hres| |err];
        repeat case_match; simplify_eq/=; try congruence.
      destruct hres; by simplify_eq/=.
    + intros ->. by simplify_eq/=.
  - intros handler req hres Hh ->. rewrite Hh in Hstep. by simplify_eq/=.
  - intros e. split.
    + intros Hret. destruct ev as [err|r|hres| |err];
        repeat case_match; simplify_eq/=; eauto;
        by destruct (Hnot (RpcError e)).
    + intros [[Hs ->]|(Hs & Hl & ->)]; rewrite Hs in Hstep;
        [|rewrite Hl in Hstep]; by simplify_eq/=.
  - intros r. split.
    + intros Hret. destruct ev as [err|r0|hres| |err];
        repeat case_match; simplify_eq/=; eauto;
        by destruct (Hnot (RpcClosed r)).
    + intros (Hs & -> & Hq). rewrite Hs, Hq in Hstep. by simplify_eq/=.
Qed.

Lemma RaftMessage_returns_witness :
  (∀ res, inRpc serving_stream ≠ RpcReturned res)
  ∧ inbound_step (set_quiesced true NewRaftTransport) serving_stream
      (InQuiesce None)
    = Some (set_quiesced true NewRaftTransport,
            {| inLoop := LoopRunning; inRpc := RpcReturned (RpcClosed None) |})
  ∧ ∀ e, RpcReturned (RpcClosed None) = RpcReturned (RpcError e) ↔
         (inRpc serving_stream = RpcStart ∧ InQuiesce None = InRunTask (Some e))
         ∨ (inRpc serving_stream = RpcSelect
            ∧ inLoop serving_stream = LoopDone e
            ∧ InQuiesce None = InErrCh).
Proof.
  assert (H0 : ∀ res, inRpc serving_stream ≠ RpcReturned res)
    by (intros res; discriminate).
  split; [exact H0|]. split; [reflexivity|].
  destruct (RaftMessage_returns (set_quiesced true NewRaftTransport)
              serving_stream (InQuiesce None)
              (set_quiesced true NewRaftTransport)
              {| inLoop := LoopRunning; inRpc := RpcReturned (RpcClosed None) |}
              H0 eq_refl) as (_ & _ & _ & _ & He & _).
  exact He.
Defined.

(** * Further properties *)

(** ** The registry and its channels *)

(** What a step does to the registry: nothing; or it adds, for a
    destination and class that had no queue, the channel allocated last;
    or it deletes the entry of one destination and class. *)
Lemma step_registry sys l sys' :
  step sys l = Some sys' →
  (∀ snap to, queue_of snap to (world sys') = queue_of snap to (world sys))
  ∨ (∃ snap to,
       queue_of snap to (world sys) = None
       ∧ ∀ snap' to', queue_of snap' to' (world sys')
           = if decide (snap' = snap ∧ to' = to) then Some (nextCh (world sys))
             else queue_of snap' to' (world sys))
  ∨ (∃ snap to,
       ∀ snap' to', queue_of snap' to' (world sys')
         = if decide (snap' = snap ∧ to' = to) then None
           else queue_of snap' to' (world sys)).
Proof.
  intros Hstep.
  destruct l; simpl in Hstep; simplify_eq/=; try (by left).
  - case_bool_decide; simplify_eq/=. by left.
  - unfold sendBegin. destruct (rangeCheckFails req); simpl; [by left|].
    destruct (lookupQueue _ _ _) as [[w1 ch] ok] eqn:E.
    apply lookupQueue_spec in E as [Hq Hok]. simpl.
    destruct ok.
    + left. intros snap to. rewrite Hq.
      case_decide as Hd; [|done]. destruct Hd as [-> ->]. by destruct Hok.
    + right. left. exists (isSnap req), (ToReplica req).
      destruct Hok as (Hnone & -> & _). done.
  - unfold sender_step in Hstep.
    destruct (senders sys !! j) as [[s req ch ok|req ch|?|]|] eqn:E;
      simplify_eq/=.
    + left. destruct ok; simpl; [done|]. by destruct spawn.
    + destruct (trySend _ _ _) as [w1 sent] eqn:E'. simplify_eq/=.
      apply trySend_frame in E' as (_ & Hq & _).
      left. intros. by apply queue_of_ext.
  - destruct (workers sys !! i) as [wk|] eqn:Hi; simplify_eq/=.
    destruct (worker_step _ _ _ _) as [[w1 p]|] eqn:Hw; simplify_eq/=.
    apply worker_step_registry in Hw as [_ [[Hq _]|[_ Hq]]].
    + left. intros. by apply queue_of_ext.
    + right. right. exists (wSnap wk), (wTo wk).
      intros snap' to'. rewrite <- queue_of_delete. by apply queue_of_ext.
  - destruct (inbound sys !! k) as [ib|]; simplify_eq/=.
    destruct (inbound_step _ _ _) as [[w1 ib1]|] eqn:E; simplify_eq/=.
    apply inbound_step_frame in E as (_ & Hq & _).
    left. intros. by apply queue_of_ext.
Qed.

Lemma registry_inj_step sys l sys' :
  chan_ok (world sys) → registry_inj (world sys) →
  step sys l = Some sys' → registry_inj (world sys').
Proof.
  intros [Hlt _] Hinj Hstep. unfold registry_inj.
  destruct (step_registry _ _ _ Hstep)
    as [Hsame|[(snap & to & Hnone & Hnew)|(snap & to & Hdel)]].
  - intros s1 t1 s2 t2 ch. rewrite !Hsame. apply Hinj.
  - intros s1 t1 s2 t2 ch. rewrite !Hnew.
    repeat case_decide; intros H1 H2; simplify_eq.
    + match goal with
      | Ha : _ ∧ _, Hb : _ ∧ _ |- _ =>
          destruct Ha as [-> ->], Hb as [-> ->]; done
      end.
    + apply Hlt in H2 as [? _]. lia.
    + apply Hlt in H1 as [? _]. lia.
    + by eapply Hinj.
  - intros s1 t1 s2 t2 ch. rewrite !Hdel.
    repeat case_decide; intros H1 H2; simplify_eq. by eapply Hinj.
Qed.

Lemma reachable_registry_inj backoff sys :
  reachable backoff sys → registry_inj (world sys).
Proof.
  apply (reachable_induction backoff (λ sys, registry_inj (world sys))).
  - intros s1 t1 s2 t2 ch. unfold queue_of. simpl. by rewrite lookup_empty.
  - intros s l s' Hr. apply registry_inj_step. by eapply reachable_chan_ok.
Qed.

(** X1: in every reachable state at most one live worker serves a given
    destination and class. *)
Theorem single_worker_per_queue backoff sys :
  reachable backoff sys →
  ∀ i j wk wk',
    workers sys !! i = Some wk → workers sys !! j = Some wk' →
    live (wPhase wk) = true → live (wPhase wk') = true →
    wSnap wk = wSnap wk' → wTo wk = wTo wk' → i = j.
Proof. intros Hreach i j wk wk'. by apply one_live_worker_per_queue with backoff. Qed.

Lemma single_worker_per_queue_witness :
  reachable time.Second two_resolvers_sys
  ∧ ∀ i j wk wk',
      workers two_resolvers_sys !! i = Some wk →
      workers two_resolvers_sys !! j = Some wk' →
      live (wPhase wk) = true → live (wPhase wk') = true →
      wSnap wk = wSnap wk' → wTo wk = wTo wk' → i = j.
Proof.
  assert (Hreach : reachable time.Second two_resolvers_sys)
    by (exists two_resolvers_run; vm_compute; reflexivity).
  split; [exact Hreach|].
  exact (single_worker_per_queue time.Second two_resolvers_sys Hreach).
Defined.

(** X2: in every reachable state the queues of two different
    destinations or classes are different channels; so the snapshot queue
    and the queue of the other traffic of one destination never are the
    same channel. *)
Theorem queues_are_separate backoff sys :
  reachable backoff sys →
  (∀ snap1 to1 snap2 to2 ch,
     queue_of snap1 to1 (world sys) = Some ch →
     queue_of snap2 to2 (world sys) = Some ch →
     snap1 = snap2 ∧ to1 = to2)
  ∧ (∀ to ch1 ch2,
       queue_of true to (world sys) = Some ch1 →
       queue_of false to (world sys) = Some ch2 → ch1 ≠ ch2).
Proof.
  intros Hreach. pose proof (reachable_registry_inj _ _ Hreach) as Hinj.
  split; [exact Hinj|].
  intros to ch1 ch2 H1 H2 ->. by destruct (Hinj _ _ _ _ _ H1 H2).
Qed.

Lemma queues_are_separate_witness :
  reachable time.Second both_classes_sys
  ∧ queue_of true replicaB (world both_classes_sys) = Some 1
  ∧ queue_of false replicaB (world both_classes_sys) = Some 0
  ∧ 1 ≠ 0.
Proof.
  assert (Hreach : reachable time.Second both_classes_sys)
    by (exists both_classes_run; vm_compute; reflexivity).
  assert (H1 : queue_of true replicaB (world both_classes_sys) = Some 1)
    by (vm_compute; reflexivity).
  assert (H0 : queue_of false replicaB (world both_classes_sys) = Some 0)
    by (vm_compute; reflexivity).
  split; [exact Hreach|]. split; [exact H1|]. split; [exact H0|].
  exact (proj2 (queues_are_separate time.Second both_classes_sys Hreach)
           replicaB 1 0 H1 H0).
Defined.

(** X3: a call of [SendAsync] touches the queue of its own destination
    and class only: whatever it returns, every other queue of the
    registry keeps its channel and the messages in it, and the workers
    there were are as they were. *)
Theorem SendAsync_leaves_other_queues backoff sys s req spawn sent sys' :
  reachable backoff sys →
  SendAsync s req spawn sys = Return sent sys' →
  (∀ snap to ch,
     ¬ (snap = isSnap req ∧ to = ToReplica req) →
     queue_of snap to (world sys) = Some ch →
     queue_of snap to (world sys') = Some ch
     ∧ sendBuf (world sys') !! ch = sendBuf (world sys) !! ch)
  ∧ (∀ i wk, workers sys !! i = Some wk → workers sys' !! i = Some wk).
Proof.
  intros Hreach HS.
  pose proof (reachable_chan_ok _ _ Hreach) as [Hlt _].
  pose proof (reachable_registry_inj _ _ Hreach) as Hinj.
  assert (Hr : rangeCheckFails req = false).
  { destruct (rangeCheckFails req) eqn:E; [|done].
    apply SendAsync_Panic_iff with (s := s) (spawn := spawn) (sys := sys) in E.
    congruence. }
  destruct (queue_of (isSnap req) (ToReplica req) (world sys)) as [ch0|] eqn:Hq.
  - rewrite (SendAsync_existing _ _ _ _ _ Hr Hq) in HS. simplify_eq.
    split; [|done].
    intros snap to ch Hne Hc. cbn [world set_senders set_world].
    pose proof (trySend_frame ch0 req (world sys)) as Hf.
    destruct (trySend ch0 req (world sys)) as [w3 b] eqn:E3. simpl.
    destruct (Hf _ _ eq_refl) as (_ & Hqs & _).
    split; [by rewrite (queue_of_ext _ (world sys))|].
    unfold trySend in E3.
    destruct (sendBuf (world sys) !! ch0) as [buf|] eqn:Eb; [|by simplify_eq].
    case_decide; simplify_eq/=; [|done].
    apply lookup_insert_ne. intros ->.
    destruct Hne. by destruct (Hinj _ _ _ _ _ Hc Hq).
  - destruct (SendAsync_new s req spawn sys Hr Hq)
      as (sys2 & HS2 & Hq2 & Hb2 & _ & Hw2 & _).
    rewrite HS2 in HS. simplify_eq. split.
    + intros snap to ch Hne Hc. rewrite Hq2, decide_False by done.
      split; [done|]. rewrite Hb2. apply lookup_insert_ne.
      apply Hlt in Hc as [? _]. lia.
    + intros i wk Hi. rewrite Hw2. destruct spawn; [done|].
      by apply lookup_app_l_Some.
Qed.

Lemma SendAsync_leaves_other_queues_witness :
  reachable time.Second full_sys
  ∧ ∃ sys',
      SendAsync sender7 (mkReq raftpb.MsgSnap 1 replicaB) None full_sys
      = Return true sys'
      ∧ queue_of false replicaB (world sys') = Some 0
      ∧ sendBuf (world sys') !! 0 = sendBuf (world full_sys) !! 0.
Proof.
  assert (Hreach : reachable time.Second full_sys)
    by (exists fill_run; vm_compute; reflexivity).
  assert (Hq : queue_of (isSnap (mkReq raftpb.MsgSnap 1 replicaB))
                 (ToReplica (mkReq raftpb.MsgSnap 1 replicaB)) (world full_sys)
               = None)
    by (vm_compute; reflexivity).
  assert (Hq0 : queue_of false replicaB (world full_sys) = Some 0)
    by (vm_compute; reflexivity).
  destruct (SendAsync_new sender7 (mkReq raftpb.MsgSnap 1 replicaB) None
              full_sys eq_refl Hq) as (sys' & HS & _).
  split; [exact Hreach|]. exists sys'. split; [exact HS|].
  refine (proj1 (SendAsync_leaves_other_queues time.Second full_sys sender7
                   (mkReq raftpb.MsgSnap 1 replicaB) None true sys' Hreach HS)
            false replicaB 0 _ Hq0).
  intros [Hc _]. discriminate Hc.
Defined.

(** ** More on resolveNodeID *)

Lemma ledger_owned_step sys l sys' :
  ledger_owned sys → step sys l = Some sys' → ledger_owned sys'.
Proof.
  intros HI Hstep. unfold ledger_owned.
  destruct (label_worker_cases l) as [(i & ev & ->)|Hl].
  - apply step_worker_inv in Hstep as (wk & w1 & p & Hi & Hw & ->). simpl.
    assert (Hlen : i < length (workers sys)) by by eapply lookup_lt_Some.
    apply worker_step_ledger in Hw.
    destruct Hw as [[Hm Hh]|[(Hh & Hnone & c & Hm & Hp)|(Hh & Hm & Hp)]];
      rewrite Hm; intros n ch Hn.
    + destruct (HI _ _ Hn) as (j & wkj & Hj & Hnj & Hlj).
      destruct (decide (j = i)) as [->|Hne].
      * simplify_eq. exists i, (set_wPhase p wk).
        rewrite list_lookup_insert_eq by done. simpl. by rewrite Hh.
      * exists j, wkj. by rewrite list_lookup_insert_ne.
    + apply lookup_insert_Some in Hn as [[<- <-]|[Hne Hn]].
      * exists i, (set_wPhase p wk).
        by rewrite list_lookup_insert_eq by done.
      * destruct (HI _ _ Hn) as (j & wkj & Hj & Hnj & Hlj).
        exists j, wkj. rewrite list_lookup_insert_ne; [done|].
        intros ->. simplify_eq; congruence.
    + apply lookup_delete_Some in Hn as [Hne Hn].
      destruct (HI _ _ Hn) as (j & wkj & Hj & Hnj & Hlj).
      exists j, wkj. rewrite list_lookup_insert_ne; [done|].
      intros ->. by simplify_eq.
  - apply step_other_ledger in Hstep as [Hm Hws]; [|done].
    rewrite Hm. intros n ch Hn.
    destruct (HI _ _ Hn) as (j & wkj & Hj & Hnj & Hlj).
    exists j, wkj. split; [|done].
    destruct Hws as [->|(wk & -> & _)]; [done|]. by apply lookup_app_l_Some.
Qed.

Lemma reachable_ledger_owned backoff sys :
  reachable backoff sys → ledger_owned sys.
Proof.
  apply reachable_induction; [|eauto using ledger_owned_step].
  intros n ch. simpl. by rewrite lookup_empty.
Qed.

(** X5: the ledger holds an entry for a node exactly while a worker is
    responsible for the resolution of that node (it is in the retry loop
    or about to run the deferred delete), and the entry is the channel of
    that worker: no entry is left behind by a resolution that is over. *)
Theorem ledger_entry_iff_resolving backoff sys :
  reachable backoff sys →
  ∀ n ch,
    addrLookups (world sys) !! n = Some ch ↔
    ∃ i wk, workers sys !! i = Some wk ∧ NodeID (wTo wk) = n
            ∧ ledgerHold (wPhase wk) = Some ch.
Proof.
  intros Hreach n ch. split.
  - by apply (reachable_ledger_owned backoff).
  - intros (i & wk & Hi & <- & Hh).
    apply reachable_ledger_ok in Hreach as [H1 _]. by eapply H1.
Qed.

Lemma ledger_entry_iff_resolving_witness :
  reachable time.Second retrying_sys
  ∧ ∃ i wk, workers retrying_sys !! i = Some wk ∧ NodeID (wTo wk) = 2%Z
            ∧ ledgerHold (wPhase wk) = Some 1.
Proof.
  assert (Hreach : reachable time.Second retrying_sys)
    by (exists retrying_run; vm_compute; reflexivity).
  assert (Hm : addrLookups (world retrying_sys) !! 2%Z = Some 1)
    by (vm_compute; reflexivity).
  split; [exact Hreach|].
  exact (proj1 (ledger_entry_iff_resolving time.Second retrying_sys Hreach 2%Z 1)
           Hm).
Defined.

Lemma worker_step_closed i w wk ev w' p ch :
  worker_step i w wk ev = Some (w', p) →
  ch ∈ closedCh w → ch ∈ closedCh w'.
Proof.
  unfold worker_step. intros H Hc.
  destruct (wPhase wk) eqn:Hp, ev; simplify_eq/=;
    repeat case_match; simplify_eq/=; try done.
  apply elem_of_union. by right.
Qed.

Lemma step_closed sys l sys' ch :
  step sys l = Some sys' →
  ch ∈ closedCh (world sys) → ch ∈ closedCh (world sys').
Proof.
  intros Hstep Hc.
  destruct (decide (ch ∈ closedCh (world sys'))) as [|Hn]; [done|].
  destruct l; simpl in Hstep; simplify_eq/=; try done.
  - case_bool_decide; simplify_eq/=; done.
  - destruct Hn. unfold sendBegin.
    destruct (rangeCheckFails req); simpl; [done|].
    destruct (lookupQueue _ _ _) as [[w1 c] ok] eqn:E.
    apply lookupQueue_frame in E. simpl.
    destruct E as (_ & _ & E & _). by rewrite E.
  - destruct Hn. unfold sender_step in Hstep.
    destruct (senders sys !! j) as [[s req c ok|req c|?|]|] eqn:E;
      simplify_eq/=.
    + destruct ok; simpl; [done|]. by destruct spawn.
    + destruct (trySend _ _ _) as [w1 sent] eqn:E'. simplify_eq/=.
      apply trySend_frame in E'.
      destruct E' as (_ & _ & _ & _ & E' & _). by rewrite E'.
  - destruct (workers sys !! i) as [wk|] eqn:Hi; simplify_eq/=.
    destruct (worker_step _ _ _ _) as [[w1 p]|] eqn:Hw; simplify_eq/=.
    destruct Hn. by eapply worker_step_closed.
  - destruct (inbound sys !! k) as [ib|]; simplify_eq/=.
    destruct (inbound_step _ _ _) as [[w1 ib1]|] eqn:E; simplify_eq/=.
    apply inbound_step_frame in E.
    destruct E as (_ & _ & _ & _ & _ & E & _). destruct Hn. by rewrite E.
Qed.

(** How a worker comes to wait, and how it leaves the retry loop. *)
Lemma worker_step_to_wait i w wk ev w' ch :
  worker_step i w wk ev = Some (w', PResolveWait ch) →
  wPhase wk = PResolveEnter
  ∧ addrLookups w !! NodeID (wTo wk) = Some ch ∧ w' = w.
Proof.
  unfold worker_step. intros H.
  destruct (wPhase wk) eqn:Hp, ev; simplify_eq/=;
    repeat case_match; simplify_eq/=; try done;
    match goal with
    | H : afterResolve ?r = _ |- _ => by destruct r
    | H : orReturn ?e _ = _ |- _ => by destruct e
    | H : afterSend _ ?e = _ |- _ => by destruct e
    end.
Qed.

Lemma worker_step_to_defer i w wk ev w' ch res :
  worker_step i w wk ev = Some (w', PResolveDefer ch res) →
  ∃ r wake,
    wPhase wk = PResolveRetry ch r wake
    ∧ match res with
      | inl _ => ch ∈ closedCh w'
      | inr _ => fired (retry.Closer (retry.opts r)) w = true
      end.
Proof.
  unfold worker_step. intros H.
  destruct (wPhase wk) eqn:Hp, ev; simplify_eq/=;
    repeat case_match; simplify_eq/=;
    try match goal with
    | H : afterResolve ?r = _ |- _ => by destruct r
    | H : orReturn ?e _ = _ |- _ => by destruct e
    | H : afterSend _ ?e = _ |- _ => by destruct e
    end.
  - do 2 eexists. split; [done|]. simpl. apply elem_of_union. left.
    by apply elem_of_singleton.
  - do 2 eexists. split; [done|]. done.
Qed.

Lemma worker_step_from_retry i w wk ev w' p ch r wake :
  wPhase wk = PResolveRetry ch r wake →
  worker_step i w wk ev = Some (w', p) →
  (∃ r' wake', p = PResolveRetry ch r' wake') ∨ (∃ res, p = PResolveDefer ch res).
Proof.
  unfold worker_step. intros Hp H. rewrite Hp in H.
  destruct ev; simplify_eq/=; repeat case_match; simplify_eq/=; eauto.
Qed.

Lemma defer_ok_step backoff sys l sys' :
  reachable backoff sys → defer_ok sys →
  step sys l = Some sys' → defer_ok sys'.
Proof.
  intros Hreach HD Hstep.
  pose proof (reachable_retry_ok _ _ Hreach) as [_ HR].
  pose proof (step_frame _ _ _ Hstep) as (_ & Hq & _).
  assert (Hold : ∀ i wk ch res,
            workers sys !! i = Some wk → wPhase wk = PResolveDefer ch res →
            match res with
            | inl _ => ch ∈ closedCh (world sys')
            | inr _ => quiesced (world sys') = true
            end).
  { intros i wk ch res Hi Hp. specialize (HD _ _ _ _ Hi Hp).
    destruct res; [by eapply step_closed|auto]. }
  destruct (label_worker_cases l) as [(i & ev & ->)|Hl].
  - pose proof Hstep as Hstep'.
    apply step_worker_inv in Hstep' as (wk & w1 & p & Hi & Hw & Heq).
    intros j wkj ch res Hj Hp. rewrite Heq in Hj. simpl in Hj.
    apply (lookup_stepped_worker _ _ _ _ _ _ Hi) in Hj as [[-> ->]|[? Hj]];
      [|by eapply Hold].
    simpl in Hp. subst p.
    pose proof (worker_step_frame _ _ _ _ _ _ Hw) as (_ & Hqs & _).
    apply worker_step_to_defer in Hw as (r & wake & Hp & Hres).
    rewrite Heq. simpl. destruct res; [done|].
    destruct (HR _ _ _ _ _ Hi Hp) as [k ->].
    rewrite retry_iter_opts in Hres. simpl in Hres. by rewrite Hqs.
  - pose proof Hstep as Hstep'.
    apply step_other_ledger in Hstep' as [_ Hws]; [|done].
    intros j wkj ch res Hj Hp.
    destruct Hws as [Hws|(wk & Hws & Hwk)]; rewrite Hws in Hj;
      [by eapply Hold|].
    apply lookup_snoc_Some in Hj as [[_ Hj]|[_ <-]]; [by eapply Hold|].
    congruence.
Qed.

Lemma reachable_defer_ok backoff sys : reachable backoff sys → defer_ok sys.
Proof.
  apply reachable_induction; [|eauto using defer_ok_step].
  intros i wk ch res. simpl. by rewrite lookup_nil.
Qed.

Lemma waiters_ok_step backoff sys l sys' :
  reachable backoff sys → waiters_ok sys →
  step sys l = Some sys' → waiters_ok sys'.
Proof.
  intros Hreach HW Hstep.
  pose proof (reachable_ledger_owned _ _ Hreach) as HO.
  pose proof (reachable_defer_ok _ _ Hreach) as HD.
  pose proof (reachable_defer_ok _ _ (reachable_step _ _ _ _ Hreach Hstep)) as HD'.
  pose proof (step_frame _ _ _ Hstep) as (_ & Hq & _).
  destruct (label_worker_cases l) as [(i & ev & ->)|Hl].
  - pose proof Hstep as Hstep'.
    apply step_worker_inv in Hstep' as (wk & w1 & p & Hi & Hw & Heq).
    assert (Hlen : i < length (workers sys)) by by eapply lookup_lt_Some.
    assert (Hnew : workers sys' !! i = Some (set_wPhase p wk))
      by (rewrite Heq; simpl; by rewrite list_lookup_insert_eq).
    assert (Hoth : ∀ j, j ≠ i → workers sys' !! j = workers sys !! j)
      by (intros j Hne; rewrite Heq; simpl; by rewrite list_lookup_insert_ne).
    (* what becomes of a worker of the old state that stood for a waiter *)
    assert (Hcase : ∀ ch,
              (ch ∈ closedCh (world sys)
               ∨ quiesced (world sys) = true
               ∨ ∃ j wkj r wake, workers sys !! j = Some wkj
                                 ∧ wPhase wkj = PResolveRetry ch r wake) →
              ch ∈ closedCh (world sys')
              ∨ quiesced (world sys') = true
              ∨ ∃ j wkj r wake, workers sys' !! j = Some wkj
                                ∧ wPhase wkj = PResolveRetry ch r wake).
    { intros ch [Hc|[Hqu|(j & wkj & r & wake & Hj & Hp)]].
      - left. by eapply step_closed.
      - right. left. auto.
      - destruct (decide (j = i)) as [->|Hne].
        + simplify_eq.
          destruct (worker_step_from_retry _ _ _ _ _ _ _ _ _ Hp Hw)
            as [(r' & wake' & ->)|(res & ->)].
          * right. right. exists i, (set_wPhase (PResolveRetry ch r' wake') wk).
            eauto 10.
          * specialize (HD' _ _ _ _ Hnew eq_refl).
            destruct res; [by left|by right; left].
        + right. right. exists j, wkj, r, wake. by rewrite Hoth. }
    intros a wka ch Ha Hp.
    destruct (decide (a = i)) as [->|Hne].
    + rewrite Hnew in Ha. simplify_eq. simpl in Hp. subst p.
      apply worker_step_to_wait in Hw as (Hpe & Hentry & ->).
      apply Hcase.
      destruct (HO _ _ Hentry) as (j & wkj & Hj & _ & Hh).
      destruct (wPhase wkj) eqn:Hpj; simplify_eq/=.
      * right. right. eauto 10.
      * specialize (HD _ _ _ _ Hj Hpj). destruct res; [by left|by right; left].
    + rewrite Hoth in Ha by done. apply Hcase. by eapply HW.
  - pose proof Hstep as Hstep'.
    apply step_other_ledger in Hstep' as [_ Hws]; [|done].
    assert (Hpre : ∀ j wkj, workers sys !! j = Some wkj →
                     workers sys' !! j = Some wkj).
    { intros j wkj Hj. destruct Hws as [->|(wk & -> & _)]; [done|].
      by apply lookup_app_l_Some. }
    intros a wka ch Ha Hp.
    assert (Ha' : workers sys !! a = Some wka).
    { destruct Hws as [Hws|(wk & Hws & Hwk)]; rewrite Hws in Ha; [done|].
      apply lookup_snoc_Some in Ha as [[_ Ha]|[_ <-]]; [done|congruence]. }
    destruct (HW _ _ _ Ha' Hp) as [Hc|[Hqu|(j & wkj & r & wake & Hj & Hpj)]].
    + left. by eapply step_closed.
    + right. left. auto.
    + right. right. exists j, wkj, r, wake. eauto 10.
Qed.

Lemma reachable_waiters_ok backoff sys : reachable backoff sys → waiters_ok sys.
Proof.
  apply reachable_induction; [|eauto using waiters_ok_step].
  intros i wk ch. simpl. by rewrite lookup_nil.
Qed.

(** X6: no waiter of [resolveNodeID] is left behind.  In every reachable
    state a worker blocked on the channel of a ledger entry can go on,
    because the channel is closed or the quiesce signal has fired, or
    else the retry loop whose success closes that very channel is still
    running. *)
Theorem waiter_not_stranded backoff sys :
  reachable backoff sys →
  ∀ i wk ch,
    workers sys !! i = Some wk → wPhase wk = PResolveWait ch →
    (∃ res, is_Some (worker_step i (world sys) wk (EvSignalled res)))
    ∨ is_Some (worker_step i (world sys) wk EvQuiesced)
    ∨ ∃ j wkj r wake,
        workers sys !! j = Some wkj ∧ wPhase wkj = PResolveRetry ch r wake.
Proof.
  intros Hreach i wk ch Hi Hp.
  destruct (reachable_waiters_ok _ _ Hreach _ _ _ Hi Hp)
    as [Hc|[Hq|Ho]]; [left|right; left|by right; right].
  - exists (inr (ErrExternal "unknown node")). unfold worker_step.
    rewrite Hp, decide_True by done. by eexists.
  - unfold worker_step. rewrite Hp, Hq. by eexists.
Qed.

Lemma waiter_not_stranded_witness :
  reachable time.Second two_resolvers_sys
  ∧ ∀ i wk ch,
      workers two_resolvers_sys !! i = Some wk → wPhase wk = PResolveWait ch →
      (∃ res, is_Some (worker_step i (world two_resolvers_sys) wk (EvSignalled res)))
      ∨ is_Some (worker_step i (world two_resolvers_sys) wk EvQuiesced)
      ∨ ∃ j wkj r wake,
          workers two_resolvers_sys !! j = Some wkj
          ∧ wPhase wkj = PResolveRetry ch r wake.
Proof.
  assert (Hreach : reachable time.Second two_resolvers_sys)
    by (exists two_resolvers_run; vm_compute; reflexivity).
  split; [exact Hreach|].
  exact (waiter_not_stranded time.Second two_resolvers_sys Hreach).
Defined.

(** The trace only grows. *)
Lemma worker_step_trace i w wk ev w' p :
  worker_step i w wk ev = Some (w', p) → ∃ os, trace w' = trace w ++ os.
Proof.
  unfold worker_step. intros H.
  destruct (wPhase wk) eqn:Hp, ev; simplify_eq/=;
    repeat case_match; simplify_eq/=;
    (by exists []; rewrite app_nil_r) || by eexists [_].
Qed.

Lemma step_trace sys l sys' :
  step sys l = Some sys' →
  ∃ os, trace (world sys') = trace (world sys) ++ os.
Proof.
  intros Hstep.
  assert (Hnil : ∃ os : list Obs, trace (world sys) = trace (world sys) ++ os)
    by (exists []; by rewrite app_nil_r).
  destruct l; simpl in Hstep; simplify_eq/=; try done.
  - case_bool_decide; simplify_eq/=. done.
  - unfold sendBegin. destruct (rangeCheckFails req); simpl; [done|].
    destruct (lookupQueue _ _ _) as [[w1 c] ok] eqn:E.
    apply lookupQueue_frame in E. simpl.
    destruct E as (_ & _ & _ & _ & _ & _ & _ & ->). done.
  - unfold sender_step in Hstep.
    destruct (senders sys !! j) as [[s req c ok|req c|?|]|] eqn:E;
      simplify_eq/=.
    + destruct ok; simpl; [done|]. destruct spawn; simpl; [|done].
      by eexists [_].
    + destruct (trySend _ _ _) as [w1 sent] eqn:E'. simplify_eq/=.
      apply trySend_frame in E'.
      destruct E' as (_ & _ & _ & _ & _ & _ & _ & _ & _ & ->). done.
  - destruct (workers sys !! i) as [wk|] eqn:Hi; simplify_eq/=.
    destruct (worker_step _ _ _ _) as [[w1 p]|] eqn:Hw; simplify_eq/=.
    by eapply worker_step_trace.
  - destruct (inbound sys !! k) as [ib|]; simplify_eq/=.
    destruct (inbound_step _ _ _) as [[w1 ib1]|] eqn:E; simplify_eq/=.
    unfold inbound_step, lookupHandler, afterHandler in E.
    repeat case_match; simplify_eq/=; try done. all: by eexists [_].
Qed.

(** Where the address a worker holds comes from. *)
Lemma worker_step_address i w wk ev w' p addr :
  worker_step i w wk ev = Some (w', p) →
  (p = PDial addr ∨ ∃ ch, p = PResolveDefer ch (inl addr)) →
  (∃ ch, wPhase wk = PResolveDefer ch (inl addr))
  ∨ ObsResolver (NodeID (wTo wk)) (inl addr) ∈ trace w'.
Proof.
  unfold worker_step. intros H Hp.
  destruct (wPhase wk) eqn:Hpw, ev; simplify_eq/=;
    repeat case_match; simplify_eq/=;
    destruct Hp as [Hp|[c Hp]]; simplify_eq/=;
    try match goal with
    | H : afterResolve ?r = _ |- _ => destruct r; simplify_eq/=
    | H : orReturn ?e _ = _ |- _ => destruct e; simplify_eq/=
    | H : afterSend _ ?e = _ |- _ => destruct e; simplify_eq/=
    | H : _ = afterResolve ?r |- _ => destruct r; simplify_eq/=
    | H : _ = orReturn ?e _ |- _ => destruct e; simplify_eq/=
    | H : _ = afterSend _ ?e |- _ => destruct e; simplify_eq/=
    end;
    eauto;
    right; apply elem_of_app; right; by apply list_elem_of_singleton.
Qed.

Lemma dial_ok_step sys l sys' :
  dial_ok sys → step sys l = Some sys' → dial_ok sys'.
Proof.
  intros HI Hstep.
  destruct (step_trace _ _ _ Hstep) as [os Hos].
  assert (Hold : ∀ i wk addr, workers sys !! i = Some wk →
            (wPhase wk = PDial addr ∨ ∃ ch, wPhase wk = PResolveDefer ch (inl addr)) →
            ObsResolver (NodeID (wTo wk)) (inl addr) ∈ trace (world sys')).
  { intros i wk addr Hi Hp. rewrite Hos. apply elem_of_app. left. eauto. }
  destruct (label_worker_cases l) as [(i & ev & ->)|Hl].
  - apply step_worker_inv in Hstep as (wk & w1 & p & Hi & Hw & ->).
    simpl in *. intros j wkj addr Hj Hp.
    apply (lookup_stepped_worker _ _ _ _ _ _ Hi) in Hj as [[-> ->]|[? Hj]];
      [|eauto].
    simpl in *.
    destruct (worker_step_address _ _ _ _ _ _ addr Hw Hp) as [[c Hc]|Hin];
      [eauto|done].
  - apply step_other_ledger in Hstep as [_ Hws]; [|done].
    intros j wkj addr Hj Hp.
    destruct Hws as [Hws|(wk & Hws & Hwk)]; rewrite Hws in Hj; [eauto|].
    apply lookup_snoc_Some in Hj as [[_ Hj]|[_ <-]]; [eauto|].
    rewrite Hwk in Hp. by destruct Hp as [?|[? ?]].
Qed.

Lemma reachable_dial_ok backoff sys : reachable backoff sys → dial_ok sys.
Proof.
  apply reachable_induction; [|eauto using dial_ok_step].
  intros i wk addr. simpl. by rewrite lookup_nil.
Qed.

(** X7: the address [processQueue] dials is one that the resolver
    returned for the node of the worker's destination: whenever a worker
    is about to dial an address, a call of the resolver for that node
    with that address as result is in the trace. *)
Theorem dials_resolved_address backoff sys i wk addr :
  reachable backoff sys →
  workers sys !! i = Some wk →
  wPhase wk = PDial addr →
  ObsResolver (NodeID (wTo wk)) (inl addr) ∈ trace (world sys).
Proof.
  intros Hreach Hi Hp. eapply reachable_dial_ok; eauto.
Qed.

Lemma dials_resolved_address_witness :
  reachable time.Second dialing_sys
  ∧ workers dialing_sys !! 0 = Some dialing_worker
  ∧ ObsResolver 2 (inl "10.0.0.2:26257") ∈ trace (world dialing_sys).
Proof.
  assert (Hreach : reachable time.Second dialing_sys)
    by (exists dialing_run; vm_compute; reflexivity).
  assert (Hw : workers dialing_sys !! 0 = Some dialing_worker)
    by (vm_compute; reflexivity).
  split; [exact Hreach|]. split; [exact Hw|].
  exact (dials_resolved_address time.Second dialing_sys 0 dialing_worker
           "10.0.0.2:26257" Hreach Hw eq_refl).
Defined.

(** ** The order of the messages *)

Lemma written_app i t1 t2 : written i (t1 ++ t2) = written i t1 ++ written i t2.
Proof. apply omap_app. Qed.

Lemma written_not_send i os :
  Forall (λ o, isSend o = false) os → written i os = [].
Proof.
  induction 1 as [|o os Ho _ IH]; [done|].
  destruct o; try discriminate Ho; exact IH.
Qed.

(** A step of a worker either takes the oldest message of its own queue
    and writes it, or leaves all buffers alone and writes nothing. *)
Lemma worker_step_io j w wk ev w' p :
  worker_step j w wk ev = Some (w', p) →
  (sendBuf w' = sendBuf w
   ∧ ∃ os, trace w' = trace w ++ os ∧ Forall (λ o, isSend o = false) os)
  ∨ (∃ req rest err,
       sendBuf w !! wCh wk = Some (req :: rest)
       ∧ sendBuf w' = <[wCh wk := rest]> (sendBuf w)
       ∧ trace w' = trace w ++ [ObsSend j req err]).
Proof.
  unfold worker_step. intros H.
  destruct (wPhase wk) eqn:Hp, ev; simplify_eq/=;
    repeat case_match; simplify_eq/=;
    try (left; split; [done|];
         (by exists []; rewrite app_nil_r)
         || (eexists [_]; split; [done|]; by repeat constructor));
    right; eauto 10.
Qed.

(** The other steps write nothing to a stream; to the buffers they do
    nothing, or add a new empty one under the channel allocated last, or
    put one message at the end of one. *)
Lemma step_other_io sys l sys' :
  step sys l = Some sys' →
  (∀ i ev, l ≠ LWorker i ev) →
  (∃ os, trace (world sys') = trace (world sys) ++ os
         ∧ Forall (λ o, isSend o = false) os)
  ∧ (sendBuf (world sys') = sendBuf (world sys)
     ∨ sendBuf (world sys') = <[nextCh (world sys) := []]> (sendBuf (world sys))
     ∨ ∃ ch buf req,
         sendBuf (world sys) !! ch = Some buf
         ∧ length buf < raftSendBufferSize
         ∧ sendBuf (world sys') = <[ch := buf ++ [req]]> (sendBuf (world sys))).
Proof.
  intros Hstep Hl.
  assert (Hnil : ∃ os : list Obs, trace (world sys) = trace (world sys) ++ os
                   ∧ Forall (λ o, isSend o = false) os)
    by (exists []; by rewrite app_nil_r).
  destruct l; simpl in Hstep; simplify_eq/=; try (split; [done|by left]).
  - case_bool_decide; simplify_eq/=. split; [done|by left].
  - unfold sendBegin. destruct (rangeCheckFails req); simpl;
      [split; [done|by left]|].
    destruct (lookupQueue _ _ _) as [[w1 c] ok] eqn:E.
    pose proof (lookupQueue_frame _ _ _ _ _ _ E)
      as (_ & _ & _ & _ & _ & _ & _ & Ht).
    apply lookupQueue_spec in E as [_ Hok]. simpl. rewrite Ht.
    split; [done|]. destruct ok.
    + left. by destruct Hok as (_ & -> & _).
    + right. left. by destruct Hok as (_ & -> & -> & _).
  - unfold sender_step in Hstep.
    destruct (senders sys !! j) as [[s req c ok|req c|?|]|] eqn:E;
      simplify_eq/=.
    + destruct ok; simpl; [split; [done|by left]|].
      destruct spawn; simpl; (split; [|by left]); [|done].
      eexists [_]. split; [done|]. by repeat constructor.
    + destruct (trySend _ _ _) as [w1 sent] eqn:E'. simplify_eq/=.
      pose proof (trySend_frame _ _ _ _ _ E')
        as (_ & _ & _ & _ & _ & _ & _ & _ & _ & Ht).
      rewrite Ht. split; [done|]. unfold trySend in E'.
      destruct (sendBuf (world sys) !! c) as [buf|] eqn:Eb;
        [|simplify_eq; by left].
      case_decide; simplify_eq/=; [|by left].
      right. right. by exists c, buf, req.
  - by destruct (Hl i ev).
  - destruct (inbound sys !! k) as [ib|]; simplify_eq/=.
    destruct (inbound_step _ _ _) as [[w1 ib1]|] eqn:E; simplify_eq/=.
    pose proof (inbound_step_frame _ _ _ _ _ E) as (_ & _ & _ & Hs & _).
    split; [|by left]. unfold inbound_step, lookupHandler, afterHandler in E.
    repeat case_match; simplify_eq/=; try done.
    all: eexists [_]; split; [done|]; by repeat constructor.
Qed.

(** A worker keeps its place in the list of workers, and its channel,
    destination and class. *)
Lemma step_keeps_worker sys l sys' i wk :
  step sys l = Some sys' → workers sys !! i = Some wk →
  ∃ wk', workers sys' !! i = Some wk'
         ∧ wCh wk' = wCh wk ∧ wSnap wk' = wSnap wk ∧ wTo wk' = wTo wk.
Proof.
  intros Hstep Hi.
  destruct (label_worker_cases l) as [(j & ev & ->)|Hl].
  - apply step_worker_inv in Hstep as (wkj & w1 & p & Hj & Hw & ->). simpl.
    destruct (decide (i = j)) as [->|Hne].
    + rewrite Hi in Hj. injection Hj as <-. exists (set_wPhase p wk).
      rewrite list_lookup_insert_eq by (by eapply lookup_lt_Some). done.
    + exists wk. by rewrite list_lookup_insert_ne.
  - apply step_other_ledger in Hstep as [_ Hws]; [|done].
    exists wk. split; [|done].
    destruct Hws as [->|(wkn & -> & _)]; [done|]. by apply lookup_app_l_Some.
Qed.

Lemma history_step backoff sys l sys' i wk :
  reachable backoff sys →
  workers sys !! i = Some wk →
  step sys l = Some sys' →
  ∃ more,
    written i (trace (world sys')) ++ queued (wCh wk) (world sys')
    = (written i (trace (world sys)) ++ queued (wCh wk) (world sys)) ++ more.
Proof.
  intros Hreach Hi Hstep. unfold queued.
  pose proof (reachable_threads_chan_ok _ _ Hreach) as [Hlt _].
  pose proof (reachable_readers_ok _ _ Hreach) as Hro.
  unfold readers_ok in Hro. apply NoDup_app in Hro as (Hnd & _ & _).
  destruct (label_worker_cases l) as [(j & ev & ->)|Hl].
  - apply step_worker_inv in Hstep as (wkj & w1 & p & Hj & Hw & ->). simpl.
    apply worker_step_io in Hw
      as [(-> & os & -> & Hos)|(req & rest & err & Hb & -> & ->)].
    + exists []. by rewrite written_app, (written_not_send _ _ Hos), !app_nil_r.
    + rewrite written_app. unfold written at 2. simpl.
      destruct (decide (j = i)) as [->|Hne].
      * simplify_eq. rewrite Hb, lookup_insert_eq. simpl.
        exists []. by rewrite app_nil_r, <- app_assoc.
      * rewrite app_nil_r. exists []. rewrite app_nil_r.
        rewrite lookup_insert_ne; [done|].
        intros Hc. destruct Hne. eapply NoDup_lookup; [exact Hnd| |].
        -- by rewrite list_lookup_fmap, Hj.
        -- rewrite list_lookup_fmap, Hi. simpl. by rewrite Hc.
  - apply step_other_io in Hstep as [(os & -> & Hos) Hs]; [|done].
    rewrite written_app, (written_not_send _ _ Hos), app_nil_r.
    destruct Hs as [->|[->|(c & buf & req & Hb & _ & ->)]].
    + exists []. by rewrite app_nil_r.
    + exists []. rewrite app_nil_r, lookup_insert_ne; [done|].
      specialize (Hlt _ _ Hi). lia.
    + destruct (decide (c = wCh wk)) as [->|Hne].
      * rewrite Hb, lookup_insert_eq. simpl. exists [req].
        by rewrite app_assoc.
      * exists []. by rewrite app_nil_r, lookup_insert_ne.
Qed.

(** X8: what a worker has written to its stream, followed by what waits
    in its queue, only grows, and only at its end, whatever the goroutines
    do.  So the messages of a queue are written in the order in which
    they were queued, none twice and none before an older one. *)
Theorem stream_order_is_queue_order backoff sys i wk ls sys' :
  reachable backoff sys →
  workers sys !! i = Some wk →
  run sys ls = Some sys' →
  ∃ more,
    written i (trace (world sys')) ++ queued (wCh wk) (world sys')
    = (written i (trace (world sys)) ++ queued (wCh wk) (world sys)) ++ more.
Proof.
  revert sys wk. induction ls as [|l ls IH]; intros sys wk Hreach Hi Hrun;
    simpl in Hrun.
  - simplify_eq. exists []. by rewrite app_nil_r.
  - destruct (step sys l) as [sys1|] eqn:E; simpl in Hrun; [|done].
    destruct (history_step _ _ _ _ _ _ Hreach Hi E) as [more1 H1].
    destruct (step_keeps_worker _ _ _ _ _ E Hi) as (wk1 & Hi1 & Hc & _).
    destruct (IH sys1 wk1 (reachable_step _ _ _ _ Hreach E) Hi1 Hrun)
      as [more2 H2].
    rewrite Hc in H2. exists (more1 ++ more2).
    by rewrite H2, H1, <- !app_assoc.
Qed.

Lemma stream_order_is_queue_order_witness :
  reachable time.Second three_sends_sys
  ∧ workers three_sends_sys !! 0 = Some three_sends_worker
  ∧ ∃ sys' more,
      run three_sends_sys [LWorker 0 (EvRecv None)] = Some sys'
      ∧ written 0 (trace (world sys')) ++ queued 0 (world sys')
        = (written 0 (trace (world three_sends_sys))
           ++ queued 0 (world three_sends_sys)) ++ more.
Proof.
  assert (Hreach : reachable time.Second three_sends_sys)
    by (exists three_sends_run; vm_compute; reflexivity).
  assert (Hw : workers three_sends_sys !! 0 = Some three_sends_worker)
    by (vm_compute; reflexivity).
  split; [exact Hreach|]. split; [exact Hw|].
  eexists. 
  assert (Hrun : run three_sends_sys [LWorker 0 (EvRecv None)]
                 = Some (default three_sends_sys
                           (run three_sends_sys [LWorker 0 (EvRecv None)])))
    by (vm_compute; reflexivity).
  destruct (stream_order_is_queue_order time.Second three_sends_sys 0
              three_sends_worker _ _ Hreach Hw Hrun) as [more H].
  exists more. split; [exact Hrun|exact H].
Defined.

(** ** One destination per channel *)

Lemma uses_worker sys i wk :
  workers sys !! i = Some wk → uses sys (wCh wk) (wSnap wk, wTo wk).
Proof. left. eauto. Qed.

Lemma uses_looked sys j s req c ok :
  senders sys !! j = Some (SLooked s req c ok) → uses sys c (keyOf req).
Proof. right; left. eauto 10. Qed.

Lemma uses_select sys j req c :
  senders sys !! j = Some (SSelect req c) → uses sys c (keyOf req).
Proof. right; right; left. eauto. Qed.

Lemma uses_buf sys c buf req :
  sendBuf (world sys) !! c = Some buf → req ∈ buf → uses sys c (keyOf req).
Proof. right; right; right; left. eauto. Qed.

Lemma uses_reg sys snap to c :
  queue_of snap to (world sys) = Some c → uses sys c (snap, to).
Proof. by right; right; right; right. Qed.

(** A step gives a channel no second destination: a use after the step
    was one before it, unless the channel is the one the step allocated,
    which a step puts to one use only. *)
Lemma uses_step sys l sys' :
  step sys l = Some sys' →
  ∃ k0, ∀ c k, uses sys' c k →
    uses sys c k
    ∨ (c = nextCh (world sys) ∧ k = k0
       ∧ nextCh (world sys) < nextCh (world sys')).
Proof.
  intros Hstep.
  destruct (label_worker_cases l) as [(j & ev & ->)|Hl].
  - apply step_worker_inv in Hstep as (wkj & w1 & p & Hj & Hw & ->).
    exists (false, wTo wkj). intros c k Hu. left.
    pose proof (worker_step_io _ _ _ _ _ _ Hw) as Hio.
    pose proof (worker_step_registry _ _ _ _ _ _ Hw) as [_ Hreg].
    destruct Hu as [(i & wk & H1 & <- & <-)|[(j' & s & r & ok & H1 & <-)
      |[(j' & r & H1 & <-)|[(buf & r & H1 & H2 & <-)|H1]]]]; simpl in *.
    + apply (lookup_stepped_worker _ _ _ _ _ _ Hj) in H1 as [[_ ->]|[_ H1]];
        [exact (uses_worker _ _ _ Hj)|exact (uses_worker _ _ _ H1)].
    + by eapply uses_looked.
    + by eapply uses_select.
    + destruct Hio as [(Hs & _)|(req & rest & err & Hb & Hs & _)];
        rewrite Hs in H1; [by eapply uses_buf|].
      destruct (decide (c = wCh wkj)) as [->|Hne].
      * rewrite lookup_insert_eq in H1. injection H1 as <-.
        eapply uses_buf; [exact Hb|]. apply elem_of_cons; by right.
      * rewrite lookup_insert_ne in H1 by done. by eapply uses_buf.
    + destruct k as [snap to]. simpl in H1. apply uses_reg.
      destruct Hreg as [[Hq _]|[_ Hq]].
      * by rewrite <- (queue_of_ext _ _ _ _ Hq).
      * rewrite (queue_of_ext w1
                   (set_queues (alter (delete (wTo wkj)) (wSnap wkj)) (world sys)))
          in H1 by exact Hq.
        rewrite queue_of_delete in H1. by case_decide.
  - destruct l; simpl in Hstep; simplify_eq/=.
    + exists (false, replicaA). intros c k Hu. left. exact Hu.
    + exists (false, replicaA). intros c k Hu. left. exact Hu.
    + case_bool_decide; simplify_eq/=.
      exists (false, replicaA). intros c k Hu. left. exact Hu.
    + exists (false, replicaA). intros c k Hu. left. exact Hu.
    + exists (false, replicaA). intros c k Hu. left. exact Hu.
    + unfold sendBegin. destruct (rangeCheckFails req) eqn:Hr.
      * exists (false, replicaA). intros c k Hu. left.
        destruct Hu as [H|[(j' & s' & r & ok & H1 & <-)
          |[(j' & r & H1 & <-)|[H|H]]]]; simpl in *.
        -- left; exact H.
        -- apply lookup_snoc_Some in H1 as [[_ H1]|[_ ?]];
             [by eapply uses_looked|done].
        -- apply lookup_snoc_Some in H1 as [[_ H1]|[_ ?]];
             [by eapply uses_select|done].
        -- right; right; right; left; exact H.
        -- right; right; right; right; exact H.
      * destruct (lookupQueue _ _ _) as [[w1 c0] ok0] eqn:E.
        apply lookupQueue_spec in E as [Hq Hok].
        exists (keyOf req). intros c k Hu.
        assert (Hnew : uses sys c0 (keyOf req)
                       ∨ (c0 = nextCh (world sys)
                          ∧ nextCh (world sys) < nextCh w1)).
        { destruct ok0.
          - left. apply uses_reg. by destruct Hok as [? _].
          - right. destruct Hok as (_ & -> & _ & ->). split; [done|lia]. }
        destruct Hu as [H|[(j' & s' & r & ok & H1 & <-)
          |[(j' & r & H1 & <-)|[(buf & r & H1 & H2 & <-)|H1]]]]; simpl in *.
        -- left; left; exact H.
        -- apply lookup_snoc_Some in H1 as [[_ H1]|[_ ?]];
             [left; by eapply uses_looked|]. simplify_eq.
           destruct Hnew as [?|[? ?]]; [by left|by right].
        -- apply lookup_snoc_Some in H1 as [[_ H1]|[_ ?]];
             [left; by eapply uses_select|done].
        -- left. destruct ok0.
           ++ destruct Hok as (_ & Hs & _). rewrite Hs in H1.
              by eapply uses_buf.
           ++ destruct Hok as (_ & _ & Hs & _). rewrite Hs in H1.
              destruct (decide (c = c0)) as [->|Hne].
              ** rewrite lookup_insert_eq in H1. injection H1 as <-.
                 by apply elem_of_nil in H2.
              ** rewrite lookup_insert_ne in H1 by done. by eapply uses_buf.
        -- destruct k as [snap to]. simpl in H1. rewrite Hq in H1.
           case_decide as Hk.
           ++ destruct Hk as [-> ->]. injection H1 as <-.
              destruct Hnew as [?|[? ?]]; [by left|by right].
           ++ left. by apply uses_reg.
    + unfold sender_step in Hstep.
      destruct (senders sys !! j) as [[s req c0 ok|req c0|?|]|] eqn:E;
        simplify_eq/=.
      * exists (false, replicaA). intros c k Hu. left.
        pose proof (uses_looked _ _ _ _ _ _ E) as Hold.
        destruct Hu as [(i & wk & H1 & <- & <-)|[(j' & s' & r & ok' & H1 & <-)
          |[(j' & r & H1 & <-)|[(buf & r & H1 & H2 & <-)|H1]]]]; simpl in *.
        -- destruct ok; [|destruct spawn]; simpl in H1;
             try (by eapply uses_worker).
           apply lookup_snoc_Some in H1 as [[_ H1]|[_ <-]];
             [by eapply uses_worker|exact Hold].
        -- apply list_lookup_insert_Some in H1 as [(_ & ? & _)|[_ H1]];
             [done|].
           destruct ok; [|destruct spawn]; simpl in H1; by eapply uses_looked.
        -- apply list_lookup_insert_Some in H1 as [(_ & ? & _)|[_ H1]];
             [by simplify_eq|].
           destruct ok; [|destruct spawn]; simpl in H1; by eapply uses_select.
        -- destruct ok; [|destruct spawn]; simpl in H1; by eapply uses_buf.
        -- destruct k as [snap to]. apply uses_reg.
           destruct ok; [|destruct spawn]; exact H1.
      * destruct (trySend _ _ _) as [w1 sent] eqn:E'. simplify_eq/=.
        exists (false, replicaA). intros c k Hu. left.
        pose proof (uses_select _ _ _ _ E) as Hold.
        pose proof (trySend_frame _ _ _ _ _ E') as (_ & Hq & _).
        destruct Hu as [H|[(j' & s' & r & ok' & H1 & <-)
          |[(j' & r & H1 & <-)|[(buf & r & H1 & H2 & <-)|H1]]]]; simpl in *.
        -- left; exact H.
        -- apply list_lookup_insert_Some in H1 as [(_ & ? & _)|[_ H1]];
             [done|by eapply uses_looked].
        -- apply list_lookup_insert_Some in H1 as [(_ & ? & _)|[_ H1]];
             [done|by eapply uses_select].
        -- unfold trySend in E'.
           destruct (sendBuf (world sys) !! c0) as [buf0|] eqn:Eb;
             [|simplify_eq; by eapply uses_buf].
           case_decide; simplify_eq/=; [|by eapply uses_buf].
           destruct (decide (c = c0)) as [->|Hne].
           ++ rewrite lookup_insert_eq in H1. injection H1 as <-.
              apply elem_of_app in H2 as [H2|H2]; [by eapply uses_buf|].
              apply list_elem_of_singleton in H2 as ->. exact Hold.
           ++ rewrite lookup_insert_ne in H1 by done. by eapply uses_buf.
        -- destruct k as [snap to]. apply uses_reg.
           by rewrite <- (queue_of_ext _ _ _ _ Hq).
    + by destruct (Hl i ev).
    + exists (false, replicaA). intros c k Hu. left. exact Hu.
    + destruct (inbound sys !! k) as [ib|]; simplify_eq/=.
      destruct (inbound_step _ _ _) as [[w1 ib1]|] eqn:E; simplify_eq/=.
      pose proof (inbound_step_frame _ _ _ _ _ E) as (_ & Hq & _ & Hs & _).
      exists (false, replicaA). intros c key Hu. left.
      destruct Hu as [H|[H|[H|[(buf & r & H1 & H2 & <-)|H1]]]]; simpl in *.
      * left; exact H.
      * right; left; exact H.
      * right; right; left; exact H.
      * rewrite Hs in H1. by eapply uses_buf.
      * destruct key as [snap to]. apply uses_reg.
        by rewrite <- (queue_of_ext _ _ _ _ Hq).
Qed.

Lemma reachable_coherent backoff sys : reachable backoff sys → coherent sys.
Proof.
  revert sys. apply reachable_induction.
  - assert (Hno : ∀ c k, ¬ uses (initial backoff) c k).
    { intros c k [(i & wk & H & _)|[(j & s & r & ok & H & _)
        |[(j & r & H & _)|[(buf & r & H & _)|H]]]]; simpl in H;
        try (by rewrite lookup_nil in H); try (by rewrite lookup_empty in H).
      unfold queue_of in H. simpl in H. by rewrite lookup_empty in H. }
    split; [intros c k H|intros c k1 k2 H]; by destruct (Hno _ _ H).
  - intros sys l sys' _ [Hlt Hone] Hstep.
    pose proof (step_nextCh _ _ _ Hstep) as Hn.
    destruct (uses_step _ _ _ Hstep) as [k0 Hu]. split.
    + intros c k H. destruct (Hu _ _ H) as [H'|(-> & _ & ?)]; [|done].
      specialize (Hlt _ _ H'). lia.
    + intros c k1 k2 H1 H2.
      destruct (Hu _ _ H1) as [H1'|(Hc1 & -> & _)],
               (Hu _ _ H2) as [H2'|(Hc2 & -> & _)].
      * by eapply Hone.
      * specialize (Hlt _ _ H1'). lia.
      * specialize (Hlt _ _ H2'). lia.
      * done.
Qed.

Lemma reachable_deliveries_ok backoff sys :
  reachable backoff sys → deliveries_ok sys.
Proof.
  revert sys. apply reachable_induction.
  - intros i req err H. simpl in H. by apply elem_of_nil in H.
  - intros sys l sys' Hreach IH Hstep i req err Hin.
    assert (Hold : ObsSend i req err ∈ trace (world sys) →
                   ∃ wk, workers sys' !! i = Some wk
                         ∧ isSnap req = wSnap wk ∧ ToReplica req = wTo wk).
    { intros H. destruct (IH _ _ _ H) as (wk & Hi & Hs & Ht).
      destruct (step_keeps_worker _ _ _ _ _ Hstep Hi) as (wk' & ? & _ & ? & ?).
      exists wk'. split; [done|]. split; congruence. }
    assert (Hquiet : ∀ os, Forall (λ o, isSend o = false) os →
                     ObsSend i req err ∉ os).
    { intros os Hos H. rewrite Forall_forall in Hos. by apply Hos in H. }
    destruct (label_worker_cases l) as [(j & ev & ->)|Hl].
    + pose proof Hstep as Hstep'.
      apply step_worker_inv in Hstep' as (wkj & w1 & p & Hj & Hw & ->).
      simpl in Hin.
      apply worker_step_io in Hw
        as [(_ & os & Ht & Hos)|(req0 & rest & err0 & Hb & _ & Ht)];
        rewrite Ht in Hin; apply elem_of_app in Hin as [Hin|Hin]; auto.
      * by apply Hquiet in Hin.
      * apply list_elem_of_singleton in Hin. simplify_eq.
        destruct (step_keeps_worker _ _ _ _ _ Hstep Hj)
          as (wk' & Hj' & _ & Hs & Hto).
        exists wk'. split; [done|].
        destruct (reachable_coherent _ _ Hreach) as [_ Hone].
        assert (Hk : keyOf req0 = (wSnap wkj, wTo wkj)).
        { eapply Hone; [eapply uses_buf; [exact Hb|by left]|].
          by eapply uses_worker. }
        unfold keyOf in Hk. simplify_eq. by rewrite Hs, Hto.
    + apply step_other_io in Hstep as [(os & Ht & Hos) _]; [|done].
      rewrite Ht in Hin. apply elem_of_app in Hin as [Hin|Hin]; auto.
      by apply Hquiet in Hin.
Qed.

(** X9: a message is written only to the stream of the worker that was
    started for the message's own destination and class (snapshot or
    not): whatever the interleaving of calls and workers, no message goes
    out on the stream of another replica or of the other class. *)
Theorem written_to_own_destination backoff sys i req err :
  reachable backoff sys →
  ObsSend i req err ∈ trace (world sys) →
  ∃ wk, workers sys !! i = Some wk
        ∧ wTo wk = ToReplica req ∧ wSnap wk = isSnap req.
Proof.
  intros Hreach Hin.
  destruct (reachable_deliveries_ok _ _ Hreach _ _ _ Hin) as (wk & ? & ? & ?).
  eauto.
Qed.

Lemma written_to_own_destination_witness :
  reachable time.Second three_sends_sys
  ∧ ObsSend 0 (mkReq raftpb.MsgApp 1 replicaB) None
      ∈ trace (world three_sends_sys)
  ∧ ∃ wk, workers three_sends_sys !! 0 = Some wk
          ∧ wTo wk = replicaB ∧ wSnap wk = false.
Proof.
  assert (Hreach : reachable time.Second three_sends_sys)
    by (exists three_sends_run; vm_compute; reflexivity).
  assert (Ht : trace (world three_sends_sys)
               = [ObsResolver 2 (inl "10.0.0.2:26257");
                  ObsSend 0 (mkReq raftpb.MsgApp 1 replicaB) None])
    by (vm_compute; reflexivity).
  assert (Hin : ObsSend 0 (mkReq raftpb.MsgApp 1 replicaB) None
                ∈ trace (world three_sends_sys))
    by (rewrite Ht; apply elem_of_cons; right; apply elem_of_cons; by left).
  split; [exact Hreach|]. split; [exact Hin|].
  exact (written_to_own_destination time.Second three_sends_sys 0 _ None
           Hreach Hin).
Defined.

(** X10: every message that waits in the queue registered for a
    destination and class is a message for that destination and of that
    class, and the worker that reads a channel was started for what the
    channel is registered for. *)
Theorem queue_holds_own_messages backoff sys snap to ch :
  reachable backoff sys →
  queue_of snap to (world sys) = Some ch →
  (∀ buf req, sendBuf (world sys) !! ch = Some buf → req ∈ buf →
     ToReplica req = to ∧ isSnap req = snap)
  ∧ (∀ i wk, workers sys !! i = Some wk → wCh wk = ch →
       wTo wk = to ∧ wSnap wk = snap).
Proof.
  intros Hreach Hq. destruct (reachable_coherent _ _ Hreach) as [_ Hone].
  pose proof (uses_reg _ _ _ _ Hq) as Hr. split.
  - intros buf req Hb Hin.
    pose proof (Hone _ _ _ (uses_buf _ _ _ _ Hb Hin) Hr) as Hk.
    unfold keyOf in Hk. by simplify_eq.
  - intros i wk Hi <-.
    pose proof (Hone _ _ _ (uses_worker _ _ _ Hi) Hr) as Hk. by simplify_eq.
Qed.

Lemma queue_holds_own_messages_witness :
  reachable time.Second three_sends_sys
  ∧ queue_of false replicaB (world three_sends_sys) = Some 0
  ∧ (∀ buf req, sendBuf (world three_sends_sys) !! 0 = Some buf → req ∈ buf →
       ToReplica req = replicaB ∧ isSnap req = false)
  ∧ (∀ i wk, workers three_sends_sys !! i = Some wk → wCh wk = 0 →
       wTo wk = replicaB ∧ wSnap wk = false).
Proof.
  assert (Hreach : reachable time.Second three_sends_sys)
    by (exists three_sends_run; vm_compute; reflexivity).
  assert (Hq : queue_of false replicaB (world three_sends_sys) = Some 0)
    by (vm_compute; reflexivity).
  split; [exact Hreach|]. split; [exact Hq|].
  exact (queue_holds_own_messages time.Second three_sends_sys false replicaB 0
           Hreach Hq).
Defined.

(** ** The bound of the queues *)

(** ** The select of SendAsync *)

(** A channel that has been made stays. *)
Lemma step_buf_stays sys l sys' c :
  step sys l = Some sys' →
  is_Some (sendBuf (world sys) !! c) → is_Some (sendBuf (world sys') !! c).
Proof.
  intros Hstep Hc.
  destruct (label_worker_cases l) as [(j & ev & ->)|Hl].
  - apply step_worker_inv in Hstep as (wkj & w1 & p & Hj & Hw & ->). simpl.
    apply worker_step_io in Hw
      as [(-> & _)|(req & rest & err & Hb & -> & _)]; [done|].
    destruct (decide (c = wCh wkj)) as [->|Hne].
    + rewrite lookup_insert_eq. by eexists.
    + by rewrite lookup_insert_ne.
  - destruct (step_other_io _ _ _ Hstep Hl)
      as [_ [->|[->|(c0 & buf & req & Hb & _ & ->)]]]; [done| |].
    + destruct (decide (c = nextCh (world sys))) as [->|Hne].
      * rewrite lookup_insert_eq. by eexists.
      * by rewrite lookup_insert_ne.
    + destruct (decide (c = c0)) as [->|Hne].
      * rewrite lookup_insert_eq. by eexists.
      * by rewrite lookup_insert_ne.
Qed.

Lemma reachable_held_ok backoff sys : reachable backoff sys → held_ok sys.
Proof.
  revert sys. apply (reachable_induction backoff held_ok).
  - intros j sc ch H. simpl in H. by rewrite lookup_nil in H.
  - intros sys l sys' Hreach IH Hstep j sc ch Hj Hsc.
    assert (Hold : ∀ j0 sc0, senders sys !! j0 = Some sc0 →
              (∃ s req ok, sc0 = SLooked s req ch ok)
              ∨ (∃ req, sc0 = SSelect req ch) →
              is_Some (sendBuf (world sys') !! ch)).
    { intros j0 sc0 H0 Hc0. eapply step_buf_stays; [exact Hstep|].
      by eapply IH. }
    destruct (label_worker_cases l) as [(i & ev & ->)|Hl].
    { pose proof Hstep as Hstep'.
      apply step_worker_inv in Hstep' as (wki & w1 & p & Hi & Hw & ->).
      by eapply Hold. }
    destruct l; simpl in Hstep; simplify_eq/=; try (by eapply Hold).
    + case_bool_decide; simplify_eq/=. by eapply Hold.
    + unfold sendBegin in *. destruct (rangeCheckFails req) eqn:Hr.
      * simpl in Hj. apply lookup_snoc_Some in Hj as [[_ Hj]|[_ <-]];
          [by eapply Hold|].
        by destruct Hsc as [(? & ? & ? & ?)|(? & ?)].
      * destruct (lookupQueue _ _ _) as [[w1 c] ok] eqn:E.
        simpl in Hj. apply lookup_snoc_Some in Hj as [[_ Hj]|[_ <-]];
          [by eapply Hold|].
        destruct Hsc as [(s0 & rq & ok0 & ?)|(? & ?)]; simplify_eq.
        apply lookupQueue_spec in E as [_ Hok]. simpl. destruct ok0.
        -- destruct Hok as (Hq & -> & _).
           by destruct (reachable_chan_ok _ _ Hreach) as [Hc _];
             destruct (Hc _ _ _ Hq).
        -- destruct Hok as (_ & -> & -> & _). rewrite lookup_insert_eq.
           by eexists.
    + pose proof Hstep as Hstep'. unfold sender_step in Hstep'.
      destruct (senders sys !! j0) as [[s rq c ok|rq c|?|]|] eqn:E;
        simplify_eq/=.
      * apply list_lookup_insert_Some in Hj as [(-> & <- & _)|[_ Hj]].
        -- destruct Hsc as [(? & ? & ? & ?)|(? & ?)]; simplify_eq.
           eapply Hold; [exact E|]. left. eauto.
        -- destruct ok; [|destruct spawn]; simpl in *;
             exact (Hold _ _ Hj Hsc).
      * destruct (trySend _ _ _) as [w1 sent] eqn:E'. simplify_eq/=.
        apply list_lookup_insert_Some in Hj as [(-> & <- & _)|[_ Hj]].
        -- by destruct Hsc as [(? & ? & ? & ?)|(? & ?)].
        -- exact (Hold _ _ Hj Hsc).
    + by destruct (Hl i ev).
    + destruct (inbound sys !! k) as [ib|]; simplify_eq/=.
      destruct (inbound_step _ _ _) as [[w1 ib1]|] eqn:E; simplify_eq/=.
      by eapply Hold.
Qed.

(** X4: a call of [SendAsync] that stands at its select can always take
    the step, whatever has happened since it looked the queue up: the
    channel it holds exists and holds at most [raftSendBufferSize]
    messages.  The call returns false if and only if the channel holds
    [raftSendBufferSize] messages at that moment, and then changes
    nothing; otherwise it returns true and the message is the last one of
    the channel. *)
Theorem SendAsync_select_false_iff_full backoff sys j req ch spawn :
  reachable backoff sys →
  senders sys !! j = Some (SSelect req ch) →
  ∃ buf sent w',
    sendBuf (world sys) !! ch = Some buf
    ∧ length buf ≤ raftSendBufferSize
    ∧ step sys (LSender j spawn)
      = Some (set_senders (insert j (SReturned sent)) (set_world w' sys))
    ∧ (sent = false ↔ length buf = raftSendBufferSize)
    ∧ (sent = false → w' = world sys)
    ∧ (sent = true →
       sendBuf w' = <[ch := buf ++ [req]]> (sendBuf (world sys))
       ∧ queues w' = queues (world sys) ∧ trace w' = trace (world sys)).
Proof.
  intros Hreach Hj.
  destruct (reachable_held_ok _ _ Hreach j _ ch Hj) as [buf Hb];
    [right; eauto|].
  destruct (reachable_chan_ok _ _ Hreach) as [_ Hcap].
  specialize (Hcap _ _ Hb).
  destruct (decide (length buf < raftSendBufferSize)) as [Hlt|Hge].
  - exists buf, true, (set_sendBuf (insert ch (buf ++ [req])) (world sys)).
    split; [done|]. split; [done|]. split.
    { simpl. unfold sender_step. rewrite Hj. unfold trySend. rewrite Hb.
      by rewrite decide_True. }
    split; [split; [done|lia]|]. split; [done|]. done.
  - exists buf, false, (world sys).
    split; [done|]. split; [done|]. split.
    { simpl. unfold sender_step. rewrite Hj. unfold trySend. rewrite Hb.
      by rewrite decide_False. }
    split; [split; [lia|done]|]. split; done.
Qed.

Lemma SendAsync_select_false_iff_full_witness :
  reachable time.Second at_select_sys
  ∧ senders at_select_sys !! 100
    = Some (SSelect (mkReq raftpb.MsgApp 1 replicaB) 0)
  ∧ ∃ buf sent w',
      sendBuf (world at_select_sys) !! 0 = Some buf
      ∧ step at_select_sys (LSender 100 None)
        = Some (set_senders (insert 100 (SReturned sent))
                  (set_world w' at_select_sys))
      ∧ (sent = false ↔ length buf = raftSendBufferSize).
Proof.
  assert (Hreach : reachable time.Second at_select_sys)
    by (exists at_select_run; vm_compute; reflexivity).
  assert (Hj : senders at_select_sys !! 100
               = Some (SSelect (mkReq raftpb.MsgApp 1 replicaB) 0))
    by (vm_compute; reflexivity).
  destruct (SendAsync_select_false_iff_full time.Second at_select_sys 100
              _ 0 None Hreach Hj)
    as (buf & sent & w' & Hb & _ & Hs & Hiff & _).
  split; [exact Hreach|]. split; [exact Hj|].
  exists buf, sent, w'. split; [exact Hb|]. split; [exact Hs|exact Hiff].
Defined.

(** X11: no channel of the transport ever holds more than
    [raftSendBufferSize] messages, whatever the callers of [SendAsync]
    and the workers do: the memory a destination takes is bounded. *)
Theorem queue_never_over_bound backoff sys ch buf :
  reachable backoff sys →
  sendBuf (world sys) !! ch = Some buf →
  length buf ≤ raftSendBufferSize.
Proof.
  intros Hreach Hb. destruct (reachable_chan_ok _ _ Hreach) as [_ Hlen].
  by eapply Hlen.
Qed.

Lemma queue_never_over_bound_witness :
  reachable time.Second full_sys
  ∧ ∃ buf, sendBuf (world full_sys) !! 0 = Some buf
           ∧ length buf ≤ raftSendBufferSize.
Proof.
  assert (Hreach : reachable time.Second full_sys)
    by (exists fill_run; vm_compute; reflexivity).
  assert (Hb : sendBuf (world full_sys) !! 0
               = Some (default [] (sendBuf (world full_sys) !! 0)))
    by (vm_compute; reflexivity).
  split; [exact Hreach|]. eexists. split; [exact Hb|].
  exact (queue_never_over_bound time.Second full_sys 0 _ Hreach Hb).
Defined.

(** ** The handlers of the stores *)

(** A handler is called by a step of a stream that had read this handler
    for this request. *)
Lemma step_handler_calls sys l sys' :
  step sys l = Some sys' →
  ∃ os, trace (world sys') = trace (world sys) ++ os
        ∧ ∀ h req err, ObsHandler h req err ∈ os →
            ∃ k ib, inbound sys !! k = Some ib
                    ∧ inLoop ib = LoopHandling h req.
Proof.
  intros Hstep.
  destruct (label_worker_cases l) as [(j & ev & ->)|Hl].
  - apply step_worker_inv in Hstep as (wkj & w1 & p & Hj & Hw & ->). simpl.
    unfold worker_step in Hw.
    destruct (wPhase wkj) eqn:Hp, ev; simplify_eq/=;
      repeat case_match; simplify_eq/=;
      first [ exists []; rewrite app_nil_r; split; [done|]
            | eexists [_]; split; [done|] ];
      intros h rq herr Hin;
      try (by apply elem_of_nil in Hin);
      by apply list_elem_of_singleton in Hin.
  - assert (Hnil : ∃ os : list Obs,
               trace (world sys) = trace (world sys) ++ os
               ∧ ∀ h req err, ObsHandler h req err ∈ os →
                   ∃ k ib, inbound sys !! k = Some ib
                           ∧ inLoop ib = LoopHandling h req).
    { exists []. rewrite app_nil_r. split; [done|].
      intros h rq herr Hin. by apply elem_of_nil in Hin. }
    destruct l; simpl in Hstep; simplify_eq/=; try done.
    + case_bool_decide; simplify_eq/=. done.
    + unfold sendBegin. destruct (rangeCheckFails req); simpl; [done|].
      destruct (lookupQueue _ _ _) as [[w1 c] ok] eqn:E.
      apply lookupQueue_frame in E. simpl.
      destruct E as (_ & _ & _ & _ & _ & _ & _ & ->). done.
    + unfold sender_step in Hstep.
      destruct (senders sys !! j) as [[s req c ok|req c|?|]|] eqn:E;
        simplify_eq/=.
      * destruct ok; simpl; [done|]. destruct spawn; simpl; [|done].
        eexists [_]. split; [done|]. intros h rq herr Hin.
        by apply list_elem_of_singleton in Hin.
      * destruct (trySend _ _ _) as [w1 sent] eqn:E'. simplify_eq/=.
        apply trySend_frame in E'.
        destruct E' as (_ & _ & _ & _ & _ & _ & _ & _ & _ & ->). done.
    + by destruct (Hl i ev).
    + destruct (inbound sys !! k) as [ib|] eqn:Ek; simplify_eq/=.
      destruct (inbound_step _ _ _) as [[w1 ib1]|] eqn:E; simplify_eq/=.
      unfold inbound_step in E.
      repeat case_match; simplify_eq/=; try done.
      eexists [_]. split; [done|]. intros h rq herr Hin.
      apply list_elem_of_singleton in Hin. simplify_eq. eauto.
Qed.

(** A stream holds a handler for a request because it held it before the
    step, or because the step read it from the handlers. *)
Lemma step_in_flight sys l sys' k ib' h req :
  step sys l = Some sys' →
  inbound sys' !! k = Some ib' → inLoop ib' = LoopHandling h req →
  (∃ ib, inbound sys !! k = Some ib ∧ inLoop ib = LoopHandling h req)
  ∨ handlers (world sys) !! StoreID (ToReplica req) = Some h.
Proof.
  intros Hstep Hk Hh.
  destruct (label_worker_cases l) as [(j & ev & ->)|Hl].
  - apply step_worker_inv in Hstep as (wkj & w1 & p & Hj & Hw & ->).
    left. eauto.
  - destruct l; simpl in Hstep; simplify_eq/=; try (left; by eauto).
    + case_bool_decide; simplify_eq/=. left; eauto.
    + left. unfold sendBegin in Hk. destruct (rangeCheckFails req0); [eauto|].
      destruct (lookupQueue _ _ _) as [[w1 c] ok]. eauto.
    + left. unfold sender_step in Hstep.
      destruct (senders sys !! j) as [[s rq c ok|rq c|?|]|] eqn:E;
        simplify_eq/=.
      * destruct ok; [eauto|]. destruct spawn; eauto.
      * destruct (trySend _ _ _) as [w1 sent] eqn:E'. simplify_eq/=. eauto.
    + by destruct (Hl i ev).
    + apply lookup_snoc_Some in Hk as [[_ Hk]|[_ <-]]; [left; eauto|done].
    + destruct (inbound sys !! k0) as [ib|] eqn:Ek; simplify_eq/=.
      destruct (inbound_step _ _ _) as [[w1 ib1]|] eqn:E; simplify_eq/=.
      apply list_lookup_insert_Some in Hk as [(-> & -> & _)|[_ Hk]];
        [|left; eauto].
      unfold inbound_step in E.
      destruct ev; repeat case_match; simplify_eq/=;
        try (left; by eauto).
      * right. match goal with
               | H : lookupHandler _ _ = _ |- _ =>
                   by apply lookupHandler_handling in H as [? ?]; simplify_eq
               end.
      * destruct hres; by simplify_eq/=.
Qed.

(** Only [Listen] and [Stop] for a store change its handler. *)
Lemma step_handlers sys l sys' sid :
  step sys l = Some sys' → touches_store sid l = false →
  handlers (world sys') !! sid = handlers (world sys) !! sid.
Proof.
  intros Hstep Hq.
  destruct (label_worker_cases l) as [(j & ev & ->)|Hl].
  - apply step_worker_inv in Hstep as (wkj & w1 & p & Hj & Hw & ->). simpl.
    apply worker_step_frame in Hw as [Hh _]. by rewrite Hh.
  - destruct l; simpl in Hstep, Hq; simplify_eq/=; try done.
    + case_bool_decide; by simplify_eq/=.
    + apply bool_decide_eq_false in Hq. by rewrite lookup_insert_ne.
    + apply bool_decide_eq_false in Hq. by rewrite lookup_delete_ne.
    + unfold sendBegin. destruct (rangeCheckFails req); simpl; [done|].
      destruct (lookupQueue _ _ _) as [[w1 c] ok] eqn:E.
      apply lookupQueue_frame in E as [Hh _]. simpl. by rewrite Hh.
    + unfold sender_step in Hstep.
      destruct (senders sys !! j) as [[s req c ok|req c|?|]|] eqn:E;
        simplify_eq/=.
      * destruct ok; [done|]. by destruct spawn.
      * destruct (trySend _ _ _) as [w1 sent] eqn:E'. simplify_eq/=.
        apply trySend_frame in E' as [Hh _]. simpl. by rewrite Hh.
    + by destruct (Hl i ev).
    + destruct (inbound sys !! k) as [ib|]; simplify_eq/=.
      destruct (inbound_step _ _ _) as [[w1 ib1]|] eqn:E; simplify_eq/=.
      apply inbound_step_frame in E as [Hh _]. simpl. by rewrite Hh.
Qed.

(** Along a run without [Listen] and [Stop] for a store, a handler called
    for a request to that store is the one registered at the start, or
    one a stream had read before the start and not yet called. *)
Lemma run_handler_calls sys ls sys' sid (P : nat → RaftMessageRequest → Prop) :
  run sys ls = Some sys' →
  Forall (λ l, touches_store sid l = false) ls →
  (∀ h req, StoreID (ToReplica req) = sid →
     handlers (world sys) !! sid = Some h → P h req) →
  (∀ k ib h req, inbound sys !! k = Some ib →
     inLoop ib = LoopHandling h req → StoreID (ToReplica req) = sid → P h req) →
  ∃ os, trace (world sys') = trace (world sys) ++ os
        ∧ ∀ h req err, ObsHandler h req err ∈ os →
            StoreID (ToReplica req) = sid → P h req.
Proof.
  revert sys. induction ls as [|l ls IH]; intros sys Hrun Hq Hreg Hfl;
    simpl in Hrun.
  - simplify_eq. exists []. rewrite app_nil_r. split; [done|].
    intros h req err Hin. by apply elem_of_nil in Hin.
  - destruct (step sys l) as [sys1|] eqn:E; simpl in Hrun; [|done].
    apply Forall_cons in Hq as [Hl Hq].
    destruct (step_handler_calls _ _ _ E) as (os1 & Ht1 & H1).
    destruct (IH sys1 Hrun Hq) as (os2 & Ht2 & H2).
    + intros h req Hs Hh. rewrite (step_handlers _ _ _ _ E Hl) in Hh. eauto.
    + intros k ib h req Hk Hh Hs.
      destruct (step_in_flight _ _ _ _ _ _ _ E Hk Hh) as [(ib0 & ? & ?)|Hr];
        [eauto|].
      apply Hreg; [done|]. by rewrite <- Hs.
    + exists (os1 ++ os2). split; [by rewrite Ht2, Ht1, app_assoc|].
      intros h req err Hin Hs. apply elem_of_app in Hin as [Hin|Hin].
      * destruct (H1 _ _ _ Hin) as (k & ib & ? & ?). eauto.
      * eauto.
Qed.

(** X12: after [Listen] for a store, and until the next [Listen] or
    [Stop] for that store, a request addressed to the store is handed to
    the handler that was registered, whatever else the transport does in
    between; the one exception is a stream that had read the former
    handler for a request before [Listen] ran and calls it afterwards. *)
Theorem Listen_routes_to_handler sys sid handler ls sys' :
  run sys (LListen sid handler :: ls) = Some sys' →
  Forall (λ l, touches_store sid l = false) ls →
  ∃ os, trace (world sys') = trace (world sys) ++ os
        ∧ ∀ h req err, ObsHandler h req err ∈ os →
            StoreID (ToReplica req) = sid →
            h = handler
            ∨ ∃ k ib, inbound sys !! k = Some ib
                      ∧ inLoop ib = LoopHandling h req.
Proof.
  intros Hrun Hq. simpl in Hrun.
  eapply (run_handler_calls _ _ _ sid
            (λ h req, h = handler
                      ∨ ∃ k ib, inbound sys !! k = Some ib
                                ∧ inLoop ib = LoopHandling h req))
    in Hrun; [exact Hrun|exact Hq| |].
  - intros h req _ Hh. simpl in Hh. rewrite lookup_insert_eq in Hh.
    left. by injection Hh.
  - intros k ib h req Hk Hh _. right. eauto.
Qed.

Lemma Listen_routes_to_handler_witness :
  ∃ sys' os,
    run (initial time.Second) (LListen 1 5 :: LListen 2 6 :: one_request_run)
    = Some sys'
    ∧ trace (world sys') = trace (world (initial time.Second)) ++ os
    ∧ ObsHandler 5 (mkReq raftpb.MsgApp 1 replicaA) None ∈ trace (world sys')
    ∧ ∀ h req err, ObsHandler h req err ∈ os →
        StoreID (ToReplica req) = 1%Z →
        h = 5
        ∨ ∃ k ib, inbound (initial time.Second) !! k = Some ib
                  ∧ inLoop ib = LoopHandling h req.
Proof.
  pose (sys' := default (initial time.Second)
                  (run (initial time.Second)
                     (LListen 1 5 :: LListen 2 6 :: one_request_run))).
  assert (Hrun : run (initial time.Second)
                   (LListen 1 5 :: LListen 2 6 :: one_request_run)
                 = Some sys') by (vm_compute; reflexivity).
  assert (Hq : Forall (λ l, touches_store 1 l = false)
                 (LListen 2 6 :: one_request_run))
    by (repeat constructor).
  assert (Ht : trace (world sys')
               = [ObsHandler 5 (mkReq raftpb.MsgApp 1 replicaA) None])
    by (vm_compute; reflexivity).
  destruct (Listen_routes_to_handler _ 1%Z 5 _ _ Hrun Hq) as (os & Hos & Hh).
  exists sys', os. split; [exact Hrun|]. split; [exact Hos|].
  split; [rewrite Ht; apply elem_of_cons; by left|exact Hh].
Defined.

(** X13: after [Stop] for a store, and until the next [Listen] for that
    store, a handler is called for a request addressed to the store only
    by a stream that had read the handler for this request before [Stop]
    ran; no request that is looked up after [Stop] reaches a handler. *)
Theorem Stop_silences_store sys sid ls sys' :
  run sys (LStopStore sid :: ls) = Some sys' →
  Forall (λ l, touches_store sid l = false) ls →
  ∃ os, trace (world sys') = trace (world sys) ++ os
        ∧ ∀ h req err, ObsHandler h req err ∈ os →
            StoreID (ToReplica req) = sid →
            ∃ k ib, inbound sys !! k = Some ib
                    ∧ inLoop ib = LoopHandling h req.
Proof.
  intros Hrun Hq. simpl in Hrun.
  eapply (run_handler_calls _ _ _ sid
            (λ h req, ∃ k ib, inbound sys !! k = Some ib
                              ∧ inLoop ib = LoopHandling h req))
    in Hrun; [exact Hrun|exact Hq| |].
  - intros h req _ Hh. simpl in Hh. by rewrite lookup_delete_eq in Hh.
  - intros k ib h req Hk Hh _. eauto.
Qed.

Lemma Stop_silences_store_witness :
  ∃ sys' os,
    run in_flight_sys (LStopStore 1 :: after_stop_run) = Some sys'
    ∧ trace (world sys') = trace (world in_flight_sys) ++ os
    ∧ trace (world sys')
      = [ObsHandler 5 (mkReq raftpb.MsgApp 1 replicaA) None]
    ∧ inbound sys'
      = [{| inLoop := LoopDone (ErrNoStore replicaA replicaA);
            inRpc := RpcSelect |}]
    ∧ ∀ h req err, ObsHandler h req err ∈ os →
        StoreID (ToReplica req) = 1%Z →
        ∃ k ib, inbound in_flight_sys !! k = Some ib
                ∧ inLoop ib = LoopHandling h req.
Proof.
  pose (sys' := default in_flight_sys
                  (run in_flight_sys (LStopStore 1 :: after_stop_run))).
  assert (Hrun : run in_flight_sys (LStopStore 1 :: after_stop_run) = Some sys')
    by (vm_compute; reflexivity).
  assert (Hq : Forall (λ l, touches_store 1 l = false) after_stop_run)
    by (repeat constructor).
  assert (Ht : trace (world sys')
               = [ObsHandler 5 (mkReq raftpb.MsgApp 1 replicaA) None])
    by (vm_compute; reflexivity).
  assert (Hi : inbound sys'
               = [{| inLoop := LoopDone (ErrNoStore replicaA replicaA);
                     inRpc := RpcSelect |}])
    by (vm_compute; reflexivity).
  destruct (Stop_silences_store _ 1%Z _ _ Hrun Hq) as (os & Hos & Hh).
  exists sys', os. split; [exact Hrun|]. split; [exact Hos|].
  split; [exact Ht|]. split; [exact Hi|exact Hh].
Defined.

(** ** Waking the waiters *)

Lemma ledgerHold_attached p ch : ledgerHold p = Some ch → attached p = Some ch.
Proof. by destruct p. Qed.

(** How a worker gets attached to a channel: it was attached before, it
    found the channel in the ledger, or it has just made the channel. *)
Lemma worker_step_attached j w wk ev w' p ch :
  worker_step j w wk ev = Some (w', p) → attached p = Some ch →
  attached (wPhase wk) = Some ch
  ∨ addrLookups w !! NodeID (wTo wk) = Some ch
  ∨ (ch = nextCh w ∧ nextCh w < nextCh w').
Proof.
  unfold worker_step. intros H Hp.
  destruct (wPhase wk) eqn:Hpw, ev; simplify_eq/=;
    repeat case_match; simplify_eq/=;
    try match goal with
    | H : attached (afterResolve ?r) = _ |- _ => destruct r; simplify_eq/=
    | H : attached (orReturn ?e _) = _ |- _ => destruct e; simplify_eq/=
    | H : attached (afterSend _ ?e) = _ |- _ => destruct e; simplify_eq/=
    end;
    eauto.
Qed.

(** A channel is closed by the retry loop that made it, right after the
    resolver gave an address for its node. *)
Lemma closed_step sys l sys' ch :
  step sys l = Some sys' →
  ch ∈ closedCh (world sys') →
  ch ∈ closedCh (world sys)
  ∨ ∃ j wkj r wake addr,
      workers sys !! j = Some wkj ∧ wPhase wkj = PResolveRetry ch r wake
      ∧ ObsResolver (NodeID (wTo wkj)) (inl addr) ∈ trace (world sys').
Proof.
  intros Hstep Hin.
  destruct (decide (ch ∈ closedCh (world sys))) as [|Hnot]; [by left|right].
  destruct (step_closes _ _ _ _ Hstep Hnot Hin)
    as (i & wk & r & wake & addr & -> & Hi & Hp).
  exists i, wk, r, wake, addr. split; [done|]. split; [done|].
  simpl in Hstep. rewrite Hi in Hstep. simpl in Hstep.
  unfold worker_step in Hstep. rewrite Hp in Hstep.
  case_match; simplify_eq/=.
  apply elem_of_app. right. by apply list_elem_of_singleton.
Qed.

Lemma attached_step backoff sys l sys' i wk' ch :
  reachable backoff sys →
  step sys l = Some sys' →
  workers sys' !! i = Some wk' → attached (wPhase wk') = Some ch →
  (∃ o wko, workers sys !! o = Some wko ∧ attached (wPhase wko) = Some ch
            ∧ NodeID (wTo wko) = NodeID (wTo wk'))
  ∨ (ch = nextCh (world sys) ∧ nextCh (world sys) < nextCh (world sys')
     ∧ ∃ ev, l = LWorker i ev).
Proof.
  intros Hreach Hstep Hi Ha.
  destruct (label_worker_cases l) as [(j & ev & ->)|Hl].
  - apply step_worker_inv in Hstep as (wkj & w1 & p & Hj & Hw & ->).
    simpl in Hi.
    apply (lookup_stepped_worker _ _ _ _ _ _ Hj) in Hi as [[-> ->]|[_ Hi]];
      [|left; eauto].
    simpl in Ha.
    destruct (worker_step_attached _ _ _ _ _ _ _ Hw Ha) as [H|[H|[-> H]]].
    + left. eauto.
    + left. destruct (reachable_ledger_owned _ _ Hreach _ _ H)
        as (o & wko & Ho & Hn & Hh).
      exists o, wko. split; [done|]. split; [|done].
      by apply ledgerHold_attached.
    + right. simpl. eauto.
  - apply step_other_ledger in Hstep as [_ [Hws|(wkn & Hws & Hp)]]; [| |done];
      rewrite Hws in Hi; [left; eauto|].
    apply lookup_snoc_Some in Hi as [[_ Hi]|[_ <-]]; [left; eauto|].
    by rewrite Hp in Ha.
Qed.

Lemma signals_ok_step backoff sys l sys' :
  reachable backoff sys → signals_ok sys → step sys l = Some sys' →
  signals_ok sys'.
Proof.
  intros Hreach (Hlt & Hcl & Hnode & Hres) Hstep.
  pose proof (step_nextCh _ _ _ Hstep) as Hn.
  destruct (step_trace _ _ _ Hstep) as [os Ht].
  assert (Hcl0 : ∀ ch, ch ∈ closedCh (world sys') → ch < nextCh (world sys)).
  { intros ch Hin.
    destruct (closed_step _ _ _ _ Hstep Hin)
      as [H|(j & wkj & r & wake & addr & Hj & Hp & _)]; [by apply Hcl|].
    eapply Hlt; [exact Hj|]. by rewrite Hp. }
  repeat split.
  - intros i wk ch Hi Ha.
    destruct (attached_step _ _ _ _ _ _ _ Hreach Hstep Hi Ha)
      as [(o & wko & Ho & Hao & _)|(-> & ? & _)]; [|done].
    specialize (Hlt _ _ _ Ho Hao). lia.
  - intros ch Hin. specialize (Hcl0 _ Hin). lia.
  - intros i j wk wk' ch Hi Hj Ha Ha'.
    destruct (attached_step _ _ _ _ _ _ _ Hreach Hstep Hi Ha)
      as [(o & wko & Ho & Hao & Hno)|(-> & _ & ev & ->)],
       (attached_step _ _ _ _ _ _ _ Hreach Hstep Hj Ha')
      as [(o' & wko' & Ho' & Hao' & Hno')|(Hc & _ & ev' & Hl)].
    + rewrite <- Hno, <- Hno'. by eapply Hnode.
    + specialize (Hlt _ _ _ Ho Hao). lia.
    + specialize (Hlt _ _ _ Ho' Hao'). lia.
    + injection Hl as -> _. rewrite Hi in Hj. by injection Hj as ->.
  - intros i wk ch Hi Ha Hin.
    destruct (attached_step _ _ _ _ _ _ _ Hreach Hstep Hi Ha)
      as [(o & wko & Ho & Hao & Hno)|(-> & _ & _)].
    + rewrite <- Hno.
      destruct (closed_step _ _ _ _ Hstep Hin)
        as [H|(j & wkj & r & wake & addr & Hj & Hp & Hobs)].
      * destruct (Hres _ _ _ Ho Hao H) as [addr Hobs]. exists addr.
        rewrite Ht. apply elem_of_app. by left.
      * exists addr. rewrite (Hnode o j wko wkj ch); try done.
        by rewrite Hp.
    + specialize (Hcl0 _ Hin). lia.
Qed.

Lemma reachable_signals_ok backoff sys : reachable backoff sys → signals_ok sys.
Proof.
  revert sys. apply reachable_induction.
  - repeat split.
    + intros i wk ch H. simpl in H. by rewrite lookup_nil in H.
    + intros ch H. simpl in H. by apply not_elem_of_empty in H.
    + intros i j wk wk' ch H. simpl in H. by rewrite lookup_nil in H.
    + intros i wk ch H. simpl in H. by rewrite lookup_nil in H.
  - intros sys l sys' Hreach IH Hstep. by eapply signals_ok_step.
Qed.

(** ** The retry loop of resolveNodeID *)

Lemma worker_step_to_retry i w wk ev w' ch r wake :
  worker_step i w wk ev = Some (w', PResolveRetry ch r wake) →
  (∃ r0 wake0, wPhase wk = PResolveRetry ch r0 wake0) ∨ ch = nextCh w.
Proof.
  unfold worker_step. intros H.
  destruct (wPhase wk) eqn:Hp, ev; simplify_eq/=;
    repeat case_match; simplify_eq/=;
    try match goal with
    | H : afterResolve ?r = _ |- _ => by destruct r
    | H : orReturn ?e _ = _ |- _ => by destruct e
    | H : afterSend _ ?e = _ |- _ => by destruct e
    end;
    eauto.
Qed.

(** The channel of a retry loop that is still running is open: only the
    loop itself closes it, on its way out. *)
Lemma reachable_retry_open backoff sys :
  reachable backoff sys →
  ∀ i wk ch r wake,
    workers sys !! i = Some wk → wPhase wk = PResolveRetry ch r wake →
    ch ∉ closedCh (world sys).
Proof.
  revert sys.
  apply (reachable_induction backoff
           (λ sys, ∀ i wk ch r wake,
              workers sys !! i = Some wk →
              wPhase wk = PResolveRetry ch r wake →
              ch ∉ closedCh (world sys))).
  - intros i wk ch r wake H. simpl in H. by rewrite lookup_nil in H.
  - intros sys l sys' Hreach IH Hstep i wk' ch r wake Hi Hp Hin.
    destruct (reachable_signals_ok _ _ Hreach) as (_ & Hcl & Hnode & _).
    destruct (reachable_ledger_ok _ _ Hreach) as [_ Hone].
    assert (Hwas : (∃ wk r0 wake0, workers sys !! i = Some wk
                      ∧ wPhase wk = PResolveRetry ch r0 wake0
                      ∧ ∀ ev, l ≠ LWorker i (EvAttempt ev))
                   ∨ ch = nextCh (world sys)).
    { destruct (label_worker_cases l) as [(j & ev & ->)|Hl].
      - apply step_worker_inv in Hstep as (wkj & w1 & p & Hj & Hw & ->).
        simpl in Hi.
        apply (lookup_stepped_worker _ _ _ _ _ _ Hj) in Hi
          as [[-> ->]|[Hne Hi]].
        + simpl in Hp. subst p.
          destruct (worker_step_to_retry _ _ _ _ _ _ _ _ Hw)
            as [(r0 & wake0 & Hp0)|?]; [|by right].
          destruct (decide (ch ∈ closedCh (world sys))) as [Hc|Hc];
            [by destruct (IH _ _ _ _ _ Hj Hp0)|].
          simpl in Hin. unfold worker_step in Hw. rewrite Hp0 in Hw.
          destruct ev; simplify_eq/=; repeat case_match; simplify_eq/=; done.
        + left. exists wk', r, wake. split; [done|]. split; [done|].
          intros ev' ?. by simplify_eq.
      - apply step_other_ledger in Hstep as [_ [Hws|(wkn & Hws & Hpn)]];
          [| |done]; rewrite Hws in Hi.
        + left. exists wk', r, wake. split; [done|]. split; [done|].
          intros ev' ->. by destruct (Hl i (EvAttempt ev')).
        + apply lookup_snoc_Some in Hi as [[_ Hi]|[_ <-]];
            [|by rewrite Hpn in Hp].
          left. exists wk', r, wake. split; [done|]. split; [done|].
          intros ev' ->. by destruct (Hl i (EvAttempt ev')). }
    destruct Hwas as [(wk & r0 & wake0 & Hi0 & Hp0 & Hl)| ->].
    + destruct (decide (ch ∈ closedCh (world sys))) as [Hc|Hc];
        [by destruct (IH _ _ _ _ _ Hi0 Hp0)|].
      destruct (step_closes _ _ _ _ Hstep Hc Hin)
        as (j & wkj & rj & wakej & addr & -> & Hj & Hpj).
      assert (i = j) as ->; [|by destruct (Hl (inl addr))].
      apply (Hone i j wk wkj); try done.
      * rewrite Hp0. by eexists.
      * rewrite Hpj. by eexists.
      * apply (Hnode i j wk wkj ch); try done; [by rewrite Hp0|by rewrite Hpj].
    + destruct (closed_step _ _ _ _ Hstep Hin)
        as [Hc|(j & wkj & rj & wakej & addr & Hj & Hpj & _)].
      * specialize (Hcl _ Hc). lia.
      * destruct (reachable_signals_ok _ _ Hreach) as (Hlt & _).
        specialize (Hlt j wkj (nextCh (world sys)) Hj).
        rewrite Hpj in Hlt. specialize (Hlt eq_refl). lia.
Qed.

(** C4: a worker in the retry loop of [resolveNodeID] holds the ledger
    entry of its node, with a channel that is still open, and runs the
    loop with initial backoff [InitialResolveBackoff] (one second unless
    the variable was set), multiplier 2, cap 10 seconds and the quiesce
    signal as closer.  An attempt is made at once the first time and
    after the backoff otherwise; after k failed attempts a further
    failure is followed by a wait of min(backoff * 2^k, 10s), before the
    end of which no attempt is made.  The first success closes the
    channel: every worker that waits on it, blocked until then, can go
    on; the loop leaves through the deferred delete, after which the node
    has no ledger entry, with the address.  The loop ends without a
    success only when the quiesce signal has fired, and then the call
    leaves through the same delete with the error "stopped before
    completion". *)
Theorem resolveNodeID_retry_loop backoff sys i wk ch r wake :
  reachable backoff sys →
  workers sys !! i = Some wk →
  wPhase wk = PResolveRetry ch r wake →
  InitialResolveBackoff NewRaftTransport = (1000000000)%Z
  ∧ retry.opts r
    = {| retry.InitialBackoff := backoff;
         retry.MaxBackoff := 10 * time.Second;
         retry.Multiplier := 2;
         retry.Closer := ShouldQuiesce |}
  ∧ addrLookups (world sys) !! NodeID (wTo wk) = Some ch
  ∧ (ch ∉ closedCh (world sys))
  ∧ (∀ res, is_Some (worker_step i (world sys) wk (EvAttempt res)) ↔
            retry.isReset r = true ∨ (wake ≤ now (world sys))%Z)
  ∧ (∀ err, retry.isReset r = true ∨ (wake ≤ now (world sys))%Z →
       ∃ w',
         worker_step i (world sys) wk (EvAttempt (inr err))
         = Some (w', PResolveRetry ch (retry.Next r)
                       (now (world sys) + retry.retryIn (retry.Next r)))
         ∧ w' = emit (ObsResolver (NodeID (wTo wk)) (inr err)) (world sys)
         ∧ trace w'
           = trace (world sys) ++ [ObsResolver (NodeID (wTo wk)) (inr err)]
         ∧ closedCh w' = closedCh (world sys)
         ∧ addrLookups w' = addrLookups (world sys))
  ∧ (∃ k, r = Nat.iter k retry.Next (retry.Start (resolveOpts (world sys)))
          ∧ retry.retryIn (retry.Next r)
            = Z.min (backoff * 2 ^ Z.of_nat k) (10 * 1000000000)
          ∧ ∀ w'' res,
              is_Some (worker_step i w''
                         (set_wPhase
                            (PResolveRetry ch (retry.Next r)
                               (now (world sys) + retry.retryIn (retry.Next r)))
                            wk)
                         (EvAttempt res)) ↔
              (now (world sys)
               + Z.min (backoff * 2 ^ Z.of_nat k) (10 * 1000000000)
               ≤ now w'')%Z)
  ∧ (∀ addr, retry.isReset r = true ∨ (wake ≤ now (world sys))%Z →
       ∃ w',
         worker_step i (world sys) wk (EvAttempt (inl addr))
         = Some (w', PResolveDefer ch (inl addr))
         ∧ w' = set_closedCh (union {[ch]})
                  (emit (ObsResolver (NodeID (wTo wk)) (inl addr)) (world sys))
         ∧ ch ∈ closedCh w'
         ∧ trace w'
           = trace (world sys) ++ [ObsResolver (NodeID (wTo wk)) (inl addr)]
         ∧ addrLookups w' !! NodeID (wTo wk) = Some ch
         ∧ ∀ j wkj,
             workers sys !! j = Some wkj → wPhase wkj = PResolveWait ch →
             (∀ res, worker_step j (world sys) wkj (EvSignalled res) = None)
             ∧ (∀ res, worker_step j w' wkj (EvSignalled res)
                       = Some (emit (ObsResolver (NodeID (wTo wkj)) res) w',
                               afterResolve res)))
  ∧ (is_Some (worker_step i (world sys) wk EvCloser) ↔
     quiesced (world sys) = true)
  ∧ (quiesced (world sys) = true →
     worker_step i (world sys) wk EvCloser
     = Some (world sys,
             PResolveDefer ch (inr (ErrResolutionStopped (NodeID (wTo wk))))))
  ∧ (∀ w' addr,
       worker_step i w' (set_wPhase (PResolveDefer ch (inl addr)) wk) EvDeferred
       = Some (set_addrLookups (delete (NodeID (wTo wk))) w', PDial addr))
  ∧ (∀ w' err,
       worker_step i w' (set_wPhase (PResolveDefer ch (inr err)) wk) EvDeferred
       = Some (set_addrLookups (delete (NodeID (wTo wk))) w',
               PReturn (Some err)))
  ∧ (∀ w' res w'' p,
       worker_step i w' (set_wPhase (PResolveDefer ch res) wk) EvDeferred
       = Some (w'', p) →
       addrLookups w'' !! NodeID (wTo wk) = None
       ∧ (∀ n, n ≠ NodeID (wTo wk) →
            addrLookups w'' !! n = addrLookups w' !! n)
       ∧ trace w'' = trace w' ∧ closedCh w'' = closedCh w').
Proof.
  intros Hreach Hi Hp.
  pose proof (reachable_ledger_ok _ _ Hreach) as [HL _].
  pose proof (reachable_retry_ok _ _ Hreach) as [Hb HR].
  pose proof (reachable_retry_open _ _ Hreach _ _ _ _ _ Hi Hp) as Hopen.
  destruct (HR _ _ _ _ _ Hi Hp) as [k Hk].
  assert (Ho : retry.opts r = resolveOpts (world sys))
    by (rewrite Hk; apply retry_iter_opts).
  assert (Hentry : addrLookups (world sys) !! NodeID (wTo wk) = Some ch).
  { apply HL with i; [done|]. by rewrite Hp. }
  assert (Hen : ∀ res, is_Some (worker_step i (world sys) wk (EvAttempt res)) ↔
            retry.isReset r = true ∨ (wake ≤ now (world sys))%Z).
  { intros res. unfold worker_step. rewrite Hp.
    destruct (retry.isReset r); simpl.
    - split; [by left|]. intros _. destruct res; by eexists.
    - case_bool_decide; split.
      + by right.
      + intros _. destruct res; by eexists.
      + by intros [? ?].
      + by intros [?|?]. }
  assert (Hen' : retry.isReset r = true ∨ (wake ≤ now (world sys))%Z →
            retry.isReset r || bool_decide (wake ≤ now (world sys))%Z = true).
  { intros [->|?]; [done|]. rewrite bool_decide_eq_true_2 by done.
    apply orb_true_r. }
  assert (Hin : retry.retryIn (retry.Next r)
                = Z.min (backoff * 2 ^ Z.of_nat k) (10 * 1000000000)).
  { change (retry.Next r) with (Nat.iter 1 retry.Next r).
    rewrite Hk, <- Nat.iter_add. simpl Nat.add. rewrite retry_iter_Next.
    unfold retry.retryIn, resolveOpts. simpl. by rewrite Hb. }
  split; [done|]. split; [rewrite Ho; unfold resolveOpts; by rewrite Hb|].
  split; [done|]. split; [done|]. split; [done|].
  split.
  { intros err H. eexists. split.
    - unfold worker_step. by rewrite Hp, (Hen' H).
    - done. }
  split.
  { exists k. split; [done|]. split; [done|].
    intros w'' res. unfold worker_step. simpl.
    assert (Hnr : retry.isReset (retry.Next r) = false)
      by (unfold retry.Next; by destruct (retry.isReset r)).
    rewrite Hnr, Hin. simpl. clear Hen Hen'.
    case_bool_decide; split; try done.
    intros _. destruct res; by eexists. }
  split.
  { intros addr H. eexists. split.
    - unfold worker_step. by rewrite Hp, (Hen' H).
    - assert (Hc : ch ∈ {[ch]} ∪ closedCh (world sys))
        by (apply elem_of_union; left; by apply elem_of_singleton).
      split; [done|]. split; [exact Hc|]. split; [done|].
      split; [done|]. intros j wkj Hj Hpj. split.
      + intros res. unfold worker_step. rewrite Hpj.
        by rewrite decide_False.
      + intros res. unfold worker_step. rewrite Hpj.
        by rewrite decide_True. }
  split.
  { unfold worker_step. rewrite Hp, Ho. simpl.
    destruct (quiesced (world sys)); [done|].
    split; [by intros [? ?]|done]. }
  split; [unfold worker_step; rewrite Hp, Ho; simpl; by intros ->|].
  split; [done|]. split; [done|].
  intros w' res w'' p H. unfold worker_step in H. simplify_eq/=.
  split; [by rewrite lookup_delete_eq|]. split; [|done].
  intros n Hn. by rewrite lookup_delete_ne.
Qed.

Lemma resolveNodeID_retry_loop_witness :
  reachable time.Second retrying_sys
  ∧ workers retrying_sys !! 0 = Some retrying_worker
  ∧ retry.opts retrying_state
    = {| retry.InitialBackoff := time.Second;
         retry.MaxBackoff := 10 * time.Second;
         retry.Multiplier := 2;
         retry.Closer := ShouldQuiesce |}
  ∧ addrLookups (world retrying_sys) !! NodeID (wTo retrying_worker) = Some 1
  ∧ 1 ∉ closedCh (world retrying_sys).
Proof.
  assert (Hreach : reachable time.Second retrying_sys)
    by (exists retrying_run; vm_compute; reflexivity).
  assert (Hw : workers retrying_sys !! 0 = Some retrying_worker)
    by (vm_compute; reflexivity).
  destruct (resolveNodeID_retry_loop time.Second retrying_sys 0
              retrying_worker 1 retrying_state time.Second Hreach Hw eq_refl)
    as (_ & H1 & H2 & H3 & _).
  split; [exact Hreach|]. split; [exact Hw|]. split; [exact H1|].
  split; [exact H2|exact H3].
Defined.

(** X14: a worker that waits in [resolveNodeID] on the channel another
    worker put in the ledger is woken through that channel only after
    the resolver has returned an address for the waiter's own node: the
    channel is closed on success only, and all workers on a channel
    resolve the same node. *)
Theorem close_means_resolved backoff sys i wk ch :
  reachable backoff sys →
  workers sys !! i = Some wk →
  wPhase wk = PResolveWait ch →
  ch ∈ closedCh (world sys) →
  ∃ addr, ObsResolver (NodeID (wTo wk)) (inl addr) ∈ trace (world sys).
Proof.
  intros Hreach Hi Hp Hin.
  destruct (reachable_signals_ok _ _ Hreach) as (_ & _ & _ & Hres).
  eapply Hres; [exact Hi| |exact Hin]. by rewrite Hp.
Qed.

Lemma close_means_resolved_witness :
  reachable time.Second woken_sys
  ∧ workers woken_sys !! 1 = Some woken_worker
  ∧ 2 ∈ closedCh (world woken_sys)
  ∧ ∃ addr, ObsResolver 2 (inl addr) ∈ trace (world woken_sys).
Proof.
  assert (Hreach : reachable time.Second woken_sys)
    by (exists woken_run; vm_compute; reflexivity).
  assert (Hw : workers woken_sys !! 1 = Some woken_worker)
    by (vm_compute; reflexivity).
  assert (Hc : bool_decide (2 ∈ closedCh (world woken_sys)) = true)
    by (vm_compute; reflexivity).
  apply bool_decide_eq_true_1 in Hc.
  split; [exact Hreach|]. split; [exact Hw|]. split; [exact Hc|].
  exact (close_means_resolved time.Second woken_sys 1 woken_worker 2
           Hreach Hw eq_refl Hc).
Defined.
